(** * Lector: the article store, the feed parser and the write queue

    A shallow embedding of [src/db.js] (the SQLite-backed article store and
    its promise-chained write lock) and of [parseRSS] from the reader
    component, together with the properties the specification states about
    them.

    Tables are finite maps from the primary key to the remaining columns:
    [feeds] is keyed by [url], [articles] by [id], [meta] by [key].  SQLite
    integers are [Z]; the flag columns [is_read] and [is_starred] hold the
    integers the statements write (0 or 1) and are turned into booleans only
    by [rowToArticle], as in the source. *)

From stdpp Require Import gmap strings list sorting fin_maps pretty.
From Stdlib Require Import ZArith Lia.

Local Open Scope string_scope.
Local Open Scope list_scope.
Local Open Scope Z_scope.

(** ** JavaScript values *)

(** Truthiness of a string: only the empty string is falsy. *)
Definition truthy (s : string) : bool :=
  match s with
  | EmptyString => false
  | String _ _ => true
  end.

(** [a || b] on strings. *)
Definition js_or (a b : string) : string := if truthy a then a else b.

(** [a || b] on an optional string ([null]/[undefined] is [None]). *)
Definition js_or_opt (a : option string) (b : string) : string :=
  match a with
  | Some s => js_or s b
  | None => b
  end.

(** [x || 0] on a number; [None] is [NaN].  Both [NaN] and [0] are falsy. *)
Definition js_or0 (x : option Z) : Z := default 0 x.

(** [!!n] on a number read back from an INTEGER column. *)
Definition js_bool (n : Z) : bool := negb (Z.eqb n 0).

(** ** Rows and tables *)

Module Feed.
Record row := { name : string; added_at : option Z }.
End Feed.

Module Row.
Record t := {
  feed_url : string;
  feed_name : string;
  title : string;
  link : string;
  published : string;
  published_ts : Z;
  content : string;
  author : string;
  is_read : Z;
  is_starred : Z;
  fetched_at : Z
}.
End Row.

(** A parsed feed entry, as [parseRSS] pushes it. *)
Module Item.
Record t := {
  title : string;
  link : string;
  published : string;
  content : string;
  author : string
}.
End Item.

(** The read model returned by [listArticles]. *)
Module Article.
Record t := {
  id : string;
  feedUrl : string;
  feedName : string;
  title : string;
  link : string;
  published : string;
  content : string;
  author : string;
  is_read : bool;
  is_starred : bool
}.
End Article.

(** The records the previous version kept in [localStorage]. *)
Module LegacyFeed.
Record t := { url : string; name : string; addedAt : option string }.
End LegacyFeed.

Module LegacyArticle.
Record t := {
  id : string;
  feedUrl : string;
  feedName : string;
  title : string;
  link : string;
  published : string;
  content : string;
  author : string
}.
End LegacyArticle.

Record Db := {
  feeds : gmap string Feed.row;
  articles : gmap string Row.t;
  meta : gmap string string
}.

Definition set_feeds (f : gmap string Feed.row) (db : Db) : Db :=
  {| feeds := f; articles := articles db; meta := meta db |}.
Definition set_articles (a : gmap string Row.t) (db : Db) : Db :=
  {| feeds := feeds db; articles := a; meta := meta db |}.
Definition set_meta (m : gmap string string) (db : Db) : Db :=
  {| feeds := feeds db; articles := articles db; meta := m |}.

Global Instance row_eq_dec : EqDecision Row.t.
Proof. solve_decision. Defined.
Global Instance feed_row_eq_dec : EqDecision Feed.row.
Proof. solve_decision. Defined.

(** Modelled from the spec: the column defaults of [is_read] and [is_starred]
    ("boolean, default false"); the schema that declares them is not among
    the sources.  The INSERT of [upsertArticles] names neither column. *)
Definition default_is_read : Z := 0.
Definition default_is_starred : Z := 0.

(** The retention cap of the pruning statement ([LIMIT 500]). *)
Definition LIMIT : nat := 500%nat.

(** ** SQL fragments shared by the statements *)

(** [ORDER BY published_ts DESC, fetched_at DESC]: [x] may come before [y]. *)
Definition order_desc (x y : Row.t) : Prop :=
  Row.published_ts y < Row.published_ts x ∨
  (Row.published_ts x = Row.published_ts y ∧ Row.fetched_at y ≤ Row.fetched_at x).

Global Instance order_desc_dec x y : Decision (order_desc x y).
Proof. unfold order_desc. apply _. Defined.

Definition by_order_desc (x y : string * Row.t) : Prop := order_desc x.2 y.2.

Global Instance by_order_desc_dec x y : Decision (by_order_desc x y).
Proof. unfold by_order_desc. apply _. Defined.

(** A SELECT with a WHERE predicate and the ORDER BY above.  Rows that tie on
    both sort columns come out in the scan order of the table, which SQL
    leaves to the engine. *)
Definition select_ordered (P : string * Row.t → Prop) `{∀ x, Decision (P x)}
    (t : gmap string Row.t) : list (string * Row.t) :=
  merge_sort by_order_desc (filter P (map_to_list t)).

(** [INSERT OR IGNORE] on a table keyed by its primary key. *)
Definition insert_or_ignore {A} (k : string) (v : A) (t : gmap string A) : gmap string A :=
  match t !! k with
  | Some _ => t
  | None => <[k := v]> t
  end.

(** The rows the pruning statement considers: [is_starred = 0 AND feed_url = $1]. *)
Definition prunable (feedUrl : string) (kr : string * Row.t) : Prop :=
  Row.is_starred kr.2 = 0 ∧ Row.feed_url kr.2 = feedUrl.

Global Instance prunable_dec feedUrl kr : Decision (prunable feedUrl kr).
Proof. unfold prunable. apply _. Defined.

(** The sub-select: the ids of the [LIMIT] newest prunable rows. *)
Definition prune_keep (feedUrl : string) (t : gmap string Row.t) : list string :=
  (take LIMIT (select_ordered (prunable feedUrl) t)).*1.

(** The row is deleted by the pruning statement. *)
Definition pruned (feedUrl : string) (keep : list string) (kr : string * Row.t) : Prop :=
  prunable feedUrl kr ∧ kr.1 ∉ keep.

Global Instance pruned_dec feedUrl keep kr : Decision (pruned feedUrl keep kr).
Proof. unfold pruned. apply _. Defined.

Definition prune (feedUrl : string) (t : gmap string Row.t) : gmap string Row.t :=
  let keep := prune_keep feedUrl t in
  filter (λ kr, ¬ pruned feedUrl keep kr) t.

Section Store.

(** [new Date(s).getTime()]; [None] stands for [NaN]. *)
Variable Date_getTime : string → option Z.

(** [item.published ? new Date(item.published).getTime() || 0 : 0] *)
Definition publishedTs (published : string) : Z :=
  if truthy published then js_or0 (Date_getTime published) else 0.

(** [`${feedUrl}::${item.link || item.title}`] *)
Definition article_id (feedUrl : string) (item : Item.t) : string :=
  feedUrl +:+ "::" +:+ js_or (Item.link item) (Item.title item).

(** The row the INSERT of [upsertArticles] proposes. *)
Definition fresh_row (now : Z) (feedUrl feedName : string) (item : Item.t) : Row.t :=
  {| Row.feed_url := feedUrl;
     Row.feed_name := feedName;
     Row.title := Item.title item;
     Row.link := Item.link item;
     Row.published := Item.published item;
     Row.published_ts := publishedTs (Item.published item);
     Row.content := Item.content item;
     Row.author := Item.author item;
     Row.is_read := default_is_read;
     Row.is_starred := default_is_starred;
     Row.fetched_at := now |}.

(** [ON CONFLICT(id) DO UPDATE SET feed_name, title, link, published,
    published_ts, content, author, fetched_at]: the columns not listed
    ([feed_url], [is_read], [is_starred]) keep the stored value. *)
Definition conflict_update (now : Z) (feedName : string) (item : Item.t) (old : Row.t) : Row.t :=
  {| Row.feed_url := Row.feed_url old;
     Row.feed_name := feedName;
     Row.title := Item.title item;
     Row.link := Item.link item;
     Row.published := Item.published item;
     Row.published_ts := publishedTs (Item.published item);
     Row.content := Item.content item;
     Row.author := Item.author item;
     Row.is_read := Row.is_read old;
     Row.is_starred := Row.is_starred old;
     Row.fetched_at := now |}.

(** The row left under the id of [item] by its INSERT, given the row stored
    there before. *)
Definition written (now : Z) (feedUrl feedName : string) (item : Item.t)
    (before : option Row.t) : Row.t :=
  match before with
  | Some old => conflict_update now feedName item old
  | None => fresh_row now feedUrl feedName item
  end.

(** One iteration of the loop of [upsertArticles]. *)
Definition upsert_item (now : Z) (feedUrl feedName : string)
    (t : gmap string Row.t) (item : Item.t) : gmap string Row.t :=
  let id := article_id feedUrl item in
  <[id := written now feedUrl feedName item (t !! id)]> t.

Definition upsert_loop (now : Z) (feedUrl feedName : string) (items : list Item.t)
    (t : gmap string Row.t) : gmap string Row.t :=
  foldl (upsert_item now feedUrl feedName) t items.

(** [upsertArticles(feedUrl, feedName, items)], with [now] the value of
    [Date.now()] read on entry. *)
Definition upsertArticles (now : Z) (feedUrl feedName : string) (items : list Item.t)
    (db : Db) : Db :=
  set_articles (prune feedUrl (upsert_loop now feedUrl feedName items (articles db))) db.


(** [addFeed({ url, name, addedAt })] *)
Definition addFeed (url name addedAt : string) (db : Db) : Db :=
  let ts := Date_getTime addedAt in
  set_feeds (insert_or_ignore url {| Feed.name := name; Feed.added_at := ts |} (feeds db)) db.

(** Modelled from the spec: deleting a Feed row "cascades to delete all
    articles whose feedUrl matches".  The cascade is declared by the table
    schema, which is not among the sources; [removeFeed] itself only issues
    [DELETE FROM feeds WHERE url = $1]. *)
Definition cascade_articles (url : string) (t : gmap string Row.t) : gmap string Row.t :=
  filter (λ kr, Row.feed_url kr.2 ≠ url) t.

(** [removeFeed(url)] *)
Definition removeFeed (url : string) (db : Db) : Db :=
  {| feeds := delete url (feeds db);
     articles := cascade_articles url (articles db);
     meta := meta db |}.

(** The conditions [listArticles] pushes onto its WHERE clause. *)
Inductive Condition :=
  | FeedUrlEq (u : string)
  | IsReadEq0
  | IsStarredEq1.

Definition holds (c : Condition) (r : Row.t) : Prop :=
  match c with
  | FeedUrlEq u => Row.feed_url r = u
  | IsReadEq0 => Row.is_read r = 0
  | IsStarredEq1 => Row.is_starred r = 1
  end.

Global Instance holds_dec c r : Decision (holds c r).
Proof. destruct c; simpl; apply _. Defined.

(** [feedUrl] and [filter] are the two optional properties of the argument
    object; [None] is [undefined]. *)
Definition conditions (feedUrl filter : option string) : list Condition :=
  (match feedUrl with
   | Some u => if truthy u then [FeedUrlEq u] else []
   | None => []
   end) ++
  (match filter with
   | Some f =>
       if decide (f = "unread") then [IsReadEq0]
       else if decide (f = "starred") then [IsStarredEq1]
       else []
   | None => []
   end).

(** [conditions.join(" AND ")]; no WHERE clause when the list is empty. *)
Definition where_clause (conds : list Condition) (kr : string * Row.t) : Prop :=
  Forall (λ c, holds c kr.2) conds.

Global Instance where_clause_dec conds kr : Decision (where_clause conds kr).
Proof. unfold where_clause. apply _. Defined.

Definition rowToArticle (r : string * Row.t) : Article.t :=
  {| Article.id := r.1;
     Article.feedUrl := Row.feed_url r.2;
     Article.feedName := Row.feed_name r.2;
     Article.title := Row.title r.2;
     Article.link := Row.link r.2;
     Article.published := Row.published r.2;
     Article.content := Row.content r.2;
     Article.author := Row.author r.2;
     Article.is_read := js_bool (Row.is_read r.2);
     Article.is_starred := js_bool (Row.is_starred r.2) |}.

(** The rows [db.select] hands to [rows.map(rowToArticle)]. *)
Definition listArticles_rows (feedUrl filter : option string) (db : Db) : list (string * Row.t) :=
  select_ordered (where_clause (conditions feedUrl filter)) (articles db).

(** [listArticles({ feedUrl, filter })] *)
Definition listArticles (feedUrl filter : option string) (db : Db) : list Article.t :=
  rowToArticle <$> listArticles_rows feedUrl filter db.

Definition set_is_read (v : Z) (r : Row.t) : Row.t :=
  {| Row.feed_url := Row.feed_url r; Row.feed_name := Row.feed_name r;
     Row.title := Row.title r; Row.link := Row.link r;
     Row.published := Row.published r; Row.published_ts := Row.published_ts r;
     Row.content := Row.content r; Row.author := Row.author r;
     Row.is_read := v; Row.is_starred := Row.is_starred r;
     Row.fetched_at := Row.fetched_at r |}.

Definition set_is_starred (v : Z) (r : Row.t) : Row.t :=
  {| Row.feed_url := Row.feed_url r; Row.feed_name := Row.feed_name r;
     Row.title := Row.title r; Row.link := Row.link r;
     Row.published := Row.published r; Row.published_ts := Row.published_ts r;
     Row.content := Row.content r; Row.author := Row.author r;
     Row.is_read := Row.is_read r; Row.is_starred := v;
     Row.fetched_at := Row.fetched_at r |}.

(** [CASE WHEN c = 1 THEN 0 ELSE 1 END] *)
Definition toggle (c : Z) : Z := if decide (c = 1) then 0 else 1.

(** The flag columns hold only the two integers the statements write. *)
Definition flag (n : Z) : Prop := n = 0 ∨ n = 1.

Definition flags_ok (db : Db) : Prop :=
  ∀ id r, articles db !! id = Some r → flag (Row.is_read r) ∧ flag (Row.is_starred r).

(** A row with other values in the two sort columns. *)
Definition set_sort_columns (ts fetched : Z) (r : Row.t) : Row.t :=
  {| Row.feed_url := Row.feed_url r; Row.feed_name := Row.feed_name r;
     Row.title := Row.title r; Row.link := Row.link r;
     Row.published := Row.published r; Row.published_ts := ts;
     Row.content := Row.content r; Row.author := Row.author r;
     Row.is_read := Row.is_read r; Row.is_starred := Row.is_starred r;
     Row.fetched_at := fetched |}.

(** [markRead(articleId)] *)
Definition markRead (articleId : string) (db : Db) : Db :=
  set_articles (alter (set_is_read 1) articleId (articles db)) db.

(** [toggleRead(articleId)] *)
Definition toggleRead (articleId : string) (db : Db) : Db :=
  set_articles (alter (λ r, set_is_read (toggle (Row.is_read r)) r) articleId (articles db)) db.

(** [toggleStar(articleId)] *)
Definition toggleStar (articleId : string) (db : Db) : Db :=
  set_articles (alter (λ r, set_is_starred (toggle (Row.is_starred r)) r) articleId (articles db)) db.

(** [markAllRead(articleIds)]: returns at once on an empty list, otherwise
    [UPDATE articles SET is_read = 1 WHERE id IN (...)]. *)
Definition markAllRead (articleIds : list string) (db : Db) : Db :=
  match articleIds with
  | [] => db
  | _ =>
      set_articles
        (map_imap (λ id r, Some (if decide (id ∈ articleIds) then set_is_read 1 r else r))
                  (articles db)) db
  end.

(** ** The legacy import *)

(** [localStorage] as [getLocalStorage] sees it: the parsed value under each
    of the four keys, [None] when the key is absent or does not parse. *)
Record LocalStorage := {
  rss_feeds : option (list LegacyFeed.t);
  rss_articles : option (list LegacyArticle.t);
  rss_read : option (gmap string bool);
  rss_starred : option (gmap string bool)
}.

Definition removeItem (key : string) (ls : LocalStorage) : LocalStorage :=
  if decide (key = "rss-feeds") then
    {| rss_feeds := None; rss_articles := rss_articles ls;
       rss_read := rss_read ls; rss_starred := rss_starred ls |}
  else if decide (key = "rss-articles") then
    {| rss_feeds := rss_feeds ls; rss_articles := None;
       rss_read := rss_read ls; rss_starred := rss_starred ls |}
  else if decide (key = "rss-read") then
    {| rss_feeds := rss_feeds ls; rss_articles := rss_articles ls;
       rss_read := None; rss_starred := rss_starred ls |}
  else if decide (key = "rss-starred") then
    {| rss_feeds := rss_feeds ls; rss_articles := rss_articles ls;
       rss_read := rss_read ls; rss_starred := None |}
  else ls.

(** The database together with the browser's [localStorage]. *)
Record World := { db : Db; storage : LocalStorage }.

Definition MARKER : string := "migrated_from_localstorage".

(** [rows.length > 0 && rows[0].value === "1"] *)
Definition migrated (d : Db) : bool := bool_decide (meta d !! MARKER = Some "1").

(** [legacy && legacy[id] ? 1 : 0] *)
Definition legacy_flag (legacy : option (gmap string bool)) (id : string) : Z :=
  match legacy with
  | Some m => if default false (m !! id) then 1 else 0
  | None => 0
  end.

(** The statements the import issues, each committed on its own. *)
Inductive Stmt :=
  | InsertFeedOrIgnore (url : string) (r : Feed.row)
  | InsertArticleOrIgnore (id : string) (r : Row.t)
  | ReplaceMarker
  | RemoveItem (key : string).

Definition exec (w : World) (st : Stmt) : World :=
  match st with
  | InsertFeedOrIgnore url r =>
      {| db := set_feeds (insert_or_ignore url r (feeds (db w))) (db w); storage := storage w |}
  | InsertArticleOrIgnore id r =>
      {| db := set_articles (insert_or_ignore id r (articles (db w))) (db w); storage := storage w |}
  | ReplaceMarker =>
      {| db := set_meta (<[MARKER := "1"]> (meta (db w))) (db w); storage := storage w |}
  | RemoveItem key =>
      {| db := db w; storage := removeItem key (storage w) |}
  end.

Definition run (script : list Stmt) (w : World) : World := foldl exec w script.

(** The clock readings of one call: [Date.now()] taken before the article
    loop, and [new Date().toISOString()] as read at the i-th legacy feed. *)
Record Clock := { now_ms : Z; now_iso : nat → string }.

Definition feed_stmt (c : Clock) (i : nat) (feed : LegacyFeed.t) : Stmt :=
  let ts := Date_getTime (js_or_opt (LegacyFeed.addedAt feed) (now_iso c i)) in
  InsertFeedOrIgnore (LegacyFeed.url feed)
    {| Feed.name := LegacyFeed.name feed; Feed.added_at := ts |}.

Definition legacy_row (c : Clock) (ls : LocalStorage) (a : LegacyArticle.t) : Row.t :=
  {| Row.feed_url := LegacyArticle.feedUrl a;
     Row.feed_name := LegacyArticle.feedName a;
     Row.title := LegacyArticle.title a;
     Row.link := LegacyArticle.link a;
     Row.published := LegacyArticle.published a;
     Row.published_ts := publishedTs (LegacyArticle.published a);
     Row.content := LegacyArticle.content a;
     Row.author := LegacyArticle.author a;
     Row.is_read := legacy_flag (rss_read ls) (LegacyArticle.id a);
     Row.is_starred := legacy_flag (rss_starred ls) (LegacyArticle.id a);
     Row.fetched_at := now_ms c |}.

Definition article_stmt (c : Clock) (ls : LocalStorage) (a : LegacyArticle.t) : Stmt :=
  InsertArticleOrIgnore (LegacyArticle.id a) (legacy_row c ls a).

(** [(legacyFeeds && legacyFeeds.length > 0) || (legacyArticles && legacyArticles.length > 0)] *)
Definition hasData (ls : LocalStorage) : bool :=
  match rss_feeds ls with
  | Some (_ :: _) => true
  | _ => match rss_articles ls with
         | Some (_ :: _) => true
         | _ => false
         end
  end.

(** The two loops: [if (legacyFeeds) for ...] and [if (legacyArticles) for ...]. *)
Definition import_inserts (c : Clock) (ls : LocalStorage) : list Stmt :=
  imap (feed_stmt c) (default [] (rss_feeds ls)) ++
  (article_stmt c ls <$> default [] (rss_articles ls)).

(** The statements of one call of [importFromLocalStorageIfNeeded], in the
    order the function awaits them. *)
Definition import_script (c : Clock) (w : World) : list Stmt :=
  if migrated (db w) then []
  else
    let ls := storage w in
    if hasData ls then
      import_inserts c ls ++
      [ReplaceMarker;
       RemoveItem "rss-feeds"; RemoveItem "rss-articles";
       RemoveItem "rss-read"; RemoveItem "rss-starred"]
    else [ReplaceMarker].

(** [importFromLocalStorageIfNeeded()] run to completion. *)
Definition importFromLocalStorageIfNeeded (c : Clock) (w : World) : World :=
  run (import_script c w) w.

(** The same call cut short after [k] of its statements have committed. *)
Definition import_interrupted (k : nat) (c : Clock) (w : World) : World :=
  run (take k (import_script c w)) w.

End Store.

(** The keys a script inserts into each table. *)
Definition feed_key (st : Stmt) : option string :=
  match st with
  | InsertFeedOrIgnore url _ => Some url
  | _ => None
  end.

Definition article_key (st : Stmt) : option string :=
  match st with
  | InsertArticleOrIgnore id _ => Some id
  | _ => None
  end.

Definition is_insert (st : Stmt) : Prop :=
  match st with
  | InsertFeedOrIgnore _ _ | InsertArticleOrIgnore _ _ => True
  | _ => False
  end.

Definition stmt_flags_ok (st : Stmt) : Prop :=
  match st with
  | InsertArticleOrIgnore _ r => flag (Row.is_read r) ∧ flag (Row.is_starred r)
  | _ => True
  end.

(** ** The DOM as [parseRSS] uses it *)

(** An XML tree.  An element carries its namespace prefix (empty when it has
    none) and its local name. *)
#[local] Set Warnings "-register-all".
Inductive Node :=
  | Text (data : string)
  | Elem (pfx localName : string) (attrs : list (string * string)) (childNodes : list Node).

(** The children of the document node returned by [DOMParser]. *)
Definition Document := list Node.

Fixpoint textContent (n : Node) : string :=
  match n with
  | Text s => s
  | Elem _ _ _ cs => String.concat "" (map textContent cs)
  end.

Definition local_name (n : Node) : string :=
  match n with
  | Text _ => ""
  | Elem _ l _ _ => l
  end.

(** The qualified name [getElementsByTagName] compares with in an XML document. *)
Definition tagName (n : Node) : string :=
  match n with
  | Text _ => ""
  | Elem p l _ _ => if truthy p then p +:+ ":" +:+ l else l
  end.

Definition getAttribute (name : string) (n : Node) : option string :=
  match n with
  | Text _ => None
  | Elem _ _ attrs _ => snd <$> List.find (λ kv, String.eqb kv.1 name) attrs
  end.

(** The elements of the subtree at [n] in document order, each paired with
    the local name of its parent element ([None] below the document node). *)
Fixpoint subtree (parent : option string) (n : Node) : list (option string * Node) :=
  match n with
  | Text _ => []
  | Elem _ l _ cs => (parent, n) :: flat_map (subtree (Some l)) cs
  end.

(** The candidates of [element.querySelector]: the proper descendants. *)
Definition descendants (n : Node) : list (option string * Node) :=
  match n with
  | Text _ => []
  | Elem _ l _ cs => flat_map (subtree (Some l)) cs
  end.

Definition doc_elements (doc : Document) : list (option string * Node) :=
  flat_map (subtree None) doc.

(** The three shapes of selector the parser passes to [querySelector]. *)
Inductive Selector :=
  | Sel (name : string)                      (* "title" *)
  | SelChild (parent child : string)         (* "feed > title" *)
  | SelAttr (name attr value : string).      (* "link[rel='alternate']" *)

Definition matches (sel : Selector) (pe : option string * Node) : bool :=
  match sel with
  | Sel name => String.eqb (local_name pe.2) name
  | SelChild p c =>
      String.eqb (local_name pe.2) c &&
      match pe.1 with
      | Some q => String.eqb q p
      | None => false
      end
  | SelAttr name a v =>
      String.eqb (local_name pe.2) name &&
      match getAttribute a pe.2 with
      | Some x => String.eqb x v
      | None => false
      end
  end.

Definition select_all (sel : Selector) (cands : list (option string * Node)) : list Node :=
  snd <$> List.filter (matches sel) cands.

Definition querySelector (sel : Selector) (n : Node) : option Node :=
  head (select_all sel (descendants n)).

Definition doc_querySelector (sel : Selector) (doc : Document) : option Node :=
  head (select_all sel (doc_elements doc)).

Definition doc_querySelectorAll (sel : Selector) (doc : Document) : list Node :=
  select_all sel (doc_elements doc).

(** [element.getElementsByTagName(qname)[0]] *)
Definition getElementsByTagName0 (qname : string) (n : Node) : option Node :=
  head (snd <$> List.filter (λ pe, String.eqb (tagName pe.2) qname) (descendants n)).

(** [a?.textContent] *)
Definition text_of (o : option Node) : option string := textContent <$> o.

(** [a?.getAttribute("href")] *)
Definition href_of (o : option Node) : option string := o ≫= getAttribute "href".

Record ParsedFeed := { feedTitle : string; items : list Item.t }.

(** The object pushed for one Atom [entry]. *)
Definition atom_item (entry : Node) : Item.t :=
  {| Item.title := js_or_opt (text_of (querySelector (Sel "title") entry)) "Untitled";
     Item.link :=
       js_or_opt (href_of (querySelector (SelAttr "link" "rel" "alternate") entry))
         (js_or_opt (href_of (querySelector (Sel "link") entry)) "");
     Item.published :=
       js_or_opt (text_of (querySelector (Sel "published") entry))
         (js_or_opt (text_of (querySelector (Sel "updated") entry)) "");
     Item.content :=
       js_or_opt (text_of (querySelector (Sel "content") entry))
         (js_or_opt (text_of (querySelector (Sel "summary") entry)) "");
     Item.author := js_or_opt (text_of (querySelector (SelChild "author" "name") entry)) "" |}.

(** The object pushed for one RSS [item]. *)
Definition rss_item (item : Node) : Item.t :=
  {| Item.title := js_or_opt (text_of (querySelector (Sel "title") item)) "Untitled";
     Item.link := js_or_opt (text_of (querySelector (Sel "link") item)) "";
     Item.published :=
       js_or_opt (text_of (querySelector (Sel "pubDate") item))
         (js_or_opt (text_of (querySelector (Sel "dc:date") item)) "");
     Item.content :=
       js_or_opt (text_of (getElementsByTagName0 "content:encoded" item))
         (js_or_opt (text_of (querySelector (Sel "description") item)) "");
     Item.author :=
       js_or_opt (text_of (getElementsByTagName0 "dc:creator" item))
         (js_or_opt (text_of (querySelector (Sel "author") item)) "") |}.

(** [parseRSS] after the call of [DOMParser.parseFromString]. *)
Definition parseRSS_doc (doc : Document) : ParsedFeed :=
  let isAtom := bool_decide (is_Some (doc_querySelector (Sel "feed") doc)) in
  if isAtom then
    {| feedTitle := js_or_opt (text_of (doc_querySelector (SelChild "feed" "title") doc)) "Untitled";
       items := atom_item <$> doc_querySelectorAll (Sel "entry") doc |}
  else
    let channel := doc_querySelector (Sel "channel") doc in
    {| feedTitle := js_or_opt (text_of (channel ≫= querySelector (Sel "title"))) "Untitled";
       items := rss_item <$> doc_querySelectorAll (Sel "item") doc |}.

Section Parser.

(** [new DOMParser().parseFromString(xmlText, "text/xml")]; it returns a
    document for every string (an error document for malformed input). *)
Variable parseFromString : string → Document.

Definition parseRSS (xmlText : string) : ParsedFeed :=
  parseRSS_doc (parseFromString xmlText).

End Parser.

(** ** The parser with JavaScript's failures

    [parseRSS] once more, on the values JavaScript computes with and with
    the one way its expressions can fail: reading a property of [null] or
    [undefined], or calling a method on them, throws a TypeError.  The
    operator [?.] is what guards against it. *)

Module Js.

Inductive Val :=
  | Null
  | Undefined
  | Str (s : string)
  | El (n : Node).

(** The completion of an expression: a value, or a thrown TypeError. *)
Inductive Completion (A : Type) :=
  | Normal (a : A)
  | Throw.
Arguments Normal {A} a.
Arguments Throw {A}.

Global Instance Completion_ret : MRet Completion := λ A a, Normal a.
Global Instance Completion_bind : MBind Completion := λ A B f c,
  match c with
  | Normal a => f a
  | Throw => Throw
  end.

(** [!!v] *)
Definition to_boolean (v : Val) : bool :=
  match v with
  | Null | Undefined => false
  | Str s => truthy s
  | El _ => true
  end.

(** [a || b]: [b] is evaluated only when [a] is falsy. *)
Definition or_else (a b : Completion Val) : Completion Val :=
  v ← a; if to_boolean v then mret v else b.

(** What the DOM hands back: a node or [null], a string or [null]. *)
Definition of_node (o : option Node) : Val := from_option El Null o.
Definition of_string (o : option string) : Val := from_option Str Null o.

(** [v.textContent] *)
Definition get_textContent (v : Val) : Completion Val :=
  match v with
  | El n => Normal (Str (textContent n))
  | Str _ => Normal Undefined
  | Null | Undefined => Throw
  end.

(** [v.querySelector(sel)] *)
Definition call_querySelector (sel : Selector) (v : Val) : Completion Val :=
  match v with
  | El n => Normal (of_node (querySelector sel n))
  | _ => Throw
  end.

(** [v.getAttribute(name)] *)
Definition call_getAttribute (name : string) (v : Val) : Completion Val :=
  match v with
  | El n => Normal (of_string (getAttribute name n))
  | _ => Throw
  end.

(** [v.getElementsByTagName(qname)[0]]: [undefined] when the collection is
    empty. *)
Definition call_getElementsByTagName0 (qname : string) (v : Val) : Completion Val :=
  match v with
  | El n => Normal (from_option El Undefined (getElementsByTagName0 qname n))
  | _ => Throw
  end.

(** [v?.m]: [undefined] when [v] is [null] or [undefined], otherwise [v.m]. *)
Definition opt (v : Val) (m : Val → Completion Val) : Completion Val :=
  match v with
  | Null | Undefined => Normal Undefined
  | _ => m v
  end.

(** [e.querySelector(sel)?.textContent] *)
Definition text_at (sel : Selector) (e : Val) : Completion Val :=
  q ← call_querySelector sel e; opt q get_textContent.

(** [e.querySelector(sel)?.getAttribute("href")] *)
Definition href_at (sel : Selector) (e : Val) : Completion Val :=
  q ← call_querySelector sel e; opt q (call_getAttribute "href").

(** [e.getElementsByTagName(qname)[0]?.textContent] *)
Definition tag_text (qname : string) (e : Val) : Completion Val :=
  q ← call_getElementsByTagName0 qname e; opt q get_textContent.

(** The object literals pushed onto [items] and returned. *)
Record ItemObj := {
  title : Val; link : Val; published : Val; content : Val; author : Val
}.

Record FeedObj := { feedTitle : Val; items : list ItemObj }.

(** The callback of [doc.querySelectorAll("entry").forEach]. *)
Definition atom_item (entry : Val) : Completion ItemObj :=
  t ← or_else (text_at (Sel "title") entry) (Normal (Str "Untitled"));
  l ← or_else (or_else (href_at (SelAttr "link" "rel" "alternate") entry)
                       (href_at (Sel "link") entry))
              (Normal (Str ""));
  p ← or_else (or_else (text_at (Sel "published") entry) (text_at (Sel "updated") entry))
              (Normal (Str ""));
  c ← or_else (or_else (text_at (Sel "content") entry) (text_at (Sel "summary") entry))
              (Normal (Str ""));
  a ← or_else (text_at (SelChild "author" "name") entry) (Normal (Str ""));
  mret {| title := t; link := l; published := p; content := c; author := a |}.

(** The callback of [doc.querySelectorAll("item").forEach]. *)
Definition rss_item (item : Val) : Completion ItemObj :=
  t ← or_else (text_at (Sel "title") item) (Normal (Str "Untitled"));
  l ← or_else (text_at (Sel "link") item) (Normal (Str ""));
  p ← or_else (or_else (text_at (Sel "pubDate") item) (text_at (Sel "dc:date") item))
              (Normal (Str ""));
  c ← or_else (or_else (tag_text "content:encoded" item) (text_at (Sel "description") item))
              (Normal (Str ""));
  a ← or_else (or_else (tag_text "dc:creator" item) (text_at (Sel "author") item))
              (Normal (Str ""));
  mret {| title := t; link := l; published := p; content := c; author := a |}.

(** [doc.querySelector(sel)] on the document. *)
Definition doc_query (sel : Selector) (doc : Document) : Val :=
  of_node (doc_querySelector sel doc).

(** [parseRSS] after the call of [DOMParser.parseFromString]. *)
Definition parseRSS_doc (doc : Document) : Completion FeedObj :=
  let isAtom := to_boolean (doc_query (Sel "feed") doc) in
  if isAtom then
    ft ← or_else (opt (doc_query (SelChild "feed" "title") doc) get_textContent)
                 (Normal (Str "Untitled"));
    its ← mapM (λ entry, atom_item (El entry)) (doc_querySelectorAll (Sel "entry") doc);
    mret {| feedTitle := ft; items := its |}
  else
    let channel := doc_query (Sel "channel") doc in
    ft ← or_else (q ← opt channel (call_querySelector (Sel "title")); opt q get_textContent)
                 (Normal (Str "Untitled"));
    its ← mapM (λ item, rss_item (El item)) (doc_querySelectorAll (Sel "item") doc);
    mret {| feedTitle := ft; items := its |}.

Section Parser.

(** [new DOMParser().parseFromString(xmlText, "text/xml")]: for malformed
    input the DOM returns an error document, it does not throw. *)
Variable parseFromString : string → Document.

Definition parseRSS (xmlText : string) : Completion FeedObj :=
  parseRSS_doc (parseFromString xmlText).

End Parser.

End Js.

(** The objects of [Js] whose fields are the strings of an [Item.t] and of a
    [ParsedFeed]. *)
Definition item_val (i : Item.t) : Js.ItemObj :=
  {| Js.title := Js.Str (Item.title i);
     Js.link := Js.Str (Item.link i);
     Js.published := Js.Str (Item.published i);
     Js.content := Js.Str (Item.content i);
     Js.author := Js.Str (Item.author i) |}.

Definition feed_val (f : ParsedFeed) : Js.FeedObj :=
  {| Js.feedTitle := Js.Str (feedTitle f); Js.items := item_val <$> items f |}.

(** ** Elements inside an element *)

Definition is_element (n : Node) : Prop :=
  match n with
  | Text _ => False
  | Elem _ _ _ _ => True
  end.

(** [inside n p e]: [e] is an element below [n], and its parent element has
    the local name [p]. *)
Inductive inside : Node → string → Node → Prop :=
  | inside_child pfx l attrs cs e :
      e ∈ cs → is_element e → inside (Elem pfx l attrs cs) l e
  | inside_deeper pfx l attrs cs c p e :
      c ∈ cs → inside c p e → inside (Elem pfx l attrs cs) p e.

(** The element has no element named [name] below it. *)
Definition no_element (name : string) (n : Node) : Prop :=
  ∀ p e, inside n p e → local_name e ≠ name.

(** ... none with the qualified name [qname]. *)
Definition no_tag (qname : string) (n : Node) : Prop :=
  ∀ p e, inside n p e → tagName e ≠ qname.

(** ** The write lock

    [withWriteLock(fn)] builds three promises per call:
    - [writeLock.then(() => fn())], which invokes [fn] once the promise held
      in [writeLock] is fulfilled and settles as the promise [fn] returns;
    - [.catch((e) => { throw e; })] on it, the promise handed to the caller;
    - [next.catch(() => {})], stored back into [writeLock].
    A [Slot] records the state of the three promises of one call; the list of
    slots is in call order, and [writeLock] is the [lock] of the last slot
    (the fulfilled [Promise.resolve()] while the list is empty). *)

Inductive Outcome := Fulfilled | Rejected.

Inductive Call :=
  | Waiting                 (* the reaction [() => fn()] has not run yet *)
  | Running                 (* [fn] was invoked, its promise is pending *)
  | Settled (o : Outcome).  (* the promise of [fn] has settled *)

Record Slot := {
  call : Call;               (* writeLock.then(() => fn()) *)
  next : option Outcome;     (* .catch((e) => { throw e; }), [None] while pending *)
  lock : bool                (* next.catch(() => {}), [true] once fulfilled *)
}.

Global Instance Outcome_eq_dec : EqDecision Outcome.
Proof. solve_decision. Defined.
Global Instance Call_eq_dec : EqDecision Call.
Proof. solve_decision. Defined.
Global Instance Slot_eq_dec : EqDecision Slot.
Proof. solve_decision. Defined.

Abbreviation Queue := (list Slot).

Definition set_call (c : Call) (s : Slot) : Slot :=
  {| call := c; next := next s; lock := lock s |}.
Definition set_next (o : Outcome) (s : Slot) : Slot :=
  {| call := call s; next := Some o; lock := lock s |}.
Definition set_lock (s : Slot) : Slot :=
  {| call := call s; next := next s; lock := true |}.

(** The promise chained on by the [k]-th call is fulfilled. *)
Definition lock_before (q : Queue) (k : nat) : bool :=
  match k with
  | O => true
  | S j => default false (lock <$> q !! j)
  end.

Inductive Event :=
  | Submit (k : nat)               (* a call of [withWriteLock] *)
  | Start (k : nat)                (* [fn] of the [k]-th call is invoked *)
  | Finish (k : nat) (o : Outcome) (* the promise it returned settles *)
  | SettleNext (k : nat)           (* the caller's promise settles *)
  | SettleLock (k : nat).          (* the [k]-th lock promise is fulfilled *)

(** [withWriteLock(fn)] up to its [return]: the three promises of the call
    are created pending, chained on the current [writeLock], and the new lock
    replaces it. *)
Definition withWriteLock (q : Queue) : Queue :=
  q ++ [{| call := Waiting; next := None; lock := false |}].

Inductive step : Queue → Event → Queue → Prop :=
  | step_submit q :
      step q (Submit (List.length q)) (withWriteLock q)
  | step_start q k s :
      q !! k = Some s → call s = Waiting → lock_before q k = true →
      step q (Start k) (<[k := set_call Running s]> q)
  | step_finish q k s o :
      q !! k = Some s → call s = Running →
      step q (Finish k o) (<[k := set_call (Settled o) s]> q)
  | step_settle_next q k s o :
      q !! k = Some s → call s = Settled o → next s = None →
      step q (SettleNext k) (<[k := set_next o s]> q)
  | step_settle_lock q k s o :
      q !! k = Some s → next s = Some o → lock s = false →
      step q (SettleLock k) (<[k := set_lock s]> q).

(** The queues reachable from the initial one, with the events so far (the
    latest first). *)
Inductive reachable : list Event → Queue → Prop :=
  | reach_init : reachable [] []
  | reach_step tr q e q' : reachable tr q → step q e q' → reachable (e :: tr) q'.


(** Finitely many steps in a row. *)
Inductive steps : Queue → list Event → Queue → Prop :=
  | steps_nil q : steps q [] q
  | steps_cons q e q1 evs q2 : step q e q1 → steps q1 evs q2 → steps q (e :: evs) q2.

(** What the promise semantics maintains for the three promises of a call:
    [fn] was invoked only after the lock it chained on was fulfilled; the
    lock is fulfilled only after the caller's promise settled; the caller's
    promise settles as the promise of [fn] did. *)
Definition slot_ok (q : Queue) (k : nat) (s : Slot) : Prop :=
  (call s ≠ Waiting → lock_before q k = true) ∧
  (lock s = true → is_Some (next s)) ∧
  (∀ o, next s = Some o → call s = Settled o).

Definition chain_ok (q : Queue) : Prop := ∀ k s, q !! k = Some s → slot_ok q k s.

(** The call an event belongs to, and what the slot of that call shows once
    the event has happened. *)
Definition event_index (e : Event) : nat :=
  match e with
  | Submit k | Start k | Finish k _ | SettleNext k | SettleLock k => k
  end.

Definition slot_event (s : Slot) (e : Event) : Prop :=
  match e with
  | Submit _ => True
  | Start _ => call s ≠ Waiting
  | Finish _ o => call s = Settled o
  | SettleNext _ => is_Some (next s)
  | SettleLock _ => lock s = true
  end.

Definition seen (q : Queue) (e : Event) : Prop :=
  ∃ s, q !! event_index e = Some s ∧ slot_event s e.

(** The three promises of the call have settled with outcome [o]. *)
Definition settled_slot (o : Outcome) : Slot :=
  {| call := Settled o; next := Some o; lock := true |}.

(** Every submitted call has run and all its promises have settled. *)
Definition drained (q : Queue) : Prop :=
  ∀ k s, q !! k = Some s → ∃ o, s = settled_slot o.

(** Two calls: the first is rejected, then the second starts. *)
Definition ex_trace : list Event :=
  [Start 1; SettleLock 0; SettleNext 0; Finish 0 Rejected; Start 0; Submit 1; Submit 0].

Definition ex_queue : Queue :=
  [{| call := Settled Rejected; next := Some Rejected; lock := true |};
   {| call := Running; next := None; lock := false |}].

(** ** Listing the feeds *)

(** The objects [listFeeds] returns, which the component keeps in [feeds]. *)
Module FeedView.
Record t := { url : string; name : string; addedAt : string }.
End FeedView.

(** The largest time value of a [Date]; beyond it [toISOString] throws a
    RangeError. *)
Definition TIME_MAX : Z := 8640000000000000.

Definition valid_time (t : Z) : bool := bool_decide (- TIME_MAX ≤ t ≤ TIME_MAX).

(** [ORDER BY added_at ASC]; SQLite sorts NULL first. *)
Definition added_le (x y : option Z) : Prop :=
  match x, y with
  | None, _ => True
  | Some _, None => False
  | Some a, Some b => a ≤ b
  end.

Global Instance added_le_dec x y : Decision (added_le x y).
Proof. destruct x, y; simpl; apply _. Defined.

Definition by_added_at (x y : string * Feed.row) : Prop :=
  added_le (Feed.added_at x.2) (Feed.added_at y.2).

Global Instance by_added_at_dec x y : Decision (by_added_at x y).
Proof. unfold by_added_at. apply _. Defined.

Definition listFeeds_rows (db : Db) : list (string * Feed.row) :=
  merge_sort by_added_at (map_to_list (feeds db)).

Section ListFeeds.

(** [new Date(t).toISOString()] on a time value within range. *)
Variable toISOString : Z → string.

(** [{ url: r.url, name: r.name, addedAt: new Date(r.added_at).toISOString() }];
    [new Date(null)] is the epoch, and [None] is the RangeError. *)
Definition feed_of_row (r : string * Feed.row) : option FeedView.t :=
  let t := default 0 (Feed.added_at r.2) in
  if valid_time t then
    Some {| FeedView.url := r.1; FeedView.name := Feed.name r.2;
            FeedView.addedAt := toISOString t |}
  else None.

(** [listFeeds()]; [None] when [rows.map] throws. *)
Definition listFeeds (db : Db) : option (list FeedView.t) :=
  mapM feed_of_row (listFeeds_rows db).

End ListFeeds.

(** Every stored subscription time is within the range of [Date]. *)
Definition times_ok (db : Db) : Prop :=
  ∀ u r t, feeds db !! u = Some r → Feed.added_at r = Some t → valid_time t = true.

(** ** The reader component: fetching and refreshing *)

(** The response of [tauriFetch], as far as [fetchFeed] reads it. *)
Record Response := { ok : bool; status : Z; text : string }.

Section Reader.

Variable Date_getTime : string → option Z.
Variable parseFromString : string → Document.

(** [fetchFeed(url)]: [None] is a rejected promise, which is what a failed
    request ([resp = None]) and [throw new Error(`HTTP ${resp.status}`)]
    both give. *)
Definition fetchFeed (resp : option Response) : option ParsedFeed :=
  match resp with
  | Some r => if ok r then Some (parseRSS parseFromString (text r)) else None
  | None => None
  end.

(** One settled result of [Promise.allSettled] in [refreshAllFeeds], with the
    reading of [Date.now()] of its [upsertArticles]. *)
Record FetchResult := { feed : FeedView.t; response : option Response; upsert_now : Z }.

(** The body of the [for] loop of [refreshAllFeeds]. *)
Definition refresh_one (d : Db) (r : FetchResult) : Db :=
  match fetchFeed (response r) with
  | Some result =>
      upsertArticles Date_getTime (upsert_now r) (FeedView.url (feed r))
        (js_or (FeedView.name (feed r)) (feedTitle result)) (items result) d
  | None => d
  end.

(** [refreshAllFeeds()] up to [reloadArticles]; with no feeds it returns at
    once. *)
Definition refreshAllFeeds (settled : list FetchResult) (d : Db) : Db :=
  foldl refresh_one d settled.

End Reader.

(** ** The reader component: the article list it keeps *)

Definition with_is_read (v : bool) (a : Article.t) : Article.t :=
  {| Article.id := Article.id a; Article.feedUrl := Article.feedUrl a;
     Article.feedName := Article.feedName a; Article.title := Article.title a;
     Article.link := Article.link a; Article.published := Article.published a;
     Article.content := Article.content a; Article.author := Article.author a;
     Article.is_read := v; Article.is_starred := Article.is_starred a |}.

Definition with_is_starred (v : bool) (a : Article.t) : Article.t :=
  {| Article.id := Article.id a; Article.feedUrl := Article.feedUrl a;
     Article.feedName := Article.feedName a; Article.title := Article.title a;
     Article.link := Article.link a; Article.published := Article.published a;
     Article.content := Article.content a; Article.author := Article.author a;
     Article.is_read := Article.is_read a; Article.is_starred := v |}.

(** The state updates of [handleMarkRead], [handleToggleRead],
    [handleToggleStar] and [handleMarkAllRead]: [prev.map(...)]. *)
Definition handleMarkRead (id : string) (prev : list Article.t) : list Article.t :=
  (λ a, if decide (Article.id a = id) then with_is_read true a else a) <$> prev.

Definition handleToggleRead (id : string) (prev : list Article.t) : list Article.t :=
  (λ a, if decide (Article.id a = id) then with_is_read (negb (Article.is_read a)) a else a)
    <$> prev.

Definition handleToggleStar (id : string) (prev : list Article.t) : list Article.t :=
  (λ a, if decide (Article.id a = id) then with_is_starred (negb (Article.is_starred a)) a
        else a) <$> prev.

Definition handleMarkAllRead (ids : list string) (prev : list Article.t) : list Article.t :=
  (λ a, if decide (Article.id a ∈ ids) then with_is_read true a else a) <$> prev.

(** [getFilteredArticles()], with [selectedFeed] ([None] is [null]) and
    [viewFilter] read from the state. *)
Definition getFilteredArticles (selectedFeed : option string) (viewFilter : string)
    (articles : list Article.t) : list Article.t :=
  let f :=
    match selectedFeed with
    | Some u => if truthy u then filter (λ a, Article.feedUrl a = u) articles else articles
    | None => articles
    end in
  let f := if decide (viewFilter = "unread")
           then filter (λ a, Article.is_read a = false) f else f in
  let f := if decide (viewFilter = "starred")
           then filter (λ a, Article.is_starred a = true) f else f in
  f.

(** [unreadCount(feedUrl)] *)
Definition unreadCount (feedUrl : option string) (articles : list Article.t) : nat :=
  let fa :=
    match feedUrl with
    | Some u => if truthy u then filter (λ a, Article.feedUrl a = u) articles else articles
    | None => articles
    end in
  List.length (filter (λ a, Article.is_read a = false) fa).

(** The test of [getFilteredArticles] on one article. *)
Definition passes (selectedFeed : option string) (viewFilter : string) (a : Article.t) : Prop :=
  match selectedFeed with
  | Some u => if truthy u then Article.feedUrl a = u else True
  | None => True
  end ∧
  (viewFilter = "unread" → Article.is_read a = false) ∧
  (viewFilter = "starred" → Article.is_starred a = true).

(** ** The reader component: dates *)

Section FormatDate.

Variable Date_getTime : string → option Z.

(** [d.getFullYear()] and [d.toLocaleDateString("en-US", { month: "short",
    day: "numeric", year })] for the date with a given time value; the flag
    says whether [year] is ["numeric"]. *)
Variable getFullYear : Z → Z.
Variable toLocaleDateString : Z → bool → string.

(** [formatDate(dateStr)], with [now] the time value of [new Date()]. *)
Definition formatDate (now : Z) (dateStr : string) : string :=
  if negb (truthy dateStr) then ""
  else
    match Date_getTime dateStr with
    | None => dateStr
    | Some d =>
        let diff := now - d in
        if diff <? 3600000 then pretty (Z.max 1 (diff / 60000)) +:+ "m ago"
        else if diff <? 86400000 then pretty (diff / 3600000) +:+ "h ago"
        else if diff <? 604800000 then pretty (diff / 86400000) +:+ "d ago"
        else toLocaleDateString d (negb (getFullYear d =? getFullYear now))
    end.

End FormatDate.

(** ** The reader component: subscribing *)

(** How a call of the component's [addFeed] or [addSampleFeed] ends. *)
Inductive AddResult :=
  | NotSubmitted        (* the early [return] *)
  | AlreadySubscribed   (* [feeds.some((f) => f.url === url)] *)
  | FetchFailed         (* [fetchFeed] rejected: the [catch] *)
  | Subscribed.

(** [import { addFeed as dbAddFeed } from "./db"] *)
Abbreviation dbAddFeed := addFeed.

Module RSSReader.
Section Subscribe.

Variable Date_getTime : string → option Z.
Variable parseFromString : string → Document.

(** [String.prototype.trim] *)
Variable trim : string → string.

(** What [tauriFetch(url)] answers; [None] is a rejected promise. *)
Variable net : string → option Response.

(** [feeds.some((f) => f.url === url)] *)
Definition subscribed (url : string) (feeds : list FeedView.t) : bool :=
  bool_decide (Exists (λ f, FeedView.url f = url) feeds).

(** [let url = newFeedUrl.trim(); if (!url.startsWith("http")) url = "https://" + url;] *)
Definition normalized (newFeedUrl : string) : string :=
  let url := trim newFeedUrl in
  if String.prefix "http" url then url else "https://" +:+ url.

(** The component's [addFeed], on the database; [iso] is
    [new Date().toISOString()] and [now] the [Date.now()] of its
    [upsertArticles]. *)
Definition addFeed (newFeedUrl : string) (feeds : list FeedView.t) (iso : string) (now : Z)
    (d : Db) : AddResult * Db :=
  if negb (truthy (trim newFeedUrl)) then (NotSubmitted, d)
  else
    let url := normalized newFeedUrl in
    if subscribed url feeds then (AlreadySubscribed, d)
    else
      match fetchFeed parseFromString (net url) with
      | None => (FetchFailed, d)
      | Some result =>
          let d1 := dbAddFeed Date_getTime url (feedTitle result) iso d in
          (Subscribed,
           upsertArticles Date_getTime now url (feedTitle result) (items result) d1)
      end.

(** [addSampleFeed(sample)] *)
Definition addSampleFeed (sample_url sample_name : string) (feeds : list FeedView.t)
    (iso : string) (now : Z) (d : Db) : AddResult * Db :=
  if subscribed sample_url feeds then (AlreadySubscribed, d)
  else
    match fetchFeed parseFromString (net sample_url) with
    | None => (FetchFailed, d)
    | Some result =>
        let name := js_or sample_name (feedTitle result) in
        let d1 := dbAddFeed Date_getTime sample_url name iso d in
        (Subscribed, upsertArticles Date_getTime now sample_url name (items result) d1)
    end.

End Subscribe.
End RSSReader.

(** ** The reader component: reloading the articles *)

(** [loadSeq.current] and the [articles] state. *)
Record Loader := { loadSeq : nat; shown : list Article.t }.

(** The two halves of a call of [reloadArticles]: up to the [await]
    ([const seq = ++loadSeq.current]), and from the moment [listArticles()]
    has answered with [arts] for the call that drew [seq]. *)
Inductive LoadEvent :=
  | Begin
  | Deliver (seq : nat) (arts : list Article.t).

Definition reload_step (s : Loader) (e : LoadEvent) : Loader :=
  match e with
  | Begin => {| loadSeq := S (loadSeq s); shown := shown s |}
  | Deliver seq arts =>
      if decide (seq ≠ loadSeq s) then s   (* stale request, ignore *)
      else {| loadSeq := loadSeq s; shown := arts |}
  end.

Definition reload_run (s : Loader) (evs : list LoadEvent) : Loader :=
  foldl reload_step s evs.

Definition is_begin (e : LoadEvent) : bool :=
  match e with
  | Begin => true
  | Deliver _ _ => false
  end.

(** ** Articles and stored rows *)

(** The Article stands for the stored row [(id, r)]: it has the row's id and
    the eight columns of the data model, and its two flags are true exactly
    when the column is not 0. *)
Definition shows (a : Article.t) (id : string) (r : Row.t) : Prop :=
  Article.id a = id ∧
  Article.feedUrl a = Row.feed_url r ∧
  Article.feedName a = Row.feed_name r ∧
  Article.title a = Row.title r ∧
  Article.link a = Row.link r ∧
  Article.published a = Row.published r ∧
  Article.content a = Row.content r ∧
  Article.author a = Row.author r ∧
  (Article.is_read a = true ↔ Row.is_read r ≠ 0) ∧
  (Article.is_starred a = true ↔ Row.is_starred r ≠ 0).

(** ** Example data *)

(** Two readings of [new Date(s).getTime()], in milliseconds. *)
Definition ex_dates (s : string) : option Z :=
  if String.eqb s "2020-01-01T00:00:00Z" then Some 1577836800000
  else if String.eqb s "2024-01-02T00:00:00Z" then Some 1704153600000
  else None.

Definition empty_db : Db := {| feeds := ∅; articles := ∅; meta := ∅ |}.

Definition ex_feed : string := "https://h/feed".

Definition ex_item (title link published : string) : Item.t :=
  {| Item.title := title; Item.link := link; Item.published := published;
     Item.content := ""; Item.author := "" |}.

(** [n] entries dated 2024 with pairwise different links. *)
Definition ex_newer (n : nat) : list Item.t :=
  (λ k : nat, ex_item "t" ("https://h/p" +:+ pretty k) "2024-01-02T00:00:00Z") <$> seq 0 n.

(** An entry dated 2020, as first fetched and as served again with a new title. *)
Definition old_item : Item.t := ex_item "first title" "https://h/old" "2020-01-01T00:00:00Z".
Definition old_item_again : Item.t := ex_item "second title" "https://h/old" "2020-01-01T00:00:00Z".
Definition old_id : string := "https://h/feed::https://h/old".

(** The store after fetching [old_item] at time 1 and reading it. *)
Definition read_db : Db :=
  markRead old_id (upsertArticles ex_dates 1 ex_feed "H" [old_item] empty_db).

Definition old_row : Row.t := set_is_read 1 (fresh_row ex_dates 1 ex_feed "H" old_item).

(** Two feeds whose urls differ and an entry of each; both entries derive
    the id ["https://h/feed::x::https://h/1"]. *)
Definition feed_a : string := "https://h/feed".
Definition feed_b : string := "https://h/feed::x".
Definition item_a : Item.t := ex_item "from A" "x::https://h/1" "".
Definition item_b : Item.t := ex_item "from B" "https://h/1" "".
Definition shared_id : string := "https://h/feed::x::https://h/1".

(** The store after fetching feed B at time 1. *)
Definition db_b : Db := upsertArticles ex_dates 1 feed_b "B" [item_b] empty_db.



(** The tree of [<feed><entry><updated>2024-01-02T00:00:00Z</updated></entry></feed>]:
    an Atom feed without a title whose only entry has neither title nor
    published date. *)
Definition ex_atom_entry : Node :=
  Elem "" "entry" [] [Elem "" "updated" [] [Text "2024-01-02T00:00:00Z"]].

Definition ex_atom_doc : Document := [Elem "" "feed" [] [ex_atom_entry]].

(** The tree of [<rss><channel><item><link>https://h/1</link></item></channel></rss>]. *)
Definition ex_rss_item : Node :=
  Elem "" "item" [] [Elem "" "link" [] [Text "https://h/1"]].

Definition ex_rss_doc : Document := [Elem "" "rss" [] [Elem "" "channel" [] [ex_rss_item]]].

(** A legacy snapshot with one feed and one article, marked read. *)
Definition ex_legacy : LocalStorage :=
  {| rss_feeds := Some [{| LegacyFeed.url := ex_feed; LegacyFeed.name := "H";
                            LegacyFeed.addedAt := Some "2020-01-01T00:00:00Z" |}];
     rss_articles := Some [{| LegacyArticle.id := old_id;
                               LegacyArticle.feedUrl := ex_feed;
                               LegacyArticle.feedName := "H";
                               LegacyArticle.title := "first title";
                               LegacyArticle.link := "https://h/old";
                               LegacyArticle.published := "2020-01-01T00:00:00Z";
                               LegacyArticle.content := "";
                               LegacyArticle.author := "" |}];
     rss_read := Some {[ old_id := true ]};
     rss_starred := None |}.

Definition ex_world : World := {| db := empty_db; storage := ex_legacy |}.

Definition ex_clock (now : Z) : Clock := {| now_ms := now; now_iso := λ _, "2024-01-02T00:00:00Z" |}.

(** [read_db] after the user has starred the article. *)
Definition starred_db : Db := toggleStar old_id read_db.

Definition starred_row : Row.t := set_is_starred 1 old_row.

(** * Properties *)

(** ** Ordering and selection *)

Global Instance by_order_desc_total : Total by_order_desc.
Proof. intros x y. unfold by_order_desc, order_desc. lia. Qed.

Global Instance by_order_desc_trans : Transitive by_order_desc.
Proof. intros x y z. unfold by_order_desc, order_desc. lia. Qed.

Section selection.
Context (P : string * Row.t → Prop) `{∀ x, Decision (P x)}.

Lemma select_ordered_sorted t : StronglySorted by_order_desc (select_ordered P t).
Proof. apply StronglySorted_merge_sort; apply _. Qed.

Lemma select_ordered_perm t : select_ordered P t ≡ₚ filter P (map_to_list t).
Proof. apply merge_sort_Permutation. Qed.

Lemma elem_of_select_ordered t id r :
  (id, r) ∈ select_ordered P t ↔ t !! id = Some r ∧ P (id, r).
Proof.
  rewrite select_ordered_perm, list_elem_of_filter, elem_of_map_to_list. tauto.
Qed.

Lemma NoDup_select_ordered t : NoDup (select_ordered P t).
Proof.
  rewrite select_ordered_perm. apply NoDup_filter, NoDup_map_to_list.
Qed.

Lemma length_select_ordered t :
  length (select_ordered P t) = length (filter P (map_to_list t)).
Proof. by rewrite select_ordered_perm. Qed.

End selection.

(** ** Pruning *)

Lemma elem_of_prune_keep f t id :
  id ∈ prune_keep f t ↔ ∃ r, (id, r) ∈ take LIMIT (select_ordered (prunable f) t).
Proof.
  unfold prune_keep. rewrite list_elem_of_fmap. split.
  - intros [[id' r] [-> Hin]]. eauto.
  - intros [r Hin]. exists (id, r). done.
Qed.

Lemma lookup_prune_Some f t id r :
  prune f t !! id = Some r ↔
  t !! id = Some r ∧ ¬ pruned f (prune_keep f t) (id, r).
Proof. unfold prune. cbv zeta. rewrite map_lookup_filter_Some. tauto. Qed.

Lemma take_select_in_table f t id r :
  (id, r) ∈ take LIMIT (select_ordered (prunable f) t) →
  t !! id = Some r ∧ prunable f (id, r).
Proof.
  intros Hin. apply (elem_of_select_ordered (prunable f)).
  by apply (subseteq_take LIMIT).
Qed.

(** After pruning, the prunable rows are the first [LIMIT] of the ordered
    selection. *)
Lemma prunable_after_prune f t id r :
  (prune f t !! id = Some r ∧ prunable f (id, r)) ↔
  (id, r) ∈ take LIMIT (select_ordered (prunable f) t).
Proof.
  rewrite lookup_prune_Some. unfold pruned. split.
  - intros [[Ht Hnp] Hp].
    destruct (decide (id ∈ prune_keep f t)) as [Hk|Hk]; [|naive_solver].
    apply elem_of_prune_keep in Hk as [r' Hin].
    destruct (take_select_in_table _ _ _ _ Hin) as [Ht' _].
    by simplify_eq.
  - intros Hin. destruct (take_select_in_table _ _ _ _ Hin) as [Ht Hp].
    split; [split; [done|]|done].
    intros [_ Hk]. apply Hk, elem_of_prune_keep. eauto.
Qed.

Lemma prunable_after_prune_perm f t :
  filter (prunable f) (map_to_list (prune f t)) ≡ₚ
  take LIMIT (select_ordered (prunable f) t).
Proof.
  apply NoDup_Permutation.
  - apply NoDup_filter, NoDup_map_to_list.
  - eapply sublist_NoDup; [|apply sublist_take]. apply NoDup_select_ordered.
  - intros [id r]. rewrite list_elem_of_filter, elem_of_map_to_list.
    rewrite <- prunable_after_prune. tauto.
Qed.

(** A row the pruning statement does not consider is left alone. *)
Lemma lookup_prune_not_prunable f t id r :
  t !! id = Some r → ¬ prunable f (id, r) → prune f t !! id = Some r.
Proof.
  intros Ht Hnp. apply lookup_prune_Some. split; [done|].
  unfold pruned. tauto.
Qed.

Lemma lookup_prune_None_inv f t id r :
  t !! id = Some r → prune f t !! id = None →
  prunable f (id, r) ∧ (id, r) ∈ drop LIMIT (select_ordered (prunable f) t).
Proof.
  intros Ht Hnone.
  destruct (decide (prunable f (id, r))) as [Hp|Hp].
  - split; [done|].
    assert ((id, r) ∈ select_ordered (prunable f) t) as Hin
      by (by apply elem_of_select_ordered).
    rewrite <- (take_drop LIMIT (select_ordered (prunable f) t)) in Hin.
    apply elem_of_app in Hin as [Hin|Hin]; [|done].
    apply prunable_after_prune in Hin as [Hsome _]. congruence.
  - rewrite (lookup_prune_not_prunable f t id r) in Hnone; done.
Qed.

(** Within the cap the pruning statement deletes nothing. *)
Lemma prune_within_cap f t :
  (length (filter (prunable f) (map_to_list t)) ≤ LIMIT)%nat → prune f t = t.
Proof.
  intros Hle. apply map_eq. intros id.
  destruct (t !! id) as [r|] eqn:Ht.
  - destruct (prune f t !! id) as [r'|] eqn:Hp.
    + apply lookup_prune_Some in Hp as [Hp _]. congruence.
    + destruct (lookup_prune_None_inv _ _ _ _ Ht Hp) as [_ Hin].
      rewrite drop_ge in Hin; [by apply elem_of_nil in Hin|].
      by rewrite length_select_ordered.
  - destruct (prune f t !! id) as [r'|] eqn:Hp; [|done].
    apply lookup_prune_Some in Hp as [Hp _]. congruence.
Qed.

(** ** The upsert loop *)

Section upsert.
Variable Date_getTime : string → option Z.
Variables (now : Z) (feedUrl feedName : string).

Abbreviation loop := (upsert_loop Date_getTime now feedUrl feedName).
Abbreviation item_step := (upsert_item Date_getTime now feedUrl feedName).
Abbreviation written := (written Date_getTime now feedUrl feedName).

Lemma loop_snoc items e t : loop (items ++ [e]) t = item_step (loop items t) e.
Proof. unfold upsert_loop. by rewrite foldl_app. Qed.

Lemma lookup_upsert_item_eq t e :
  item_step t e !! article_id feedUrl e = Some (written e (t !! article_id feedUrl e)).
Proof.
  unfold upsert_item. by rewrite lookup_insert_eq.
Qed.

Lemma lookup_upsert_item_ne t e id :
  article_id feedUrl e ≠ id → item_step t e !! id = t !! id.
Proof.
  intros Hne. unfold upsert_item. by rewrite lookup_insert_ne.
Qed.

Lemma written_written e e' before :
  written e (Some (written e' before)) = written e before.
Proof. by destruct before. Qed.

(** Entries with other ids leave the row alone. *)
Lemma lookup_loop_other items t id :
  Forall (λ e, article_id feedUrl e ≠ id) items → loop items t !! id = t !! id.
Proof.
  induction items as [|e items IH] using rev_ind; [done|].
  rewrite Forall_app, Forall_singleton. intros [Hitems He].
  rewrite loop_snoc, lookup_upsert_item_ne by done. auto.
Qed.

(** The last entry with a given id decides the row stored under it. *)
Lemma lookup_loop_last items1 e items2 t :
  Forall (λ e', article_id feedUrl e' ≠ article_id feedUrl e) items2 →
  loop (items1 ++ e :: items2) t !! article_id feedUrl e =
  Some (written e (t !! article_id feedUrl e)).
Proof.
  intros Hlast.
  replace (items1 ++ e :: items2) with ((items1 ++ [e]) ++ items2)
    by (by rewrite <- app_assoc).
  unfold upsert_loop. rewrite foldl_app. fold (loop (items1 ++ [e]) t).
  fold (loop items2 (loop (items1 ++ [e]) t)).
  rewrite lookup_loop_other by done.
  rewrite loop_snoc, lookup_upsert_item_eq.
  clear Hlast. induction items1 as [|e1 items1 IH] using rev_ind; [done|].
  rewrite loop_snoc.
  destruct (decide (article_id feedUrl e1 = article_id feedUrl e)) as [Heq|Hne].
  - rewrite <- Heq at 1. rewrite lookup_upsert_item_eq.
    rewrite written_written. rewrite Heq.
    by destruct (t !! article_id feedUrl e1), (t !! article_id feedUrl e).
  - by rewrite lookup_upsert_item_ne.
Qed.

(** Nothing is deleted by the loop, and the columns outside the SET list
    survive it. *)
Lemma loop_keeps items t id r :
  t !! id = Some r →
  ∃ r', loop items t !! id = Some r' ∧
        Row.feed_url r' = Row.feed_url r ∧
        Row.is_read r' = Row.is_read r ∧
        Row.is_starred r' = Row.is_starred r.
Proof.
  induction items as [|e items IH] using rev_ind; [by eauto|].
  intros Ht. destruct (IH Ht) as (r1 & Hr1 & Hu & Hr & Hs).
  rewrite loop_snoc.
  destruct (decide (article_id feedUrl e = id)) as [<-|Hne].
  - rewrite lookup_upsert_item_eq, Hr1. simpl. eexists. split; [done|].
    simpl. auto.
  - rewrite lookup_upsert_item_ne by done. eauto.
Qed.

End upsert.

(** ** Retention *)

(** C3. After [upsertArticles(feedUrl, feedName, items)] the store holds at
    most 500 non-starred articles of [feedUrl] (exactly 500 when the loop left
    more, all of them otherwise); every one that was kept sorts at or before
    every one that was deleted under (published_ts, fetched_at) descending;
    pruning only deletes; and no starred article is deleted, whether it was
    in the store before the call or written by it. *)
Theorem upsertArticles_retention Date_getTime now feedUrl feedName items db :
  let before_prune := upsert_loop Date_getTime now feedUrl feedName items (articles db) in
  let after := articles (upsertArticles Date_getTime now feedUrl feedName items db) in
  let non_starred t := filter (prunable feedUrl) (map_to_list t) in
  (length (non_starred after) ≤ 500)%nat ∧
  length (non_starred after) = Nat.min 500 (length (non_starred before_prune)) ∧
  (∀ id r id' r',
      after !! id = Some r → prunable feedUrl (id, r) →
      before_prune !! id' = Some r' → prunable feedUrl (id', r') →
      after !! id' = None →
      order_desc r r') ∧
  (∀ id r, after !! id = Some r → before_prune !! id = Some r) ∧
  (∀ id r, before_prune !! id = Some r → Row.is_starred r ≠ 0 → after !! id = Some r) ∧
  (∀ id r, articles db !! id = Some r → Row.is_starred r ≠ 0 →
      ∃ r', after !! id = Some r' ∧ Row.is_starred r' = Row.is_starred r).
Proof.
  intros t1 after non_starred. subst after. simpl. fold t1.
  assert (length (non_starred (prune feedUrl t1)) =
          Nat.min 500 (length (non_starred t1))) as Hlen.
  { unfold non_starred. rewrite prunable_after_prune_perm.
    rewrite length_take, length_select_ordered. done. }
  assert (∀ id r, t1 !! id = Some r → Row.is_starred r ≠ 0 →
                  prune feedUrl t1 !! id = Some r) as Hstar.
  { intros id r Ht Hs. apply lookup_prune_not_prunable; [done|].
    intros [Hz _]. done. }
  split_and!.
  - rewrite Hlen. lia.
  - done.
  - intros id r id' r' Hkept Hp Hbefore Hp' Hgone.
    assert ((id, r) ∈ take LIMIT (select_ordered (prunable feedUrl) t1)) as Hin
      by (by apply prunable_after_prune).
    destruct (lookup_prune_None_inv _ _ _ _ Hbefore Hgone) as [_ Hin'].
    pose proof (select_ordered_sorted (prunable feedUrl) t1) as Hsorted.
    rewrite <- (take_drop LIMIT (select_ordered (prunable feedUrl) t1)) in Hsorted.
    apply (StronglySorted_app_1_elem_of _ _ _ _ _ Hsorted Hin Hin').
  - intros id r Hafter. by apply lookup_prune_Some in Hafter as [? _].
  - done.
  - intros id r Hdb Hs.
    destruct (loop_keeps Date_getTime now feedUrl feedName items _ _ _ Hdb)
      as (r' & Hr' & _ & _ & Hs').
    exists r'. split; [|done]. apply Hstar; [done|congruence].
Qed.

(** The refresh that prunes the read article of [read_db] leaves it in place
    once it is starred. *)
Lemma upsertArticles_retention_witness :
  articles starred_db !! old_id = Some starred_row ∧
  Row.is_starred starred_row ≠ 0 ∧
  ∃ r, articles (upsertArticles ex_dates 2 ex_feed "H" (ex_newer 500 ++ [old_item_again])
                   starred_db) !! old_id = Some r ∧
       Row.is_starred r = Row.is_starred starred_row.
Proof.
  assert (articles starred_db !! old_id = Some starred_row) as Hdb
    by (vm_compute; reflexivity).
  assert (Row.is_starred starred_row ≠ 0) as Hstar by (vm_compute; discriminate).
  split_and!; [exact Hdb|exact Hstar|].
  destruct (upsertArticles_retention ex_dates 2 ex_feed "H"
              (ex_newer 500 ++ [old_item_again]) starred_db)
    as (_ & _ & _ & _ & _ & Hkept).
  exact (Hkept old_id starred_row Hdb Hstar).
Defined.

(** ** Sticky user state *)

Lemma lookup_prune_pruned f t id r :
  t !! id = Some r → pruned f (prune_keep f t) (id, r) → prune f t !! id = None.
Proof.
  intros Ht Hp. destruct (prune f t !! id) as [r'|] eqn:Hl; [|done].
  apply lookup_prune_Some in Hl as [Ht' Hnp]. by simplify_eq.
Qed.

Lemma lookup_prune_cases f t id r :
  t !! id = Some r → prune f t !! id = Some r ∨ prune f t !! id = None.
Proof.
  intros Ht. destruct (prune f t !! id) as [r'|] eqn:Hl; [|by right].
  apply lookup_prune_Some in Hl as [Ht' _]. left. congruence.
Qed.

Lemma articles_upsertArticles D now f n items db :
  articles (upsertArticles D now f n items db) =
  prune f (upsert_loop D now f n items (articles db)).
Proof. reflexivity. Qed.

(** C2, as stated, at a concrete input: the stored article [old_id] has been
    read; a refresh serves it again together with 500 newer entries; after
    the call the article is no longer in the store, so neither its new title
    nor its read flag is. *)
Lemma upsertArticles_prunes_updated_row :
  articles read_db !! old_id = Some old_row ∧
  Row.is_read old_row = 1 ∧
  old_item_again ∈ ex_newer 500 ++ [old_item_again] ∧
  article_id ex_feed old_item_again = old_id ∧
  articles (upsertArticles ex_dates 2 ex_feed "H" (ex_newer 500 ++ [old_item_again]) read_db)
    !! old_id = None.
Proof.
  split_and!.
  - vm_compute. reflexivity.
  - reflexivity.
  - apply elem_of_app. right. apply list_elem_of_singleton. reflexivity.
  - reflexivity.
  - rewrite articles_upsertArticles.
    apply (lookup_prune_pruned ex_feed _ old_id
             (conflict_update ex_dates 2 "H" old_item_again old_row)).
    + vm_compute. reflexivity.
    + apply (bool_decide_unpack _). vm_compute. exact I.
Qed.

(** C2, amended. When a stored article has the id derived for an entry of the
    list, the loop rewrites its descriptive columns from the last such entry
    and keeps [is_read] and [is_starred]; after the call the row is either
    that rewritten row or has been deleted by the pruning step, and it is the
    rewritten row whenever it is starred, belongs to another feed, or the
    feed holds no more than 500 non-starred articles. *)
Theorem upsertArticles_sticky_flags Date_getTime now feedUrl feedName items1 e items2 db old :
  let id := article_id feedUrl e in
  let items := items1 ++ e :: items2 in
  let r := conflict_update Date_getTime now feedName e old in
  let before_prune := upsert_loop Date_getTime now feedUrl feedName items (articles db) in
  let after := articles (upsertArticles Date_getTime now feedUrl feedName items db) in
  articles db !! id = Some old →
  Forall (λ e', article_id feedUrl e' ≠ id) items2 →
  (Row.title r = Item.title e ∧ Row.link r = Item.link e ∧
   Row.content r = Item.content e ∧ Row.author r = Item.author e ∧
   Row.published r = Item.published e ∧
   Row.published_ts r = publishedTs Date_getTime (Item.published e) ∧
   Row.feed_name r = feedName ∧ Row.fetched_at r = now ∧
   Row.is_read r = Row.is_read old ∧ Row.is_starred r = Row.is_starred old) ∧
  before_prune !! id = Some r ∧
  (after !! id = Some r ∨ after !! id = None) ∧
  (Row.is_starred old ≠ 0 ∨ Row.feed_url old ≠ feedUrl ∨
   (length (filter (prunable feedUrl) (map_to_list before_prune)) ≤ 500)%nat →
   after !! id = Some r).
Proof.
  intros id items r t1 after Hold Hlast.
  assert (t1 !! id = Some r) as Ht1.
  { unfold t1, items, id. rewrite lookup_loop_last by done.
    fold id. by rewrite Hold. }
  subst after. simpl. fold items. fold t1.
  split_and!; try done.
  - by apply lookup_prune_cases.
  - intros [Hs|[Hu|Hcap]].
    + apply lookup_prune_not_prunable; [done|]. intros [Hz _]. done.
    + apply lookup_prune_not_prunable; [done|]. intros [_ Hf]. done.
    + by rewrite prune_within_cap.
Qed.

Lemma upsertArticles_sticky_flags_witness :
  articles read_db !! article_id ex_feed old_item_again = Some old_row ∧
  Forall (λ e', article_id ex_feed e' ≠ article_id ex_feed old_item_again) [] ∧
  articles (upsertArticles ex_dates 2 ex_feed "H" [old_item_again] read_db) !! old_id =
  Some (conflict_update ex_dates 2 "H" old_item_again old_row).
Proof.
  assert (articles read_db !! article_id ex_feed old_item_again = Some old_row) as Hold
    by (vm_compute; reflexivity).
  assert (Forall (λ e', article_id ex_feed e' ≠ article_id ex_feed old_item_again) [])
    as Hlast by constructor.
  split_and!; [exact Hold|exact Hlast|].
  destruct (upsertArticles_sticky_flags ex_dates 2 ex_feed "H" [] old_item_again []
              read_db old_row Hold Hlast) as (_ & _ & _ & Hkept).
  apply Hkept. right. right. vm_compute. lia.
Defined.

(** ** Other feeds *)

(** C4 at a failing input.  The store holds one article, of feed B
    (["https://h/feed::x"], link ["https://h/1"]); the call upserts one entry
    of feed A (["https://h/feed"], link ["x::https://h/1"]).  Both derive the
    id ["https://h/feed::x::https://h/1"], since [feedUrl + "::" + link] does
    not tell where the url ends; the INSERT of A's entry conflicts with B's
    row, and B's article comes out with the title and feed name of A's entry
    while still belonging to B.  An article whose feed differs from the
    argument is changed, against the per-feed isolation the ids and the
    pruning statement are written for. *)
Lemma upsertArticles_rewrites_other_feed :
  articles db_b !! shared_id = Some (fresh_row ex_dates 1 feed_b "B" item_b) ∧
  Row.feed_url (fresh_row ex_dates 1 feed_b "B" item_b) ≠ feed_a ∧
  articles (upsertArticles ex_dates 2 feed_a "A" [item_a] db_b) !! shared_id ≠
    articles db_b !! shared_id ∧
  (∃ r, articles (upsertArticles ex_dates 2 feed_a "A" [item_a] db_b) !! shared_id = Some r ∧
        Row.feed_url r = feed_b ∧ Row.title r = "from A" ∧ Row.feed_name r = "A").
Proof.
  split_and!.
  - vm_compute. reflexivity.
  - vm_compute. discriminate.
  - vm_compute. discriminate.
  - eexists. split; [vm_compute; reflexivity|]. split_and!; reflexivity.
Qed.

(** What does hold for the articles of other feeds: such an article is never
    deleted by the call and keeps its feed url and both flags; it is left
    exactly as it was whenever no entry of the call derives its id. *)
Theorem upsertArticles_other_feeds Date_getTime now feedUrl feedName items db id r :
  let after := articles (upsertArticles Date_getTime now feedUrl feedName items db) in
  articles db !! id = Some r →
  Row.feed_url r ≠ feedUrl →
  (∃ r', after !! id = Some r' ∧
         Row.feed_url r' = Row.feed_url r ∧
         Row.is_read r' = Row.is_read r ∧
         Row.is_starred r' = Row.is_starred r) ∧
  (Forall (λ e, article_id feedUrl e ≠ id) items → after !! id = Some r).
Proof.
  intros after Hdb Hfeed. subst after. rewrite articles_upsertArticles. split.
  - destruct (loop_keeps Date_getTime now feedUrl feedName items _ _ _ Hdb)
      as (r' & Hr' & Hu & Hr & Hs).
    exists r'. split_and!; try done.
    apply lookup_prune_not_prunable; [done|].
    intros [_ Hf]. simpl in Hf. congruence.
  - intros Hother. apply lookup_prune_not_prunable.
    + by rewrite lookup_loop_other.
    + intros [_ Hf]. done.
Qed.

Lemma upsertArticles_other_feeds_witness :
  articles db_b !! shared_id = Some (fresh_row ex_dates 1 feed_b "B" item_b) ∧
  Row.feed_url (fresh_row ex_dates 1 feed_b "B" item_b) ≠ ex_feed ∧
  articles (upsertArticles ex_dates 2 ex_feed "H" [old_item] db_b) !! shared_id =
  Some (fresh_row ex_dates 1 feed_b "B" item_b).
Proof.
  assert (articles db_b !! shared_id = Some (fresh_row ex_dates 1 feed_b "B" item_b))
    as Hdb by (vm_compute; reflexivity).
  assert (Row.feed_url (fresh_row ex_dates 1 feed_b "B" item_b) ≠ ex_feed)
    as Hfeed by (vm_compute; discriminate).
  split_and!; [exact Hdb|exact Hfeed|].
  apply (upsertArticles_other_feeds ex_dates 2 ex_feed "H" [old_item] db_b
           shared_id _ Hdb Hfeed).
  apply Forall_singleton. vm_compute. discriminate.
Defined.

(** ** Removing a feed *)

(** C1. [removeFeed(url)] leaves no Feed row under [url] and no Article whose
    feed url is [url]; every other Feed row and every Article of another feed
    is exactly as before. *)
Theorem removeFeed_cascades url db :
  feeds (removeFeed url db) !! url = None ∧
  (∀ u, u ≠ url → feeds (removeFeed url db) !! u = feeds db !! u) ∧
  (∀ id r, articles (removeFeed url db) !! id = Some r → Row.feed_url r ≠ url) ∧
  (∀ id r, articles db !! id = Some r → Row.feed_url r = url →
           articles (removeFeed url db) !! id = None) ∧
  (∀ id r, articles db !! id = Some r → Row.feed_url r ≠ url →
           articles (removeFeed url db) !! id = Some r) ∧
  (∀ id r, articles (removeFeed url db) !! id = Some r → articles db !! id = Some r).
Proof.
  unfold removeFeed, cascade_articles. simpl. split_and!.
  - apply lookup_delete_eq.
  - intros u Hu. by apply lookup_delete_ne.
  - intros id r Hl. by apply map_lookup_filter_Some in Hl as [_ Hf].
  - intros id r Hl Hf. apply map_lookup_filter_None. right.
    intros r' Hr'. simpl. intros Hne. congruence.
  - intros id r Hl Hf. by apply map_lookup_filter_Some.
  - intros id r Hl. by apply map_lookup_filter_Some in Hl as [? _].
Qed.

Lemma removeFeed_cascades_witness :
  articles read_db !! old_id = Some old_row ∧
  Row.feed_url old_row = ex_feed ∧
  articles (removeFeed ex_feed read_db) !! old_id = None.
Proof.
  assert (articles read_db !! old_id = Some old_row) as Hdb by (vm_compute; reflexivity).
  assert (Row.feed_url old_row = ex_feed) as Hfeed by reflexivity.
  split_and!; [exact Hdb|exact Hfeed|].
  destruct (removeFeed_cascades ex_feed read_db) as (_ & _ & _ & Hgone & _).
  exact (Hgone old_id old_row Hdb Hfeed).
Defined.

(** ** The flag columns *)

Lemma flag_toggle n : flag (toggle n).
Proof. unfold flag, toggle. case_decide; auto. Qed.

Lemma flags_ok_empty : flags_ok empty_db.
Proof. intros id r Hl. simpl in Hl. by rewrite lookup_empty in Hl. Qed.

Lemma flags_ok_loop Date_getTime now feedUrl feedName items db id r :
  flags_ok db →
  upsert_loop Date_getTime now feedUrl feedName items (articles db) !! id = Some r →
  flag (Row.is_read r) ∧ flag (Row.is_starred r).
Proof.
  intros Hok. revert id r.
  induction items as [|e items IH] using rev_ind; intros id r.
  - apply Hok.
  - rewrite loop_snoc.
    destruct (decide (article_id feedUrl e = id)) as [<-|Hne].
    + rewrite lookup_upsert_item_eq. intros [= <-].
      destruct (upsert_loop _ _ _ _ items (articles db) !! article_id feedUrl e)
        as [old|] eqn:Hold; simpl.
      * by eapply IH.
      * unfold flag, default_is_read, default_is_starred. auto.
    + rewrite lookup_upsert_item_ne by done. apply IH.
Qed.

Lemma flags_ok_upsertArticles Date_getTime now feedUrl feedName items db :
  flags_ok db → flags_ok (upsertArticles Date_getTime now feedUrl feedName items db).
Proof.
  intros Hok id r. rewrite articles_upsertArticles.
  intros [Hl _]%lookup_prune_Some. by eapply flags_ok_loop.
Qed.

Lemma flags_ok_markRead articleId db : flags_ok db → flags_ok (markRead articleId db).
Proof.
  intros Hok id r. unfold markRead. simpl. rewrite lookup_alter.
  case_decide; [subst id|apply Hok].
  destruct (articles db !! articleId) as [old|] eqn:Hold; [|done].
  intros [= <-]. simpl. destruct (Hok _ _ Hold). unfold flag in *. auto.
Qed.

Lemma flags_ok_toggleRead articleId db : flags_ok db → flags_ok (toggleRead articleId db).
Proof.
  intros Hok id r. unfold toggleRead. simpl. rewrite lookup_alter.
  case_decide; [subst id|apply Hok].
  destruct (articles db !! articleId) as [old|] eqn:Hold; [|done].
  intros [= <-]. simpl. destruct (Hok _ _ Hold). split; [apply flag_toggle|done].
Qed.

Lemma flags_ok_toggleStar articleId db : flags_ok db → flags_ok (toggleStar articleId db).
Proof.
  intros Hok id r. unfold toggleStar. simpl. rewrite lookup_alter.
  case_decide; [subst id|apply Hok].
  destruct (articles db !! articleId) as [old|] eqn:Hold; [|done].
  intros [= <-]. simpl. destruct (Hok _ _ Hold). split; [done|apply flag_toggle].
Qed.

Lemma flags_ok_markAllRead articleIds db : flags_ok db → flags_ok (markAllRead articleIds db).
Proof.
  intros Hok. destruct articleIds as [|i ids]; [done|].
  intros id r. unfold markAllRead. simpl. rewrite map_lookup_imap.
  destruct (articles db !! id) as [old|] eqn:Hold; [|done]. simpl.
  destruct (Hok _ _ Hold). case_decide; intros [= <-]; simpl; unfold flag in *; auto.
Qed.

Lemma flags_ok_removeFeed url db : flags_ok db → flags_ok (removeFeed url db).
Proof.
  intros Hok id r. unfold removeFeed, cascade_articles. simpl.
  intros [Hl _]%map_lookup_filter_Some. by eapply Hok.
Qed.

Lemma flags_ok_addFeed Date_getTime url name addedAt db :
  flags_ok db → flags_ok (addFeed Date_getTime url name addedAt db).
Proof. intros Hok id r. apply Hok. Qed.

Lemma flag_legacy_flag legacy id : flag (legacy_flag legacy id).
Proof.
  unfold flag, legacy_flag. destruct legacy as [m|]; [|by left].
  destruct (default false (m !! id)); auto.
Qed.

Lemma flags_ok_run s : ∀ w,
  Forall stmt_flags_ok s → flags_ok (db w) → flags_ok (db (run s w)).
Proof.
  induction s as [|st s IH]; intros w Hall Hok; [done|].
  apply Forall_cons in Hall as [Hst Hall].
  change (run (st :: s) w) with (run s (exec w st)). apply IH; [done|].
  destruct st as [u r|id r| |key]; simpl; try done.
  intros id' r'. simpl. unfold insert_or_ignore.
  destruct (articles (db w) !! id) as [old|] eqn:Hold; [apply Hok|].
  destruct (decide (id = id')) as [->|Hne].
  - rewrite lookup_insert_eq. by intros [= <-].
  - rewrite lookup_insert_ne by done. apply Hok.
Qed.

Lemma flags_ok_import Date_getTime c w :
  flags_ok (db w) → flags_ok (db (importFromLocalStorageIfNeeded Date_getTime c w)).
Proof.
  intros Hok. apply flags_ok_run; [|done].
  unfold import_script. destruct (migrated (db w)); [constructor|].
  destruct (hasData (storage w)); [|by repeat constructor].
  apply Forall_app. split; [|by repeat constructor].
  unfold import_inserts. apply Forall_app. split.
  - apply Forall_forall. intros st Hin.
    apply elem_of_lookup_imap in Hin as (i & x & -> & _). exact I.
  - apply Forall_fmap, Forall_true. intros a. simpl.
    split; apply flag_legacy_flag.
Qed.

(** ** Listing *)

Lemma elem_of_listArticles_rows feedUrl filter db id r :
  (id, r) ∈ listArticles_rows feedUrl filter db ↔
  articles db !! id = Some r ∧ Forall (λ c, holds c r) (conditions feedUrl filter).
Proof. unfold listArticles_rows. by rewrite elem_of_select_ordered. Qed.

Lemma js_bool_false n : js_bool n = false ↔ n = 0.
Proof. unfold js_bool. destruct (Z.eqb_spec n 0); naive_solver. Qed.

Lemma js_bool_true n : js_bool n = true ↔ n ≠ 0.
Proof. unfold js_bool. destruct (Z.eqb_spec n 0); naive_solver. Qed.

Lemma truthy_nonempty u : u ≠ "" → truthy u = true.
Proof. by destruct u. Qed.

(** An Article stands for a row exactly when it is the object [rowToArticle]
    builds from it. *)
Lemma shows_rowToArticle a id r : shows a id r ↔ a = rowToArticle (id, r).
Proof.
  split.
  - destruct a as [aid u n t l p c au rd st]. unfold shows. simpl.
    intros (-> & -> & -> & -> & -> & -> & -> & -> & Hr & Hs).
    rewrite <- js_bool_true in Hr, Hs. unfold rowToArticle. simpl.
    assert (∀ b1 b2 : bool, (b1 = true ↔ b2 = true) → b1 = b2) as Hb.
    { intros [] [] [H1 H2]; try done; [symmetry; by apply H1|by apply H2]. }
    f_equal; by apply Hb.
  - intros ->. unfold shows. simpl. split_and!; try done; apply js_bool_true.
Qed.

Lemma elem_of_listArticles feedUrl filter db a :
  a ∈ listArticles feedUrl filter db ↔
  ∃ id r, a = rowToArticle (id, r) ∧ articles db !! id = Some r ∧
          Forall (λ c, holds c r) (conditions feedUrl filter).
Proof.
  unfold listArticles. rewrite list_elem_of_fmap. split.
  - intros ([id r] & -> & Hin). apply elem_of_listArticles_rows in Hin. eauto.
  - intros (id & r & -> & Hin). exists (id, r). split; [done|].
    by apply elem_of_listArticles_rows.
Qed.

Lemma ids_rowToArticle (rows : list (string * Row.t)) :
  Article.id <$> (rowToArticle <$> rows) = rows.*1.
Proof. rewrite <- list_fmap_compose. by apply list_fmap_ext. Qed.

Lemma NoDup_ids_listArticles feedUrl filter db :
  NoDup (Article.id <$> listArticles feedUrl filter db).
Proof.
  unfold listArticles. rewrite ids_rowToArticle. unfold listArticles_rows, select_ordered.
  rewrite merge_sort_Permutation.
  eapply sublist_NoDup; [apply (NoDup_fst_map_to_list (articles db))|].
  apply fmap_sublist, sublist_filter.
Qed.

Lemma flag_not_0 n : flag n → (n ≠ 0 ↔ n = 1).
Proof. unfold flag. lia. Qed.

(** The Articles of a listing, in terms of the stored rows and of the
    Articles' own fields. *)
Lemma elem_of_listArticles_shows feedUrl filter db a :
  a ∈ listArticles feedUrl filter db ↔
  ∃ id r, articles db !! id = Some r ∧ shows a id r ∧
          Forall (λ c, holds c r) (conditions feedUrl filter).
Proof.
  rewrite elem_of_listArticles.
  split; intros (id & r & H1 & H2 & H3); exists id, r.
  - split_and!; [done|by apply shows_rowToArticle|done].
  - split_and!; [by apply shows_rowToArticle|done|done].
Qed.

(** C8. For each of the four filters [listArticles] returns exactly the
    Articles that satisfy it.  Every returned object stands for a stored row,
    position by position: it has the row's id, its eight data columns and its
    two flags as booleans.  With no filter an Article is returned exactly
    when it stands for a stored row; with a feed filter, when moreover its
    feedUrl is that url; with the unread filter, when its isRead is false;
    with the starred filter, when its isStarred is true.  No id is returned
    twice, so each Article comes once.  The result is ordered by
    published_ts descending and then fetched_at descending: of two returned
    Articles the earlier one's stored row sorts at or before the later one's.
    A feed filter is a non-empty url, and the flag columns hold 0 or 1. *)
Theorem listArticles_filters db u :
  flags_ok db →
  u ≠ "" →
  (∀ feedUrl filter,
     listArticles feedUrl filter db = rowToArticle <$> listArticles_rows feedUrl filter db ∧
     StronglySorted (λ x y, order_desc x.2 y.2) (listArticles_rows feedUrl filter db) ∧
     NoDup (listArticles_rows feedUrl filter db)) ∧
  (∀ id r, (id, r) ∈ listArticles_rows None None db ↔ articles db !! id = Some r) ∧
  (∀ id r, (id, r) ∈ listArticles_rows (Some u) None db ↔
           articles db !! id = Some r ∧ Row.feed_url r = u) ∧
  (∀ id r, (id, r) ∈ listArticles_rows None (Some "unread") db ↔
           articles db !! id = Some r ∧ js_bool (Row.is_read r) = false) ∧
  (∀ id r, (id, r) ∈ listArticles_rows None (Some "starred") db ↔
           articles db !! id = Some r ∧ js_bool (Row.is_starred r) = true) ∧
  (∀ feedUrl filter,
     Forall2 (λ kr a, shows a kr.1 kr.2)
       (listArticles_rows feedUrl filter db) (listArticles feedUrl filter db)) ∧
  (∀ a, a ∈ listArticles None None db ↔
        ∃ id r, articles db !! id = Some r ∧ shows a id r) ∧
  (∀ a, a ∈ listArticles (Some u) None db ↔
        ∃ id r, articles db !! id = Some r ∧ shows a id r ∧ Article.feedUrl a = u) ∧
  (∀ a, a ∈ listArticles None (Some "unread") db ↔
        ∃ id r, articles db !! id = Some r ∧ shows a id r ∧ Article.is_read a = false) ∧
  (∀ a, a ∈ listArticles None (Some "starred") db ↔
        ∃ id r, articles db !! id = Some r ∧ shows a id r ∧ Article.is_starred a = true) ∧
  (∀ feedUrl filter, NoDup (Article.id <$> listArticles feedUrl filter db)) ∧
  (∀ feedUrl filter i j a b ra rb,
     (i < j)%nat →
     listArticles feedUrl filter db !! i = Some a →
     listArticles feedUrl filter db !! j = Some b →
     articles db !! Article.id a = Some ra →
     articles db !! Article.id b = Some rb →
     order_desc ra rb).
Proof.
  intros Hflags Hu. split_and!.
  - intros feedUrl filter. split_and!.
    + done.
    + apply (select_ordered_sorted _).
    + apply (NoDup_select_ordered _).
  - intros id r. rewrite elem_of_listArticles_rows. simpl.
    rewrite Forall_nil. tauto.
  - intros id r. rewrite elem_of_listArticles_rows. unfold conditions.
    rewrite truthy_nonempty by done. simpl.
    rewrite Forall_singleton. done.
  - intros id r. rewrite elem_of_listArticles_rows.
    change (conditions None (Some "unread")) with [IsReadEq0].
    rewrite Forall_singleton, js_bool_false. done.
  - intros id r. rewrite elem_of_listArticles_rows.
    change (conditions None (Some "starred")) with [IsStarredEq1].
    rewrite Forall_singleton, js_bool_true. simpl.
    split; intros [Hdb Hs]; (split; [done|]).
    + lia.
    + destruct (Hflags id r Hdb) as [_ [?|?]]; done.
  - intros feedUrl filter. unfold listArticles. apply Forall2_fmap_r.
    apply Forall_Forall2_diag, Forall_forall. intros [id r] _. simpl.
    by apply shows_rowToArticle.
  - intros a. rewrite elem_of_listArticles_shows. simpl.
    split; intros (id & r & H1 & H2); exists id, r.
    + tauto.
    + split_and!; [done|tauto|constructor].
  - intros a. rewrite elem_of_listArticles_shows. unfold conditions.
    rewrite truthy_nonempty by done. simpl.
    split; intros (id & r & Hdb & Hshows & Hc); exists id, r; (split_and!; [done|done|]).
    + rewrite Forall_singleton in Hc. simpl in Hc.
      destruct Hshows as (_ & Hfeed & _). congruence.
    + apply Forall_singleton. simpl. destruct Hshows as (_ & Hfeed & _). congruence.
  - intros a. rewrite elem_of_listArticles_shows.
    change (conditions None (Some "unread")) with [IsReadEq0].
    split; intros (id & r & Hdb & Hshows & Hc); exists id, r; (split_and!; [done|done|]).
    + rewrite Forall_singleton in Hc. simpl in Hc.
      destruct Hshows as (_ & _ & _ & _ & _ & _ & _ & _ & Hread & _).
      destruct (Article.is_read a); [|done]. destruct (proj1 Hread eq_refl Hc).
    + apply Forall_singleton. simpl.
      destruct Hshows as (_ & _ & _ & _ & _ & _ & _ & _ & Hread & _).
      destruct (decide (Row.is_read r = 0)) as [|Hne]; [done|].
      apply Hread in Hne. congruence.
  - intros a. rewrite elem_of_listArticles_shows.
    change (conditions None (Some "starred")) with [IsStarredEq1].
    split; intros (id & r & Hdb & Hshows & Hc); exists id, r; (split_and!; [done|done|]).
    + rewrite Forall_singleton in Hc. simpl in Hc.
      destruct Hshows as (_ & _ & _ & _ & _ & _ & _ & _ & _ & Hstar).
      apply Hstar. lia.
    + apply Forall_singleton. simpl.
      destruct Hshows as (_ & _ & _ & _ & _ & _ & _ & _ & _ & Hstar).
      apply flag_not_0; [by destruct (Hflags id r Hdb)|]. by apply Hstar.
  - intros feedUrl filter. apply NoDup_ids_listArticles.
  - intros feedUrl filter i j a b ra rb Hij Ha Hb Hra Hrb.
    unfold listArticles in Ha, Hb.
    apply list_lookup_fmap_Some in Ha as ([ida ra'] & -> & Ha).
    apply list_lookup_fmap_Some in Hb as ([idb rb'] & -> & Hb).
    simpl in Hra, Hrb.
    assert (ra' = ra) as ->.
    { apply list_elem_of_lookup_2, elem_of_listArticles_rows in Ha as [Ha _]. congruence. }
    assert (rb' = rb) as ->.
    { apply list_elem_of_lookup_2, elem_of_listArticles_rows in Hb as [Hb _]. congruence. }
    pose proof (select_ordered_sorted (where_clause (conditions feedUrl filter))
                  (articles db)) as Hsorted.
    fold (listArticles_rows feedUrl filter db) in Hsorted.
    rewrite <- (take_drop j (listArticles_rows feedUrl filter db)) in Hsorted.
    apply (StronglySorted_app_1_elem_of _ _ _ (ida, ra) (idb, rb) Hsorted).
    + apply (list_elem_of_lookup_2 _ i). by rewrite lookup_take_lt.
    + apply (list_elem_of_lookup_2 _ 0%nat). rewrite lookup_drop. by rewrite Nat.add_0_r.
Qed.

(** The one article of [read_db] has been read: it is listed without a
    filter and under its feed, as the Article that stands for its row, and
    not under the unread filter. *)
Lemma listArticles_filters_witness :
  flags_ok read_db ∧
  ex_feed ≠ "" ∧
  ((old_id, old_row) ∈ listArticles_rows (Some ex_feed) None read_db ↔
   articles read_db !! old_id = Some old_row ∧ Row.feed_url old_row = ex_feed) ∧
  ((old_id, old_row) ∈ listArticles_rows None (Some "starred") read_db ↔
   articles read_db !! old_id = Some old_row ∧ js_bool (Row.is_starred old_row) = true) ∧
  rowToArticle (old_id, old_row) ∈ listArticles (Some ex_feed) None read_db ∧
  Article.title (rowToArticle (old_id, old_row)) = "first title" ∧
  Article.is_read (rowToArticle (old_id, old_row)) = true ∧
  rowToArticle (old_id, old_row) ∉ listArticles None (Some "unread") read_db.
Proof.
  assert (flags_ok read_db) as Hflags
    by apply flags_ok_markRead, flags_ok_upsertArticles, flags_ok_empty.
  assert (ex_feed ≠ "") as Hu by discriminate.
  assert (articles read_db !! old_id = Some old_row) as Hdb by (vm_compute; reflexivity).
  destruct (listArticles_filters read_db ex_feed Hflags Hu)
    as (_ & _ & Hfeed & _ & Hstar & _ & _ & Hfeed' & Hunread & _).
  split_and!; [exact Hflags|exact Hu|apply Hfeed|apply Hstar| |reflexivity|reflexivity|].
  - apply Hfeed'. exists old_id, old_row.
    split_and!; [exact Hdb|by apply shows_rowToArticle|reflexivity].
  - intros (id & r & _ & _ & Hread)%Hunread. discriminate.
Defined.

(** ** The read model *)

(** C10. Every object returned by [listArticles] is the image under
    [rowToArticle] of a stored row: it carries the row's id, feed url, feed
    name, title, link, published string, content and author, and its two
    flags as booleans (true exactly when the column is not 0).  The row's
    published_ts and fetched_at do not appear in it: changing them does not
    change the object. *)
Theorem listArticles_read_model feedUrl filter db a :
  a ∈ listArticles feedUrl filter db →
  ∃ id r,
    articles db !! id = Some r ∧
    a = rowToArticle (id, r) ∧
    Article.id a = id ∧
    Article.feedUrl a = Row.feed_url r ∧
    Article.feedName a = Row.feed_name r ∧
    Article.title a = Row.title r ∧
    Article.link a = Row.link r ∧
    Article.published a = Row.published r ∧
    Article.content a = Row.content r ∧
    Article.author a = Row.author r ∧
    (Article.is_read a = true ↔ Row.is_read r ≠ 0) ∧
    (Article.is_starred a = true ↔ Row.is_starred r ≠ 0) ∧
    (∀ ts fetched, rowToArticle (id, set_sort_columns ts fetched r) = a).
Proof.
  unfold listArticles. intros Hin.
  apply list_elem_of_fmap in Hin as [[id r] [-> Hin]].
  apply elem_of_listArticles_rows in Hin as [Hdb _].
  exists id, r. split_and!; try done.
  - apply js_bool_true.
  - apply js_bool_true.
Qed.

Lemma listArticles_read_model_witness :
  rowToArticle (old_id, old_row) ∈ listArticles None None read_db ∧
  ∃ id r,
    articles read_db !! id = Some r ∧
    rowToArticle (old_id, old_row) = rowToArticle (id, r) ∧
    (∀ ts fetched,
       rowToArticle (id, set_sort_columns ts fetched r) = rowToArticle (old_id, old_row)).
Proof.
  assert (rowToArticle (old_id, old_row) ∈ listArticles None None read_db) as Hin.
  { apply list_elem_of_fmap_2, elem_of_listArticles_rows. split.
    - vm_compute. reflexivity.
    - constructor. }
  split; [exact Hin|].
  destruct (listArticles_read_model None None read_db _ Hin)
    as (id & r & Hdb & Ha & _ & _ & _ & _ & _ & _ & _ & _ & _ & _ & Hsort).
  exists id, r. auto.
Defined.

(** ** Upserting the same entry again *)

Lemma filter_none {A} (P : A → Prop) `{∀ x, Decision (P x)} (l : list A) :
  (∀ x, x ∈ l → ¬ P x) → filter P l = [].
Proof.
  induction l as [|x l IH]; [done|]. intros Hall.
  rewrite filter_cons_False by (apply Hall; left).
  apply IH. intros y Hy. apply Hall. by right.
Qed.

Lemma length_filter_fmap {A B} (f : A → B) (P : B → Prop) `{∀ x, Decision (P x)}
    (l : list A) :
  length (filter P (f <$> l)) = length (filter (λ x, P (f x)) l).
Proof.
  induction l as [|x l IH]; [done|]. rewrite fmap_cons, !filter_cons.
  destruct (decide (P (f x))); simpl; by rewrite IH.
Qed.

(** The number of rows of a table stored under a given key. *)
Lemma length_filter_key (t : gmap string Row.t) id :
  length (filter (λ kr : string * Row.t, kr.1 = id) (map_to_list t)) =
  if t !! id is Some _ then 1%nat else 0%nat.
Proof.
  destruct (t !! id) as [r|] eqn:Hl.
  - rewrite <- (insert_delete_id t id r Hl).
    rewrite map_to_list_insert by apply lookup_delete_eq.
    rewrite filter_cons_True by done. simpl. f_equal.
    rewrite filter_none; [done|].
    intros [k x] Hin%elem_of_map_to_list. simpl. intros ->.
    by rewrite lookup_delete_eq in Hin.
  - rewrite filter_none; [done|].
    intros [k x] Hin%elem_of_map_to_list. simpl. intros ->. congruence.
Qed.

Lemma listArticles_all_perm db :
  listArticles_rows None None db ≡ₚ map_to_list (articles db).
Proof.
  apply NoDup_Permutation.
  - apply (NoDup_select_ordered _).
  - apply NoDup_map_to_list.
  - intros [id r]. rewrite elem_of_listArticles_rows, elem_of_map_to_list.
    simpl. rewrite Forall_nil. tauto.
Qed.

(** The number of listed articles with a given id. *)
Lemma length_stored db id :
  length (filter (λ a, Article.id a = id) (listArticles None None db)) =
  if articles db !! id is Some _ then 1%nat else 0%nat.
Proof.
  unfold listArticles. rewrite length_filter_fmap. simpl.
  rewrite listArticles_all_perm. apply length_filter_key.
Qed.












(** ** The legacy import *)

Lemma run_app s1 s2 w : run (s1 ++ s2) w = run s2 (run s1 w).
Proof. unfold run. apply foldl_app. Qed.

Lemma lookup_insert_or_ignore_keeps {A} k (v : A) t k' x :
  t !! k' = Some x → insert_or_ignore k v t !! k' = Some x.
Proof.
  intros Hl. unfold insert_or_ignore.
  destruct (t !! k) as [y|] eqn:Hk; [done|].
  rewrite lookup_insert_ne; [done|]. intros ->. congruence.
Qed.

Lemma dom_insert_or_ignore {A} k (v : A) (t : gmap string A) :
  dom (insert_or_ignore k v t) = {[k]} ∪ dom t.
Proof.
  unfold insert_or_ignore. destruct (t !! k) as [y|] eqn:Hk.
  - apply elem_of_dom_2 in Hk. apply set_eq. intros k'.
    rewrite elem_of_union, elem_of_singleton.
    split; [tauto|]. intros [->|?]; done.
  - apply dom_insert_L.
Qed.

Lemma run_keeps_articles s : ∀ w id r,
  articles (db w) !! id = Some r → articles (db (run s w)) !! id = Some r.
Proof.
  induction s as [|st s IH]; intros w id r Hl; [done|].
  apply IH. destruct st; simpl; try done.
  by apply lookup_insert_or_ignore_keeps.
Qed.

Lemma run_keeps_feeds s : ∀ w u r,
  feeds (db w) !! u = Some r → feeds (db (run s w)) !! u = Some r.
Proof.
  induction s as [|st s IH]; intros w u r Hl; [done|].
  apply IH. destruct st; simpl; try done.
  by apply lookup_insert_or_ignore_keeps.
Qed.

Lemma dom_articles_run s : ∀ w,
  dom (articles (db (run s w))) = dom (articles (db w)) ∪ list_to_set (omap article_key s).
Proof.
  induction s as [|st s IH]; intros w.
  { simpl. by rewrite (right_id_L ∅ (∪)). }
  change (run (st :: s) w) with (run s (exec w st)). rewrite IH.
  destruct st; simpl; try done.
  rewrite dom_insert_or_ignore. apply set_eq. intros x.
  rewrite !elem_of_union, elem_of_singleton. tauto.
Qed.

Lemma dom_feeds_run s : ∀ w,
  dom (feeds (db (run s w))) = dom (feeds (db w)) ∪ list_to_set (omap feed_key s).
Proof.
  induction s as [|st s IH]; intros w.
  { simpl. by rewrite (right_id_L ∅ (∪)). }
  change (run (st :: s) w) with (run s (exec w st)). rewrite IH.
  destruct st; simpl; try done.
  rewrite dom_insert_or_ignore. apply set_eq. intros x.
  rewrite !elem_of_union, elem_of_singleton. tauto.
Qed.

(** The INSERT statements touch neither the marker nor [localStorage]. *)
Lemma run_inserts_frame s : ∀ w,
  Forall is_insert s →
  meta (db (run s w)) = meta (db w) ∧ storage (run s w) = storage w.
Proof.
  induction s as [|st s IH]; intros w Hall; [done|].
  apply Forall_cons in Hall as [Hst Hall].
  change (run (st :: s) w) with (run s (exec w st)).
  destruct (IH (exec w st) Hall) as [-> ->]. by destruct st.
Qed.

(** The [removeItem] calls leave the database alone. *)
Lemma run_removes_db s : ∀ w,
  Forall (λ st, ∃ key, st = RemoveItem key) s → db (run s w) = db w.
Proof.
  induction s as [|st s IH]; intros w Hall; [done|].
  apply Forall_cons in Hall as [[key ->] Hall].
  change (run (RemoveItem key :: s) w) with (run s (exec w (RemoveItem key))).
  by rewrite IH.
Qed.

Lemma omap_imap_key {A} (key : Stmt → option string) (h : nat → A → Stmt)
    (g : A → option string) (l : list A) :
  (∀ i x, key (h i x) = g x) → omap key (imap h l) = omap g l.
Proof.
  revert h. induction l as [|x l IH]; intros h Hkey; [done|].
  simpl. rewrite Hkey.
  destruct (g x); [f_equal|]; apply IH; intros; apply Hkey.
Qed.

Lemma omap_fmap_key {A} (key : Stmt → option string) (h : A → Stmt)
    (g : A → option string) (l : list A) :
  (∀ x, key (h x) = g x) → omap key (h <$> l) = omap g l.
Proof.
  intros Hkey. induction l as [|x l IH]; [done|].
  rewrite fmap_cons. simpl. rewrite Hkey. by destruct (g x); [f_equal|].
Qed.

Lemma omap_none {A B} (l : list A) : omap (λ _ : A, @None B) l = [].
Proof. by induction l. Qed.

Lemma omap_some {A B} (f : A → B) (l : list A) : omap (λ x, Some (f x)) l = f <$> l.
Proof. induction l as [|x l IH]; [done|]. rewrite fmap_cons. simpl. by f_equal. Qed.

Section import.
Variable Date_getTime : string → option Z.

Abbreviation import := (importFromLocalStorageIfNeeded Date_getTime).
Abbreviation inserts := (import_inserts Date_getTime).
Abbreviation script := (import_script Date_getTime).

Lemma article_keys_inserts c ls :
  omap article_key (inserts c ls) = LegacyArticle.id <$> default [] (rss_articles ls).
Proof.
  unfold import_inserts. rewrite omap_app.
  rewrite (omap_imap_key _ _ (λ _, None)) by done.
  rewrite (omap_fmap_key _ _ (λ a, Some (LegacyArticle.id a))) by done.
  by rewrite omap_none, omap_some.
Qed.

Lemma feed_keys_inserts c ls :
  omap feed_key (inserts c ls) = LegacyFeed.url <$> default [] (rss_feeds ls).
Proof.
  unfold import_inserts. rewrite omap_app.
  rewrite (omap_imap_key _ _ (λ f, Some (LegacyFeed.url f))) by done.
  rewrite (omap_fmap_key _ _ (λ _, None)) by done.
  by rewrite omap_none, omap_some, app_nil_r.
Qed.

Lemma inserts_are_inserts c ls : Forall is_insert (inserts c ls).
Proof.
  unfold import_inserts. apply Forall_app. split.
  - apply Forall_forall. intros st Hin.
    apply elem_of_lookup_imap in Hin as (i & x & -> & _). exact I.
  - apply Forall_fmap, Forall_true. intros x. exact I.
Qed.

Lemma inserts_no_data c ls : hasData ls = false → inserts c ls = [].
Proof.
  unfold hasData, import_inserts.
  destruct (rss_feeds ls) as [[|? ?]|], (rss_articles ls) as [[|? ?]|]; done.
Qed.

(** The script of a call that finds no marker: the INSERTs, then the
    marker, then only [removeItem] calls. *)
Lemma script_shape c w :
  migrated (db w) = false →
  ∃ tl, script c w = inserts c (storage w) ++ ReplaceMarker :: tl ∧
        Forall (λ st, ∃ key, st = RemoveItem key) tl.
Proof.
  intros Hm. unfold import_script. rewrite Hm.
  destruct (hasData (storage w)) eqn:Hd.
  - eexists. split; [done|]. repeat constructor; eauto.
  - rewrite inserts_no_data by done. exists []. split; [done|]. constructor.
Qed.

Lemma migrated_replace_marker d :
  migrated (set_meta (<[MARKER := "1"]> (meta d)) d) = true.
Proof. unfold migrated. simpl. apply bool_decide_eq_true. apply lookup_insert_eq. Qed.

(** Once the marker is committed a call changes nothing. *)
Lemma import_noop c w : migrated (db w) = true → import c w = w.
Proof.
  intros Hm. unfold importFromLocalStorageIfNeeded, import_script. by rewrite Hm.
Qed.

(** The database after the marker statement and any number of the
    [removeItem] calls that follow it. *)
Lemma db_run_marker tl w :
  Forall (λ st, ∃ key, st = RemoveItem key) tl →
  db (run (ReplaceMarker :: tl) w) = set_meta (<[MARKER := "1"]> (meta (db w))) (db w).
Proof.
  intros Hall.
  change (run (ReplaceMarker :: tl) w) with (run tl (exec w ReplaceMarker)).
  by rewrite run_removes_db.
Qed.

Lemma omap_removes (key : Stmt → option string) tl :
  key ReplaceMarker = None → (∀ k, key (RemoveItem k) = None) →
  Forall (λ st, ∃ k, st = RemoveItem k) tl →
  omap key (ReplaceMarker :: tl) = [].
Proof.
  intros Hm Hr Hall. simpl. rewrite Hm.
  induction Hall as [|st tl [k ->] _ IH]; [done|]. simpl. by rewrite Hr.
Qed.

Lemma import_migrates c w : migrated (db (import c w)) = true.
Proof.
  destruct (migrated (db w)) eqn:Hm; [by rewrite import_noop|].
  destruct (script_shape c w Hm) as (tl & Hs & Htl).
  unfold importFromLocalStorageIfNeeded. rewrite Hs, run_app, db_run_marker by done.
  apply migrated_replace_marker.
Qed.

Lemma dom_articles_import c w :
  migrated (db w) = false →
  dom (articles (db (import c w))) =
  dom (articles (db w)) ∪
  list_to_set (LegacyArticle.id <$> default [] (rss_articles (storage w))).
Proof.
  intros Hm. destruct (script_shape c w Hm) as (tl & Hs & Htl).
  unfold importFromLocalStorageIfNeeded. rewrite dom_articles_run, Hs, omap_app.
  rewrite article_keys_inserts, omap_removes by done. by rewrite app_nil_r.
Qed.

Lemma dom_feeds_import c w :
  migrated (db w) = false →
  dom (feeds (db (import c w))) =
  dom (feeds (db w)) ∪
  list_to_set (LegacyFeed.url <$> default [] (rss_feeds (storage w))).
Proof.
  intros Hm. destruct (script_shape c w Hm) as (tl & Hs & Htl).
  unfold importFromLocalStorageIfNeeded. rewrite dom_feeds_run, Hs, omap_app.
  rewrite feed_keys_inserts, omap_removes by done. by rewrite app_nil_r.
Qed.

Lemma omap_take_subseteq (key : Stmt → option string) k s :
  (list_to_set (omap key (take k s)) : gset string) ⊆ list_to_set (omap key s).
Proof.
  intros x. rewrite !elem_of_list_to_set, !list_elem_of_omap.
  intros (st & Hin & Hkey). exists st. split; [|done].
  by apply (subseteq_take k).
Qed.

(** A call cut short and then retried leaves the same database as the cut
    call when that one had committed the marker, and otherwise differs from
    an uninterrupted call only in rows that both insert. *)
Lemma import_retry_dom c1 c2 k w :
  dom (feeds (db (import c2 (import_interrupted Date_getTime k c1 w)))) =
    dom (feeds (db (import c1 w))) ∧
  dom (articles (db (import c2 (import_interrupted Date_getTime k c1 w)))) =
    dom (articles (db (import c1 w))).
Proof.
  unfold import_interrupted.
  destruct (migrated (db w)) eqn:Hm.
  { rewrite (import_noop c1 w Hm). unfold import_script. rewrite Hm.
    rewrite take_nil. change (run [] w) with w. by rewrite import_noop. }
  destruct (script_shape c1 w Hm) as (tl & Hs & Htl). rewrite Hs.
  destruct (decide (k ≤ length (inserts c1 (storage w)))%nat) as [Hle|Hgt].
  - rewrite take_app_le by done.
    set (w1 := run (take k (inserts c1 (storage w))) w).
    destruct (run_inserts_frame (take k (inserts c1 (storage w))) w) as [Hmeta Hst].
    { apply Forall_take, inserts_are_inserts. }
    fold w1 in Hmeta, Hst.
    assert (migrated (db w1) = false) as Hm1.
    { unfold migrated in *. by rewrite Hmeta. }
    rewrite dom_feeds_import, dom_articles_import by done.
    rewrite (dom_feeds_import c1 w), (dom_articles_import c1 w) by done.
    rewrite Hst. unfold w1. rewrite dom_feeds_run, dom_articles_run.
    pose proof (omap_take_subseteq feed_key k (inserts c1 (storage w))) as Hf.
    pose proof (omap_take_subseteq article_key k (inserts c1 (storage w))) as Ha.
    rewrite feed_keys_inserts in Hf. rewrite article_keys_inserts in Ha.
    split; apply set_eq; intros x; rewrite !elem_of_union;
      specialize (Hf x); specialize (Ha x); tauto.
  - rewrite take_app_ge by lia.
    destruct (k - length (inserts c1 (storage w)))%nat as [|j] eqn:Hk; [lia|].
    rewrite firstn_cons.
    assert (Forall (λ st, ∃ key, st = RemoveItem key) (take j tl)) as Htl'
      by by apply Forall_take.
    rewrite import_noop.
    + unfold importFromLocalStorageIfNeeded. rewrite Hs, !run_app.
      by rewrite !db_run_marker.
    + rewrite run_app, db_run_marker by done. apply migrated_replace_marker.
Qed.

(** INSERT OR IGNORE of keys that are all present changes nothing. *)
Lemma run_present_noop s : ∀ w,
  Forall is_insert s →
  (∀ u, u ∈ omap feed_key s → is_Some (feeds (db w) !! u)) →
  (∀ id, id ∈ omap article_key s → is_Some (articles (db w) !! id)) →
  run s w = w.
Proof.
  induction s as [|st s IH]; intros w Hall Hf Ha; [done|].
  apply Forall_cons in Hall as [Hst Hall].
  change (run (st :: s) w) with (run s (exec w st)).
  assert (exec w st = w) as ->.
  { destruct w as [d ls], d as [fs arts m].
    destruct st as [u r|id r| |key]; simpl in *; try done.
    - destruct (Hf u) as [x Hx]; [by left|].
      unfold set_feeds, insert_or_ignore. simpl. by rewrite Hx.
    - destruct (Ha id) as [x Hx]; [by left|].
      unfold set_articles, insert_or_ignore. simpl. by rewrite Hx. }
  apply IH; [done| |].
  - intros u Hu. apply Hf. destruct st; simpl; try done. by right.
  - intros id Hid. apply Ha. destruct st; simpl; try done. by right.
Qed.

Lemma run_twice s w : Forall is_insert s → run s (run s w) = run s w.
Proof.
  intros Hall. apply run_present_noop; [done| |].
  - intros u Hu. apply elem_of_dom. rewrite dom_feeds_run.
    apply elem_of_union. right. by apply elem_of_list_to_set.
  - intros id Hid. apply elem_of_dom. rewrite dom_articles_run.
    apply elem_of_union. right. by apply elem_of_list_to_set.
Qed.

(** With the same clock readings, a call cut short and retried leaves the
    database of one uninterrupted call. *)
Lemma import_retry_same_clock c k w :
  db (import c (import_interrupted Date_getTime k c w)) = db (import c w).
Proof.
  unfold import_interrupted.
  destruct (migrated (db w)) eqn:Hm.
  { rewrite (import_noop c w Hm). unfold import_script. rewrite Hm.
    rewrite take_nil. change (run [] w) with w. by rewrite import_noop. }
  destruct (script_shape c w Hm) as (tl & Hs & Htl). rewrite Hs.
  destruct (decide (k ≤ length (inserts c (storage w)))%nat) as [Hle|Hgt].
  - rewrite take_app_le by done.
    set (p := take k (inserts c (storage w))).
    assert (Forall is_insert p) as Hp by apply Forall_take, inserts_are_inserts.
    destruct (run_inserts_frame p w Hp) as [Hmeta Hst].
    assert (script c (run p w) = script c w) as Hsame.
    { unfold import_script, migrated. by rewrite Hmeta, Hst. }
    unfold importFromLocalStorageIfNeeded. rewrite Hsame, Hs.
    assert (inserts c (storage w) = p ++ drop k (inserts c (storage w))) as Hsplit
      by (symmetry; apply take_drop).
    rewrite Hsplit, !run_app. by rewrite run_twice.
  - rewrite take_app_ge by lia.
    destruct (k - length (inserts c (storage w)))%nat as [|j] eqn:Hk; [lia|].
    rewrite firstn_cons.
    assert (Forall (λ st, ∃ key, st = RemoveItem key) (take j tl)) as Htl'
      by by apply Forall_take.
    rewrite import_noop.
    + unfold importFromLocalStorageIfNeeded. rewrite Hs, !run_app.
      by rewrite !db_run_marker.
    + rewrite run_app, db_run_marker by done. apply migrated_replace_marker.
Qed.

End import.

(** C5. A call of [importFromLocalStorageIfNeeded] cut short after any number
    of its statements and then retried ends with the same Feed urls and the
    same Article ids as one uninterrupted call, each listed once, and with
    the very same database when both calls read the same clock; no row that
    was in the store before, or that the cut call had inserted, is changed by
    the retry; the marker is committed after the retry and after an
    uninterrupted call; and every call made once the marker is committed
    returns the state it was given. *)
Theorem import_idempotent Date_getTime c1 c2 c3 k w :
  let interrupted := import_interrupted Date_getTime k c1 w in
  let retried := importFromLocalStorageIfNeeded Date_getTime c2 interrupted in
  let once := importFromLocalStorageIfNeeded Date_getTime c1 w in
  dom (feeds (db retried)) = dom (feeds (db once)) ∧
  dom (articles (db retried)) = dom (articles (db once)) ∧
  (c2 = c1 → db retried = db once) ∧
  (∀ id, (length (filter (λ a, Article.id a = id)
                    (listArticles None None (db retried))) ≤ 1)%nat) ∧
  (∀ u r, feeds (db w) !! u = Some r → feeds (db retried) !! u = Some r) ∧
  (∀ id r, articles (db w) !! id = Some r → articles (db retried) !! id = Some r) ∧
  (∀ u r, feeds (db interrupted) !! u = Some r → feeds (db retried) !! u = Some r) ∧
  (∀ id r, articles (db interrupted) !! id = Some r → articles (db retried) !! id = Some r) ∧
  migrated (db retried) = true ∧
  migrated (db once) = true ∧
  importFromLocalStorageIfNeeded Date_getTime c3 retried = retried ∧
  importFromLocalStorageIfNeeded Date_getTime c3 once = once ∧
  (∀ w', migrated (db w') = true →
         importFromLocalStorageIfNeeded Date_getTime c3 w' = w').
Proof.
  intros interrupted retried once.
  destruct (import_retry_dom Date_getTime c1 c2 k w) as [Hf Ha].
  split_and!.
  - exact Hf.
  - exact Ha.
  - intros ->. apply import_retry_same_clock.
  - intros id. rewrite length_stored. destruct (articles (db retried) !! id); lia.
  - intros u r Hl. by apply run_keeps_feeds, run_keeps_feeds.
  - intros id r Hl. by apply run_keeps_articles, run_keeps_articles.
  - intros u r Hl. by apply run_keeps_feeds.
  - intros id r Hl. by apply run_keeps_articles.
  - apply import_migrates.
  - apply import_migrates.
  - apply import_noop, import_migrates.
  - apply import_noop, import_migrates.
  - intros w'. apply import_noop.
Qed.

Lemma import_idempotent_witness :
  migrated (db (importFromLocalStorageIfNeeded ex_dates (ex_clock 5) ex_world)) = true ∧
  importFromLocalStorageIfNeeded ex_dates (ex_clock 9)
    (importFromLocalStorageIfNeeded ex_dates (ex_clock 5) ex_world) =
  importFromLocalStorageIfNeeded ex_dates (ex_clock 5) ex_world.
Proof.
  assert (migrated (db (importFromLocalStorageIfNeeded ex_dates (ex_clock 5) ex_world))
          = true) as Hm by (vm_compute; reflexivity).
  split; [exact Hm|].
  destruct (import_idempotent ex_dates (ex_clock 5) (ex_clock 5) (ex_clock 9) 0 ex_world)
    as (_ & _ & _ & _ & _ & _ & _ & _ & _ & _ & _ & _ & Hnoop).
  exact (Hnoop _ Hm).
Defined.

(** ** The write lock *)

Lemma lock_before_S q j :
  lock_before q (S j) = true ↔ ∃ s, q !! j = Some s ∧ lock s = true.
Proof.
  simpl. destruct (q !! j) as [s|]; simpl.
  - split; [by eauto|]. by intros (? & [= <-] & ?).
  - split; [done|]. by intros (? & ? & ?).
Qed.

(** The slot read back after a step is the rewritten one or an untouched one. *)
Ltac slot_cases Hk :=
  apply list_lookup_insert_Some in Hk as [(-> & <- & _)|[_ Hk]].

(** A fulfilled lock stays fulfilled. *)
Lemma lock_before_mono q e q' k :
  step q e q' → lock_before q k = true → lock_before q' k = true.
Proof.
  intros Hstep. destruct k as [|j]; [done|].
  rewrite !lock_before_S. intros (sj & Hj & Hlock).
  pose proof (lookup_lt_Some _ _ _ Hj) as Hlt.
  inversion Hstep as [q0|q0 i s Hi _ _|q0 i s o Hi _|q0 i s o Hi _ _|q0 i s o Hi _ _];
    subst.
  - exists sj. unfold withWriteLock. by rewrite lookup_app_l.
  - destruct (decide (i = j)) as [->|Hne].
    + exists (set_call Running s). rewrite list_lookup_insert_eq by done.
      split; [done|]. simpl. congruence.
    + exists sj. by rewrite list_lookup_insert_ne.
  - destruct (decide (i = j)) as [->|Hne].
    + exists (set_call (Settled o) s). rewrite list_lookup_insert_eq by done.
      split; [done|]. simpl. congruence.
    + exists sj. by rewrite list_lookup_insert_ne.
  - destruct (decide (i = j)) as [->|Hne].
    + exists (set_next o s). rewrite list_lookup_insert_eq by done.
      split; [done|]. simpl. congruence.
    + exists sj. by rewrite list_lookup_insert_ne.
  - destruct (decide (i = j)) as [->|Hne].
    + exists (set_lock s). by rewrite list_lookup_insert_eq.
    + exists sj. by rewrite list_lookup_insert_ne.
Qed.

Lemma slot_ok_mono q e q' k s : step q e q' → slot_ok q k s → slot_ok q' k s.
Proof.
  intros Hstep (Hstart & Hlock & Hnext). split_and!; [|done..].
  intros Hc. eapply lock_before_mono; eauto.
Qed.

Lemma chain_ok_step q e q' : chain_ok q → step q e q' → chain_ok q'.
Proof.
  intros Hok Hstep k s' Hk.
  assert (∀ s, q !! k = Some s → slot_ok q' k s) as Hold
    by (intros s Hs; eapply slot_ok_mono; eauto).
  inversion Hstep as [q0|q0 i s Hi Hc Hl|q0 i s o Hi Hc|q0 i s o Hi Hc Hn|q0 i s o Hi Hn Hl];
    subst.
  - unfold withWriteLock in Hk.
    apply lookup_snoc_Some in Hk as [[_ Hk]|[_ <-]]; [by apply Hold|].
    split_and!; simpl; [done|done|intros o; done].
  - slot_cases Hk; [|by apply Hold].
    destruct (Hold _ Hi) as (_ & Hlock & Hnext).
    split_and!; simpl.
    + intros _. eapply lock_before_mono; eauto.
    + done.
    + intros o Ho. specialize (Hnext o Ho). congruence.
  - slot_cases Hk; [|by apply Hold].
    destruct (Hold _ Hi) as (Hstart & Hlock & Hnext).
    split_and!; simpl.
    + intros _. apply Hstart. congruence.
    + done.
    + intros o' Ho. specialize (Hnext o' Ho). congruence.
  - slot_cases Hk; [|by apply Hold].
    destruct (Hold _ Hi) as (Hstart & Hlock & Hnext).
    split_and!; simpl.
    + done.
    + eauto.
    + intros o' [= <-]. done.
  - slot_cases Hk; [|by apply Hold].
    destruct (Hold _ Hi) as (Hstart & Hlock & Hnext).
    split_and!; simpl.
    + done.
    + eauto.
    + done.
Qed.

Lemma reachable_chain_ok tr q : reachable tr q → chain_ok q.
Proof.
  induction 1 as [|tr q e q' _ IH Hstep].
  - intros k s Hk. by rewrite lookup_nil in Hk.
  - by eapply chain_ok_step.
Qed.








Lemma reachable_ex_trace : reachable ex_trace ex_queue.
Proof.
  unfold ex_trace, ex_queue.
  eapply reach_step.
  2: { apply (step_start
                [{| call := Settled Rejected; next := Some Rejected; lock := true |};
                 {| call := Waiting; next := None; lock := false |}] 1
                {| call := Waiting; next := None; lock := false |}); reflexivity. }
  eapply reach_step.
  2: { apply (step_settle_lock
                [{| call := Settled Rejected; next := Some Rejected; lock := false |};
                 {| call := Waiting; next := None; lock := false |}] 0
                {| call := Settled Rejected; next := Some Rejected; lock := false |}
                Rejected); reflexivity. }
  eapply reach_step.
  2: { apply (step_settle_next
                [{| call := Settled Rejected; next := None; lock := false |};
                 {| call := Waiting; next := None; lock := false |}] 0
                {| call := Settled Rejected; next := None; lock := false |}
                Rejected); reflexivity. }
  eapply reach_step.
  2: { apply (step_finish
                [{| call := Running; next := None; lock := false |};
                 {| call := Waiting; next := None; lock := false |}] 0
                {| call := Running; next := None; lock := false |}
                Rejected); reflexivity. }
  eapply reach_step.
  2: { apply (step_start
                [{| call := Waiting; next := None; lock := false |};
                 {| call := Waiting; next := None; lock := false |}] 0
                {| call := Waiting; next := None; lock := false |}); reflexivity. }
  eapply reach_step.
  2: { apply (step_submit [{| call := Waiting; next := None; lock := false |}]). }
  eapply reach_step.
  2: { apply (step_submit []). }
  apply reach_init.
Defined.


(** ** The parser *)

Lemma js_or_empty a : js_or a "" = a.
Proof. by destruct a. Qed.

(** C9, as stated, at a concrete input: an Atom entry without a title
    element, in a feed without a title.  Both missing fields come out as
    ["Untitled"], not as the empty string. *)
Lemma parseRSS_atom_title_default :
  querySelector (Sel "title") ex_atom_entry = None ∧
  doc_querySelector (SelChild "feed" "title") ex_atom_doc = None ∧
  parseRSS (λ _, ex_atom_doc)
    "<feed><entry><updated>2024-01-02T00:00:00Z</updated></entry></feed>" =
  {| feedTitle := "Untitled";
     items := [{| Item.title := "Untitled"; Item.link := "";
                  Item.published := "2024-01-02T00:00:00Z";
                  Item.content := ""; Item.author := "" |}] |} ∧
  Item.title (atom_item ex_atom_entry) ≠ "".
Proof. split_and!; [reflexivity..|discriminate]. Qed.

(** *** The tree below an element *)

Lemma Node_ind_children (P : Node → Prop) :
  (∀ s, P (Text s)) →
  (∀ pfx l attrs cs, Forall P cs → P (Elem pfx l attrs cs)) →
  ∀ n, P n.
Proof.
  intros Ht He. fix IH 1. intros [s|pfx l attrs cs]; [apply Ht|].
  apply He. induction cs as [|c cs IHcs]; constructor; [apply IH|apply IHcs].
Qed.

Lemma elem_of_flat_map {A B} (f : A → list B) (l : list A) (y : B) :
  y ∈ flat_map f l ↔ ∃ x, x ∈ l ∧ y ∈ f x.
Proof.
  rewrite list_elem_of_In, in_flat_map. split; intros (x & Hx & Hy); exists x.
  - by rewrite !list_elem_of_In.
  - by rewrite <- !list_elem_of_In.
Qed.

(** Every pair the traversal lists is an element below the node, with the
    local name of its parent. *)
Lemma subtree_inside n : ∀ par q e,
  (q, e) ∈ subtree par n →
  (q = par ∧ e = n ∧ is_element n) ∨ (∃ p, q = Some p ∧ inside n p e).
Proof.
  induction n as [s|pfx l attrs cs IH] using Node_ind_children; intros par q e Hin.
  - simpl in Hin. by apply elem_of_nil in Hin.
  - simpl in Hin. apply elem_of_cons in Hin as [[= -> ->]|Hin]; [by left|].
    right. apply elem_of_flat_map in Hin as (c & Hc & Hin).
    rewrite Forall_forall in IH.
    destruct (IH c Hc _ _ _ Hin) as [(-> & -> & Hel)|(p & -> & Hins)].
    + exists l. split; [done|]. by apply inside_child.
    + exists p. split; [done|]. by eapply inside_deeper.
Qed.

Lemma descendants_inside n q e :
  (q, e) ∈ descendants n → ∃ p, q = Some p ∧ inside n p e.
Proof.
  destruct n as [s|pfx l attrs cs]; simpl; [by intros ?%elem_of_nil|].
  intros (c & Hc & Hin)%elem_of_flat_map.
  destruct (subtree_inside c _ _ _ Hin) as [(-> & -> & Hel)|(p & -> & Hins)].
  - exists l. split; [done|]. by apply inside_child.
  - exists p. split; [done|]. by eapply inside_deeper.
Qed.

(** ... and it lists every such element. *)
Lemma inside_descendants n p e : inside n p e → (Some p, e) ∈ descendants n.
Proof.
  induction 1 as [pfx l attrs cs e He Hel|pfx l attrs cs c p e Hc Hins IH]; simpl.
  - apply elem_of_flat_map. exists e. split; [done|].
    destruct e; [done|]. simpl. apply elem_of_cons. by left.
  - apply elem_of_flat_map. exists c. split; [done|].
    destruct c as [s|pfx' l' attrs' cs']; [inversion Hins|].
    simpl. apply elem_of_cons. right. exact IH.
Qed.

Lemma head_filter_None {A} (f : A → bool) (l : list A) :
  (∀ x, x ∈ l → f x = false) → head (List.filter f l) = None.
Proof.
  induction l as [|x l IH]; intros Hall; [done|]. simpl.
  rewrite (Hall x) by (apply elem_of_cons; by left).
  apply IH. intros y Hy. apply Hall, elem_of_cons. by right.
Qed.

Lemma head_filter_Some {A} (f : A → bool) (l : list A) x :
  x ∈ l → f x = true → ∃ y, head (List.filter f l) = Some y ∧ y ∈ l ∧ f y = true.
Proof.
  induction l as [|z l IH]; intros Hin Hx; [by apply elem_of_nil in Hin|]. simpl.
  destruct (f z) eqn:Hz.
  - exists z. split_and!; [done|apply elem_of_cons; by left|done].
  - apply elem_of_cons in Hin as [->|Hin]; [congruence|].
    destruct (IH Hin Hx) as (y & Hy & Hyl & Hfy). exists y.
    split_and!; [done|apply elem_of_cons; by right|done].
Qed.

Lemma head_fmap_None {A B} (g : A → B) (l : list A) : head l = None → head (g <$> l) = None.
Proof. by destruct l. Qed.

Lemma String_eqb_false a b : a ≠ b → String.eqb a b = false.
Proof. intros Hne. by apply String.eqb_neq. Qed.

(** No element of that name below: the query finds nothing. *)
Lemma querySelector_no_element name n :
  no_element name n → querySelector (Sel name) n = None.
Proof.
  intros Hno. unfold querySelector, select_all. apply head_fmap_None, head_filter_None.
  intros [q e] (p & -> & Hins)%descendants_inside. simpl.
  apply String_eqb_false. by eapply Hno.
Qed.

Lemma querySelector_no_child parent child n :
  (∀ e, inside n parent e → local_name e ≠ child) →
  querySelector (SelChild parent child) n = None.
Proof.
  intros Hno. unfold querySelector, select_all. apply head_fmap_None, head_filter_None.
  intros [q e] (p & -> & Hins)%descendants_inside. simpl.
  destruct (String.eqb_spec p parent) as [->|Hp]; [|by rewrite andb_false_r].
  rewrite String_eqb_false; [done|]. by apply Hno.
Qed.

Lemma querySelector_no_element_attr name attr value n :
  no_element name n → querySelector (SelAttr name attr value) n = None.
Proof.
  intros Hno. unfold querySelector, select_all. apply head_fmap_None, head_filter_None.
  intros [q e] (p & -> & Hins)%descendants_inside. simpl.
  rewrite String_eqb_false; [done|]. by eapply Hno.
Qed.

Lemma getElementsByTagName0_no_tag qname n :
  no_tag qname n → getElementsByTagName0 qname n = None.
Proof.
  intros Hno. unfold getElementsByTagName0. apply head_fmap_None, head_filter_None.
  intros [q e] (p & -> & Hins)%descendants_inside. simpl.
  apply String_eqb_false. by eapply Hno.
Qed.

(** Some element of that name below: the query finds one of them. *)
Lemma querySelector_some_element name n p e :
  inside n p e → local_name e = name →
  ∃ p' e', querySelector (Sel name) n = Some e' ∧ inside n p' e' ∧ local_name e' = name.
Proof.
  intros Hins Hname. unfold querySelector, select_all.
  destruct (head_filter_Some (matches (Sel name)) (descendants n) (Some p, e))
    as ([q e'] & Hhead & Hin & Hm).
  { by apply inside_descendants. }
  { simpl. by apply String.eqb_eq. }
  apply descendants_inside in Hin as (p' & -> & Hins').
  exists p', e'. split_and!; [|done|].
  - destruct (List.filter _ _); [done|]. simpl in *. by injection Hhead as ->.
  - simpl in Hm. by apply String.eqb_eq in Hm.
Qed.

(** *** The parser never throws *)

Lemma or_else_text o d :
  Js.or_else (Js.Normal (from_option Js.Str Js.Undefined o)) (Js.Normal (Js.Str d)) =
  Js.Normal (Js.Str (js_or_opt o d)).
Proof. destruct o as [[|c s]|]; reflexivity. Qed.

Lemma text_at_El sel n :
  Js.text_at sel (Js.El n) =
  Js.Normal (from_option Js.Str Js.Undefined (text_of (querySelector sel n))).
Proof. unfold Js.text_at. simpl. by destruct (querySelector sel n). Qed.

Lemma tag_text_El qname n :
  Js.tag_text qname (Js.El n) =
  Js.Normal (from_option Js.Str Js.Undefined (text_of (getElementsByTagName0 qname n))).
Proof. unfold Js.tag_text. simpl. by destruct (getElementsByTagName0 qname n). Qed.

Lemma or_else_text2 o1 o2 d :
  Js.or_else (Js.or_else (Js.Normal (from_option Js.Str Js.Undefined o1))
                         (Js.Normal (from_option Js.Str Js.Undefined o2)))
             (Js.Normal (Js.Str d)) =
  Js.Normal (Js.Str (js_or_opt o1 (js_or_opt o2 d))).
Proof. destruct o1 as [[|c1 s1]|], o2 as [[|c2 s2]|]; reflexivity. Qed.

Lemma or_else_href2 sel1 sel2 n d :
  Js.or_else (Js.or_else (Js.href_at sel1 (Js.El n)) (Js.href_at sel2 (Js.El n)))
             (Js.Normal (Js.Str d)) =
  Js.Normal (Js.Str (js_or_opt (href_of (querySelector sel1 n))
                       (js_or_opt (href_of (querySelector sel2 n)) d))).
Proof.
  unfold Js.href_at. simpl.
  destruct (querySelector sel1 n) as [e1|], (querySelector sel2 n) as [e2|]; simpl;
    repeat match goal with
           | |- context [getAttribute "href" ?e] =>
               destruct (getAttribute "href" e) as [[|? ?]|]; simpl
           end; reflexivity.
Qed.

Lemma atom_item_total entry :
  Js.atom_item (Js.El entry) = Js.Normal (item_val (atom_item entry)).
Proof.
  unfold Js.atom_item. rewrite or_else_href2, !text_at_El, !or_else_text2, !or_else_text.
  reflexivity.
Qed.

Lemma rss_item_total item :
  Js.rss_item (Js.El item) = Js.Normal (item_val (rss_item item)).
Proof.
  unfold Js.rss_item. rewrite !tag_text_El, !text_at_El, !or_else_text2, !or_else_text.
  reflexivity.
Qed.

Lemma mapM_total {A B} (f : A → Js.Completion B) (g : A → B) (l : list A) :
  (∀ x, f x = Js.Normal (g x)) → mapM f l = Js.Normal (g <$> l).
Proof.
  intros Hf. induction l as [|x l IH]; [done|].
  simpl. rewrite Hf. simpl. rewrite IH. reflexivity.
Qed.

Lemma parseRSS_doc_total doc :
  Js.parseRSS_doc doc = Js.Normal (feed_val (parseRSS_doc doc)).
Proof.
  unfold Js.parseRSS_doc, parseRSS_doc, Js.doc_query.
  destruct (doc_querySelector (Sel "feed") doc) as [f|] eqn:Hfeed; simpl.
  - rewrite (mapM_total _ (λ e, item_val (atom_item e))) by apply atom_item_total.
    unfold feed_val. simpl. rewrite <- list_fmap_compose.
    destruct (doc_querySelector (SelChild "feed" "title") doc) as [t|]; simpl;
      [destruct (textContent t)|]; reflexivity.
  - rewrite (mapM_total _ (λ e, item_val (rss_item e))) by apply rss_item_total.
    unfold feed_val. simpl. rewrite <- list_fmap_compose.
    destruct (doc_querySelector (Sel "channel") doc) as [ch|]; simpl; [|done].
    destruct (querySelector (Sel "title") ch) as [t|]; simpl;
      [destruct (textContent t)|]; reflexivity.
Qed.

(** C9, amended. [parseRSS] never throws: evaluated with the failures of
    JavaScript (a TypeError on reading a property of, or calling a method on,
    [null] or [undefined]) it completes normally on every input string, and
    the object it returns has the strings of the feed computed here as its
    fields; there is one item per [entry] element (Atom) or per [item]
    element (RSS).  A missing title, of an RSS item, of an Atom entry or of
    the feed itself, yields ["Untitled"]; an Atom entry with no [published]
    element but an [updated] element takes the text of [updated] as its
    published field; a missing link, published date, content or author
    yields the empty string.  "Missing" is said twice: of the query the
    parser makes, and of the tree itself (no element of that name below the
    item or entry); and where the item has title elements, all with the same
    non-empty text, that text is its title. *)
Theorem parseRSS_defaults (parseFromString : string → Document) xmlText :
  let doc := parseFromString xmlText in
  let feed := parseRSS parseFromString xmlText in
  Js.parseRSS parseFromString xmlText = Js.Normal (feed_val feed) ∧
  (is_Some (doc_querySelector (Sel "feed") doc) →
     items feed = atom_item <$> doc_querySelectorAll (Sel "entry") doc ∧
     (doc_querySelector (SelChild "feed" "title") doc = None → feedTitle feed = "Untitled")) ∧
  (doc_querySelector (Sel "feed") doc = None →
     items feed = rss_item <$> doc_querySelectorAll (Sel "item") doc ∧
     (doc_querySelector (Sel "channel") doc ≫= querySelector (Sel "title") = None →
      feedTitle feed = "Untitled")) ∧
  (∀ item,
     (querySelector (Sel "title") item = None → Item.title (rss_item item) = "Untitled") ∧
     (querySelector (Sel "link") item = None → Item.link (rss_item item) = "") ∧
     (querySelector (Sel "pubDate") item = None →
      querySelector (Sel "dc:date") item = None → Item.published (rss_item item) = "") ∧
     (getElementsByTagName0 "content:encoded" item = None →
      querySelector (Sel "description") item = None → Item.content (rss_item item) = "") ∧
     (getElementsByTagName0 "dc:creator" item = None →
      querySelector (Sel "author") item = None → Item.author (rss_item item) = "")) ∧
  (∀ entry,
     (querySelector (Sel "title") entry = None → Item.title (atom_item entry) = "Untitled") ∧
     (∀ u, querySelector (Sel "published") entry = None →
           querySelector (Sel "updated") entry = Some u →
           Item.published (atom_item entry) = textContent u) ∧
     (querySelector (Sel "published") entry = None →
      querySelector (Sel "updated") entry = None → Item.published (atom_item entry) = "") ∧
     (querySelector (SelAttr "link" "rel" "alternate") entry = None →
      querySelector (Sel "link") entry = None → Item.link (atom_item entry) = "") ∧
     (querySelector (Sel "content") entry = None →
      querySelector (Sel "summary") entry = None → Item.content (atom_item entry) = "") ∧
     (querySelector (SelChild "author" "name") entry = None →
      Item.author (atom_item entry) = "")) ∧
  (∀ item,
     (no_element "title" item → Item.title (rss_item item) = "Untitled") ∧
     (no_element "link" item → Item.link (rss_item item) = "") ∧
     (no_element "pubDate" item → no_element "dc:date" item →
      Item.published (rss_item item) = "") ∧
     (no_tag "content:encoded" item → no_element "description" item →
      Item.content (rss_item item) = "") ∧
     (no_tag "dc:creator" item → no_element "author" item →
      Item.author (rss_item item) = "") ∧
     (∀ t p e, t ≠ "" → inside item p e → local_name e = "title" →
        (∀ p' e', inside item p' e' → local_name e' = "title" → textContent e' = t) →
        Item.title (rss_item item) = t)) ∧
  (∀ entry,
     (no_element "title" entry → Item.title (atom_item entry) = "Untitled") ∧
     (∀ t p e, no_element "published" entry →
        inside entry p e → local_name e = "updated" →
        (∀ p' e', inside entry p' e' → local_name e' = "updated" → textContent e' = t) →
        Item.published (atom_item entry) = t) ∧
     (no_element "published" entry → no_element "updated" entry →
      Item.published (atom_item entry) = "") ∧
     (no_element "link" entry → Item.link (atom_item entry) = "") ∧
     (no_element "content" entry → no_element "summary" entry →
      Item.content (atom_item entry) = "") ∧
     ((∀ e, inside entry "author" e → local_name e ≠ "name") →
      Item.author (atom_item entry) = "")).
Proof.
  intros doc feed. split_and!.
  - apply parseRSS_doc_total.
  - intros Hatom. unfold feed, parseRSS, parseRSS_doc. fold doc.
    rewrite bool_decide_eq_true_2 by done. simpl. split; [done|].
    by intros ->.
  - intros Hrss. unfold feed, parseRSS, parseRSS_doc. fold doc.
    rewrite bool_decide_eq_false_2 by (rewrite Hrss; by intros [? ?]).
    simpl. split; [done|]. by intros ->.
  - intros item. unfold rss_item. simpl. split_and!.
    + by intros ->.
    + by intros ->.
    + by intros -> ->.
    + by intros -> ->.
    + by intros -> ->.
  - intros entry. unfold atom_item. simpl. split_and!.
    + by intros ->.
    + intros u -> ->. simpl. apply js_or_empty.
    + by intros -> ->.
    + by intros -> ->.
    + by intros -> ->.
    + by intros ->.
  - intros item. unfold rss_item. simpl. split_and!.
    + intros H. by rewrite (querySelector_no_element _ _ H).
    + intros H. by rewrite (querySelector_no_element _ _ H).
    + intros H1 H2.
      by rewrite (querySelector_no_element _ _ H1), (querySelector_no_element _ _ H2).
    + intros H1 H2.
      by rewrite (getElementsByTagName0_no_tag _ _ H1), (querySelector_no_element _ _ H2).
    + intros H1 H2.
      by rewrite (getElementsByTagName0_no_tag _ _ H1), (querySelector_no_element _ _ H2).
    + intros t p e Ht Hins Hname Hall.
      destruct (querySelector_some_element "title" item p e Hins Hname)
        as (p' & e' & -> & Hins' & Hname').
      simpl. rewrite (Hall p' e' Hins' Hname'). unfold js_or. by destruct t.
  - intros entry. unfold atom_item. simpl. split_and!.
    + intros H. by rewrite (querySelector_no_element _ _ H).
    + intros t p e Hno Hins Hname Hall.
      rewrite (querySelector_no_element _ _ Hno).
      destruct (querySelector_some_element "updated" entry p e Hins Hname)
        as (p' & e' & -> & Hins' & Hname').
      simpl. rewrite (Hall p' e' Hins' Hname'). apply js_or_empty.
    + intros H1 H2.
      by rewrite (querySelector_no_element _ _ H1), (querySelector_no_element _ _ H2).
    + intros H.
      by rewrite (querySelector_no_element_attr _ _ _ _ H), (querySelector_no_element _ _ H).
    + intros H1 H2.
      by rewrite (querySelector_no_element _ _ H1), (querySelector_no_element _ _ H2).
    + intros H. by rewrite (querySelector_no_child _ _ _ H).
Qed.

Lemma parseRSS_defaults_witness :
  Js.parseRSS (λ _, ex_rss_doc) "" =
    Js.Normal (feed_val {| feedTitle := "Untitled";
                           items := [{| Item.title := "Untitled"; Item.link := "https://h/1";
                                        Item.published := ""; Item.content := "";
                                        Item.author := "" |}] |}) ∧
  querySelector (Sel "title") ex_rss_item = None ∧
  Item.title (rss_item ex_rss_item) = "Untitled" ∧
  querySelector (Sel "published") ex_atom_entry = None ∧
  Item.published (atom_item ex_atom_entry) = "2024-01-02T00:00:00Z".
Proof.
  destruct (parseRSS_defaults (λ _, ex_rss_doc) "") as (Htotal & _ & _ & Hrss & Hatom & _).
  destruct (Hrss ex_rss_item) as (Htitle & _).
  destruct (Hatom ex_atom_entry) as (_ & Hupdated & _).
  split_and!.
  - exact Htotal.
  - reflexivity.
  - apply Htitle. reflexivity.
  - reflexivity.
  - apply (Hupdated (Elem "" "updated" [] [Text "2024-01-02T00:00:00Z"])); reflexivity.
Defined.

(** ** The embedding at concrete inputs *)

Example article_id_link :
  article_id "https://h/feed" (ex_item "t" "https://h/1" "") = "https://h/feed::https://h/1".
Proof. reflexivity. Qed.

Example article_id_title :
  article_id "https://h/feed" (ex_item "t" "" "") = "https://h/feed::t".
Proof. reflexivity. Qed.

Example publishedTs_defaults :
  publishedTs ex_dates "" = 0 ∧
  publishedTs ex_dates "yesterday" = 0 ∧
  publishedTs ex_dates "2020-01-01T00:00:00Z" = 1577836800000.
Proof. split_and!; reflexivity. Qed.

Example listArticles_read_db :
  listArticles None (Some "unread") read_db = [] ∧
  listArticles (Some ex_feed) None read_db =
  [{| Article.id := old_id; Article.feedUrl := ex_feed; Article.feedName := "H";
      Article.title := "first title"; Article.link := "https://h/old";
      Article.published := "2020-01-01T00:00:00Z"; Article.content := "";
      Article.author := ""; Article.is_read := true; Article.is_starred := false |}].
Proof. split; vm_compute; reflexivity. Qed.

Example parseRSS_rss_doc :
  parseRSS_doc ex_rss_doc =
  {| feedTitle := "Untitled";
     items := [{| Item.title := "Untitled"; Item.link := "https://h/1";
                  Item.published := ""; Item.content := ""; Item.author := "" |}] |}.
Proof. reflexivity. Qed.

(** The import cut short after its first statement, then retried. *)
Example import_interrupted_then_retried :
  let cut := import_interrupted ex_dates 1 (ex_clock 5) ex_world in
  let retried := importFromLocalStorageIfNeeded ex_dates (ex_clock 9) cut in
  dom (feeds (db cut)) = {[ ex_feed ]} ∧
  articles (db cut) = ∅ ∧
  migrated (db cut) = false ∧
  storage cut = ex_legacy ∧
  articles (db retried) !! old_id =
    Some (set_is_read 1 (fresh_row ex_dates 9 ex_feed "H" old_item)) ∧
  migrated (db retried) = true ∧
  rss_articles (storage retried) = None.
Proof. split_and!; vm_compute; reflexivity. Qed.

(** * Further properties *)

(** ** Subscribing *)

Lemma set_feeds_id d : set_feeds (feeds d) d = d.
Proof. by destruct d. Qed.

(** X1. [addFeed] inserts only if the url is free: on a subscribed url it
    returns the database it was given (name and time of the first
    subscription stay), on a free url it stores the row and leaves every
    other Feed row alone; it never touches articles or the marker; and a
    second [addFeed] of the same url, whatever its name and time, changes
    nothing. *)
Theorem addFeed_insert_if_absent Date_getTime url name addedAt db :
  let db' := addFeed Date_getTime url name addedAt db in
  articles db' = articles db ∧
  meta db' = meta db ∧
  (is_Some (feeds db !! url) → db' = db) ∧
  (feeds db !! url = None →
   feeds db' !! url = Some {| Feed.name := name; Feed.added_at := Date_getTime addedAt |}) ∧
  (∀ u, u ≠ url → feeds db' !! u = feeds db !! u) ∧
  (∀ name2 addedAt2, addFeed Date_getTime url name2 addedAt2 db' = db').
Proof.
  intros db'. unfold db', addFeed, insert_or_ignore. split_and!.
  - done.
  - done.
  - intros [r Hr]. rewrite Hr. apply set_feeds_id.
  - intros Hnone. rewrite Hnone. simpl. apply lookup_insert_eq.
  - intros u Hu. simpl. destruct (feeds db !! url); [done|].
    by rewrite lookup_insert_ne.
  - intros name2 addedAt2. simpl.
    destruct (feeds db !! url) as [r|] eqn:Hr.
    + rewrite Hr. by destruct db.
    + by rewrite lookup_insert_eq.
Qed.

Lemma addFeed_insert_if_absent_witness :
  feeds empty_db !! ex_feed = None ∧
  feeds (addFeed ex_dates ex_feed "H" "2020-01-01T00:00:00Z" empty_db) !! ex_feed =
    Some {| Feed.name := "H"; Feed.added_at := Some 1577836800000 |} ∧
  addFeed ex_dates ex_feed "Other" "2024-01-02T00:00:00Z"
    (addFeed ex_dates ex_feed "H" "2020-01-01T00:00:00Z" empty_db) =
  addFeed ex_dates ex_feed "H" "2020-01-01T00:00:00Z" empty_db.
Proof.
  destruct (addFeed_insert_if_absent ex_dates ex_feed "H" "2020-01-01T00:00:00Z" empty_db)
    as (_ & _ & _ & Hnew & _ & Hagain).
  assert (feeds empty_db !! ex_feed = None) as Hfree by reflexivity.
  split_and!; [exact Hfree|exact (Hnew Hfree)|apply Hagain].
Defined.

(** ** Flag mutations *)

Lemma set_is_read_same r : set_is_read (Row.is_read r) r = r.
Proof. by destruct r. Qed.

Lemma set_is_starred_same r : set_is_starred (Row.is_starred r) r = r.
Proof. by destruct r. Qed.

Lemma lookup_markRead id db k :
  articles (markRead id db) !! k =
  if decide (k = id) then set_is_read 1 <$> articles db !! k else articles db !! k.
Proof.
  unfold markRead. simpl. rewrite lookup_alter.
  destruct (decide (id = k)), (decide (k = id)); congruence.
Qed.

Lemma lookup_toggleRead id db k :
  articles (toggleRead id db) !! k =
  if decide (k = id)
  then (λ r, set_is_read (toggle (Row.is_read r)) r) <$> articles db !! k
  else articles db !! k.
Proof.
  unfold toggleRead. simpl. rewrite lookup_alter.
  destruct (decide (id = k)), (decide (k = id)); congruence.
Qed.

Lemma lookup_toggleStar id db k :
  articles (toggleStar id db) !! k =
  if decide (k = id)
  then (λ r, set_is_starred (toggle (Row.is_starred r)) r) <$> articles db !! k
  else articles db !! k.
Proof.
  unfold toggleStar. simpl. rewrite lookup_alter.
  destruct (decide (id = k)), (decide (k = id)); congruence.
Qed.

Lemma lookup_markAllRead ids db k :
  articles (markAllRead ids db) !! k =
  if decide (k ∈ ids) then set_is_read 1 <$> articles db !! k else articles db !! k.
Proof.
  destruct ids as [|i ids].
  - simpl. destruct (decide (k ∈ [])) as [Hin|]; [|done]. by apply elem_of_nil in Hin.
  - unfold markAllRead. simpl. rewrite map_lookup_imap.
    destruct (articles db !! k) as [r|]; simpl; by destruct (decide (k ∈ i :: ids)).
Qed.

(** X2. The four flag mutations neither add nor remove an article and leave
    feeds and marker alone.  [markRead], [toggleRead] and [markAllRead]
    change at most the read flag of a row, [toggleStar] at most its starred
    flag; every flag they write is 0 or 1. *)
Theorem flag_mutations_frame id ids db :
  (∀ db', db' ∈ [markRead id db; toggleRead id db; toggleStar id db; markAllRead ids db] →
     feeds db' = feeds db ∧ meta db' = meta db ∧
     ∀ k, is_Some (articles db' !! k) ↔ is_Some (articles db !! k)) ∧
  (∀ db' k r r',
     db' ∈ [markRead id db; toggleRead id db; markAllRead ids db] →
     articles db !! k = Some r → articles db' !! k = Some r' →
     r' = set_is_read (Row.is_read r') r ∧
     (Row.is_read r' = Row.is_read r ∨ flag (Row.is_read r'))) ∧
  (∀ k r r',
     articles db !! k = Some r → articles (toggleStar id db) !! k = Some r' →
     r' = set_is_starred (Row.is_starred r') r ∧
     (Row.is_starred r' = Row.is_starred r ∨ flag (Row.is_starred r'))).
Proof.
  split_and!.
  - intros db' Hin. rewrite !elem_of_cons in Hin.
    destruct Hin as [->|[->|[->|[->|Hin]]]]; [| | | |by apply elem_of_nil in Hin].
    + split_and!; [done..|]. intros k. rewrite lookup_markRead.
      case_decide; [|done]. by rewrite fmap_is_Some.
    + split_and!; [done..|]. intros k. rewrite lookup_toggleRead.
      case_decide; [|done]. by rewrite fmap_is_Some.
    + split_and!; [done..|]. intros k. rewrite lookup_toggleStar.
      case_decide; [|done]. by rewrite fmap_is_Some.
    + split_and!; [by destruct ids..|]. intros k. rewrite lookup_markAllRead.
      case_decide; [|done]. by rewrite fmap_is_Some.
  - intros db' k r r' Hin Hr. rewrite !elem_of_cons in Hin.
    destruct Hin as [->|[->|[->|Hin]]]; [| | |by apply elem_of_nil in Hin].
    + rewrite lookup_markRead, Hr. case_decide; simpl; intros [= <-]; simpl.
      * split; [done|]. right. by right.
      * split; [by rewrite set_is_read_same|by left].
    + rewrite lookup_toggleRead, Hr. case_decide; simpl; intros [= <-]; simpl.
      * split; [done|]. right. apply flag_toggle.
      * split; [by rewrite set_is_read_same|by left].
    + rewrite lookup_markAllRead, Hr. case_decide; simpl; intros [= <-]; simpl.
      * split; [done|]. right. by right.
      * split; [by rewrite set_is_read_same|by left].
  - intros k r r' Hr. rewrite lookup_toggleStar, Hr.
    case_decide; simpl; intros [= <-]; simpl.
    + split; [done|]. right. apply flag_toggle.
    + split; [by rewrite set_is_starred_same|by left].
Qed.

Lemma Db_eq d1 d2 :
  feeds d1 = feeds d2 → articles d1 = articles d2 → meta d1 = meta d2 → d1 = d2.
Proof. destruct d1, d2. simpl. by intros -> -> ->. Qed.

Lemma toggle_toggle c : flag c → toggle (toggle c) = c.
Proof. intros [-> | ->]; reflexivity. Qed.

Lemma toggle_thrice c : toggle (toggle (toggle c)) = toggle c.
Proof. apply toggle_toggle, flag_toggle. Qed.

(** X3. Toggling twice restores the database when the flag of the row is 0
    or 1 (in particular when the id is unknown), for the read flag and for
    the starred flag; toggling three times is always toggling once. *)
Theorem toggle_twice id db :
  (∀ r, articles db !! id = Some r → flag (Row.is_read r)) →
  (∀ r, articles db !! id = Some r → flag (Row.is_starred r)) →
  toggleRead id (toggleRead id db) = db ∧
  toggleStar id (toggleStar id db) = db ∧
  toggleRead id (toggleRead id (toggleRead id db)) = toggleRead id db ∧
  toggleStar id (toggleStar id (toggleStar id db)) = toggleStar id db.
Proof.
  intros Hread Hstar.
  assert (∀ d, (∀ r, articles d !! id = Some r → flag (Row.is_read r)) →
               toggleRead id (toggleRead id d) = d) as Hr.
  { intros d Hd. apply Db_eq; [done| |done]. apply map_eq. intros k.
    rewrite !lookup_toggleRead. case_decide; [subst k|done].
    destruct (articles d !! id) as [r|] eqn:Hl; [|done]. simpl. f_equal.
    rewrite toggle_toggle by eauto. by destruct r. }
  assert (∀ d, (∀ r, articles d !! id = Some r → flag (Row.is_starred r)) →
               toggleStar id (toggleStar id d) = d) as Hs.
  { intros d Hd. apply Db_eq; [done| |done]. apply map_eq. intros k.
    rewrite !lookup_toggleStar. case_decide; [subst k|done].
    destruct (articles d !! id) as [r|] eqn:Hl; [|done]. simpl. f_equal.
    rewrite toggle_toggle by eauto. by destruct r. }
  split_and!.
  - by apply Hr.
  - by apply Hs.
  - apply Hr. intros r. rewrite lookup_toggleRead, decide_True by done.
    destruct (articles db !! id); [|done]. intros [= <-]. apply flag_toggle.
  - apply Hs. intros r. rewrite lookup_toggleStar, decide_True by done.
    destruct (articles db !! id); [|done]. intros [= <-]. apply flag_toggle.
Qed.

Lemma toggle_twice_witness :
  (∀ r, articles read_db !! old_id = Some r → flag (Row.is_read r)) ∧
  (∀ r, articles read_db !! old_id = Some r → flag (Row.is_starred r)) ∧
  toggleStar old_id (toggleStar old_id read_db) = read_db.
Proof.
  assert (flags_ok read_db) as Hok
    by apply flags_ok_markRead, flags_ok_upsertArticles, flags_ok_empty.
  assert (∀ r, articles read_db !! old_id = Some r → flag (Row.is_read r)) as Hread
    by (intros r Hr; apply (Hok _ _ Hr)).
  assert (∀ r, articles read_db !! old_id = Some r → flag (Row.is_starred r)) as Hstar
    by (intros r Hr; apply (Hok _ _ Hr)).
  split_and!; [exact Hread|exact Hstar|].
  apply (toggle_twice old_id read_db Hread Hstar).
Defined.

(** X4. [markAllRead] is [markRead] applied to every id of the list, in any
    order the list gives; on a row that is already read, and on an id that is
    not stored, [markRead] changes nothing. *)
Theorem markAllRead_is_markRead_each ids db :
  markAllRead ids db = foldr markRead db ids ∧
  (∀ id, markRead id (markRead id db) = markRead id db) ∧
  (∀ id, articles db !! id = None → markRead id db = db) ∧
  (∀ id r, articles db !! id = Some r → Row.is_read r = 1 → markRead id db = db).
Proof.
  assert (∀ k, articles (foldr markRead db ids) !! k =
               if decide (k ∈ ids) then set_is_read 1 <$> articles db !! k
               else articles db !! k) as Hfold.
  { intros k. induction ids as [|i ids IH]; cbn [foldr].
    - destruct (decide (k ∈ [])) as [Hin|]; [|done]. by apply elem_of_nil in Hin.
    - rewrite lookup_markRead, IH.
      destruct (decide (k = i)) as [->|Hne].
      + rewrite (decide_True (P := i ∈ i :: ids)) by left.
        destruct (decide (i ∈ ids)); [|done].
        by destruct (articles db !! i).
      + destruct (decide (k ∈ ids)) as [Hin|Hnin].
        * by rewrite (decide_True (P := k ∈ i :: ids)) by by right.
        * rewrite (decide_False (P := k ∈ i :: ids)); [done|].
          rewrite elem_of_cons. tauto. }
  assert (feeds (foldr markRead db ids) = feeds db ∧
          meta (foldr markRead db ids) = meta db) as [Hf Hm].
  { clear Hfold. induction ids as [|i ids IH]; [done|]. exact IH. }
  split_and!.
  - apply Db_eq.
    + rewrite Hf. by destruct ids.
    + apply map_eq. intros k. by rewrite lookup_markAllRead, Hfold.
    + rewrite Hm. by destruct ids.
  - intros id. apply Db_eq; [done| |done]. apply map_eq. intros k.
    rewrite !lookup_markRead. case_decide; [|done].
    by destruct (articles db !! k).
  - intros id Hnone. apply Db_eq; [done| |done]. apply map_eq. intros k.
    rewrite lookup_markRead. case_decide; [subst k|done]. by rewrite Hnone.
  - intros id r Hr Hread. apply Db_eq; [done| |done]. apply map_eq. intros k.
    rewrite lookup_markRead. case_decide; [subst k|done]. rewrite Hr. simpl.
    f_equal. rewrite <- Hread. apply set_is_read_same.
Qed.

Lemma conditions_unread feedUrl :
  conditions feedUrl (Some "unread") = conditions feedUrl None ++ [IsReadEq0].
Proof. unfold conditions. simpl. by rewrite app_nil_r. Qed.

(** X5. After [markAllRead(ids)] no article with an id of the list is unread;
    marking the ids of the unread articles of a view, [listArticles] with the
    unread filter for that view returns nothing; no article leaves the
    unfiltered list. *)
Theorem markAllRead_clears_unread feedUrl ids db :
  (∀ a, a ∈ listArticles feedUrl (Some "unread") (markAllRead ids db) → Article.id a ∉ ids) ∧
  listArticles feedUrl (Some "unread")
    (markAllRead (Article.id <$> listArticles feedUrl (Some "unread") db) db) = [] ∧
  (∀ id, id ∈ Article.id <$> listArticles None None (markAllRead ids db) ↔
         id ∈ Article.id <$> listArticles None None db).
Proof.
  assert (∀ ids' a, a ∈ listArticles feedUrl (Some "unread") (markAllRead ids' db) →
            (Article.id a ∉ ids') ∧ a ∈ listArticles feedUrl (Some "unread") db) as Hleft.
  { intros ids' a (id & r' & -> & Hl & Hc)%elem_of_listArticles. simpl.
    rewrite lookup_markAllRead in Hl.
    rewrite conditions_unread, Forall_app, Forall_singleton in Hc.
    destruct Hc as [Hfeed Hunread]. simpl in Hunread.
    destruct (decide (id ∈ ids')) as [Hin|Hnin].
    - destruct (articles db !! id); [|done]. injection Hl as <-. done.
    - split; [done|]. apply elem_of_listArticles. exists id, r'.
      rewrite conditions_unread, Forall_app, Forall_singleton. done. }
  split_and!.
  - intros a Ha. by apply Hleft.
  - destruct (listArticles feedUrl (Some "unread") (markAllRead _ db)) as [|a l] eqn:Hl;
      [done|].
    destruct (Hleft (Article.id <$> listArticles feedUrl (Some "unread") db) a)
      as [Hnot Hin]; [rewrite Hl; by left|].
    exfalso. apply Hnot. by apply list_elem_of_fmap_2.
  - intros id. rewrite !list_elem_of_fmap.
    split; intros (a & -> & (k & r & -> & Hl & _)%elem_of_listArticles); simpl.
    + rewrite lookup_markAllRead in Hl.
      destruct (articles db !! k) as [r0|] eqn:Hr0; [|by case_decide].
      exists (rowToArticle (k, r0)). split; [done|].
      apply elem_of_listArticles. exists k, r0. split_and!; [done|done|constructor].
    + destruct (articles (markAllRead ids db) !! k) as [r1|] eqn:Hr1.
      * exists (rowToArticle (k, r1)). split; [done|].
        apply elem_of_listArticles. exists k, r1. split_and!; [done|done|constructor].
      * rewrite lookup_markAllRead, Hl in Hr1. by case_decide.
Qed.

(** ** What one [upsertArticles] call may change *)

Section upsert_frame.
Variable Date_getTime : string → option Z.
Variables (now : Z) (feedUrl feedName : string).

Abbreviation loop' := (upsert_loop Date_getTime now feedUrl feedName).
Abbreviation written' := (written Date_getTime now feedUrl feedName).

(** A row the loop stores under an id that was free comes from an entry of
    the list and has the flags of the INSERT. *)
Lemma loop_new_row items t id r' :
  t !! id = None → loop' items t !! id = Some r' →
  ∃ e, e ∈ items ∧ article_id feedUrl e = id ∧
       Row.feed_url r' = feedUrl ∧ Row.is_read r' = default_is_read ∧
       Row.is_starred r' = default_is_starred ∧ Row.fetched_at r' = now.
Proof.
  intros Hfree. revert r'.
  induction items as [|e items IH] using rev_ind; intros r'.
  - simpl. congruence.
  - rewrite loop_snoc.
    destruct (decide (article_id feedUrl e = id)) as [Heq|Hne].
    + rewrite <- Heq at 1. rewrite lookup_upsert_item_eq. intros [= <-].
      exists e. split; [apply elem_of_app; right; by apply list_elem_of_singleton|].
      split; [done|]. rewrite Heq.
      destruct (loop' items t !! id) as [r1|] eqn:Hr1; simpl; [|done].
      destruct (IH _ eq_refl) as (_ & _ & _ & ? & ? & ? & _). done.
    + rewrite lookup_upsert_item_ne by done. intros Hr'.
      destruct (IH _ Hr') as (e' & Hin & ?). exists e'.
      split; [apply elem_of_app; by left|done].
Qed.

(** The last entry with a given id decides the data columns of its row. *)
Lemma written_data e before :
  let r := written' e before in
  Row.feed_name r = feedName ∧ Row.title r = Item.title e ∧
  Row.link r = Item.link e ∧ Row.published r = Item.published e ∧
  Row.published_ts r = publishedTs Date_getTime (Item.published e) ∧
  Row.content r = Item.content e ∧ Row.author r = Item.author e ∧
  Row.fetched_at r = now.
Proof. destruct before; simpl; done. Qed.

End upsert_frame.

(** X6. What [upsertArticles(feedUrl, feedName, items)] may change.  It never
    touches the Feed rows or the marker.  A row that is in the store before
    and after keeps [feed_url], [is_read] and [is_starred], and is the same
    row when no entry of the list has its id.  A row that disappears was a
    non-starred row of [feedUrl].  A row that appears under a free id comes
    from an entry of the list, belongs to [feedUrl], is unread and not
    starred and carries the time of the call.  When two entries have the same
    id the later one decides the data columns.  With an empty list the call
    is only the pruning statement: nothing changes when [feedUrl] has at most
    500 non-starred rows. *)
Theorem upsertArticles_frame Date_getTime now feedUrl feedName items db :
  let db' := upsertArticles Date_getTime now feedUrl feedName items db in
  feeds db' = feeds db ∧ meta db' = meta db ∧
  (∀ id r r', articles db !! id = Some r → articles db' !! id = Some r' →
      Row.feed_url r' = Row.feed_url r ∧ Row.is_read r' = Row.is_read r ∧
      Row.is_starred r' = Row.is_starred r ∧
      (Forall (λ e, article_id feedUrl e ≠ id) items → r' = r)) ∧
  (∀ id r, articles db !! id = Some r → articles db' !! id = None →
      Row.is_starred r = 0 ∧ Row.feed_url r = feedUrl) ∧
  (∀ id r', articles db !! id = None → articles db' !! id = Some r' →
      ∃ e, e ∈ items ∧ article_id feedUrl e = id ∧
           Row.feed_url r' = feedUrl ∧ Row.is_read r' = 0 ∧
           Row.is_starred r' = 0 ∧ Row.fetched_at r' = now) ∧
  (∀ items1 e items2 r',
      items = items1 ++ e :: items2 →
      Forall (λ e', article_id feedUrl e' ≠ article_id feedUrl e) items2 →
      articles db' !! article_id feedUrl e = Some r' →
      Row.feed_name r' = feedName ∧ Row.title r' = Item.title e ∧
      Row.link r' = Item.link e ∧ Row.published r' = Item.published e ∧
      Row.content r' = Item.content e ∧ Row.author r' = Item.author e ∧
      Row.fetched_at r' = now) ∧
  (items = [] →
   (length (filter (prunable feedUrl) (map_to_list (articles db))) ≤ 500)%nat →
   db' = db).
Proof.
  intros db'. subst db'. rewrite articles_upsertArticles.
  split_and!; [done|done|..].
  - intros id r r' Hdb [Hl _]%lookup_prune_Some.
    destruct (loop_keeps Date_getTime now feedUrl feedName items _ _ _ Hdb)
      as (r1 & Hr1 & Hu & Hr & Hs).
    assert (r1 = r') as -> by congruence.
    split_and!; [done|done|done|].
    intros Hother. rewrite lookup_loop_other in Hl by done. congruence.
  - intros id r Hdb Hnone.
    destruct (loop_keeps Date_getTime now feedUrl feedName items _ _ _ Hdb)
      as (r1 & Hr1 & Hu & _ & Hs).
    destruct (lookup_prune_None_inv _ _ _ _ Hr1 Hnone) as [[Hz Hf] _].
    simpl in Hz, Hf. split; congruence.
  - intros id r' Hfree [Hl _]%lookup_prune_Some.
    exact (loop_new_row _ _ _ _ _ _ _ _ Hfree Hl).
  - intros items1 e items2 r' -> Hlast [Hl _]%lookup_prune_Some.
    rewrite lookup_loop_last in Hl by done. injection Hl as <-.
    pose proof (written_data Date_getTime now feedUrl feedName e
                  (articles db !! article_id feedUrl e)) as Hw.
    simpl in Hw. tauto.
  - intros -> Hcap. apply Db_eq; [done| |done].
    rewrite articles_upsertArticles. simpl. by apply prune_within_cap.
Qed.

(** ** Refreshing all feeds *)

(** The rows one call keeps for certain: the starred ones and those of
    other feeds. *)
Lemma upsertArticles_keeps Date_getTime now f n items db id r :
  articles db !! id = Some r →
  Row.is_starred r ≠ 0 ∨ Row.feed_url r ≠ f →
  ∃ r', articles (upsertArticles Date_getTime now f n items db) !! id = Some r' ∧
        Row.feed_url r' = Row.feed_url r ∧ Row.is_read r' = Row.is_read r ∧
        Row.is_starred r' = Row.is_starred r.
Proof.
  intros Hdb Hsafe. rewrite articles_upsertArticles.
  destruct (loop_keeps Date_getTime now f n items _ _ _ Hdb)
    as (r1 & Hr1 & Hu & Hr & Hs).
  exists r1. split; [|done].
  apply lookup_prune_not_prunable; [done|].
  intros [Hz Hf]. simpl in Hz, Hf. destruct Hsafe; congruence.
Qed.

Lemma refreshAllFeeds_snoc D parse settled x d :
  refreshAllFeeds D parse (settled ++ [x]) d =
  refresh_one D parse (refreshAllFeeds D parse settled d) x.
Proof. unfold refreshAllFeeds. by rewrite foldl_app. Qed.

(** X7. [refreshAllFeeds]: whatever the feeds answer, the refresh leaves the
    Feed rows and the marker alone; a starred article is still in the store
    afterwards, starred, with its read flag and its feed; so is every article
    of a feed whose fetch did not succeed (a failed request, a status that is
    not ok), with its flags; the flags stay 0 or 1; and when every fetch
    fails the store is unchanged. *)
Theorem refreshAllFeeds_safe Date_getTime parseFromString settled db :
  let db' := refreshAllFeeds Date_getTime parseFromString settled db in
  feeds db' = feeds db ∧ meta db' = meta db ∧
  (∀ id r, articles db !! id = Some r → Row.is_starred r ≠ 0 →
      ∃ r', articles db' !! id = Some r' ∧ Row.feed_url r' = Row.feed_url r ∧
            Row.is_read r' = Row.is_read r ∧ Row.is_starred r' = Row.is_starred r) ∧
  (∀ id r, articles db !! id = Some r →
      (∀ x, x ∈ settled → FeedView.url (feed x) = Row.feed_url r →
            fetchFeed parseFromString (response x) = None) →
      ∃ r', articles db' !! id = Some r' ∧ Row.feed_url r' = Row.feed_url r ∧
            Row.is_read r' = Row.is_read r ∧ Row.is_starred r' = Row.is_starred r) ∧
  (flags_ok db → flags_ok db') ∧
  ((∀ x, x ∈ settled → fetchFeed parseFromString (response x) = None) → db' = db).
Proof.
  intros db'. subst db'.
  induction settled as [|x settled IH] using rev_ind.
  { split_and!; try done; intros id r Hdb _; exists r; done. }
  destruct IH as (IHf & IHm & IHstar & IHfail & IHok & IHall).
  rewrite refreshAllFeeds_snoc.
  set (d1 := refreshAllFeeds Date_getTime parseFromString settled db) in *.
  unfold refresh_one.
  destruct (fetchFeed parseFromString (response x)) as [result|] eqn:Hfetch.
  - split_and!; [done|done|..].
    + intros id r Hdb Hs. destruct (IHstar id r Hdb Hs) as (r1 & Hr1 & Hu & Hr & Hs1).
      edestruct (upsertArticles_keeps Date_getTime (upsert_now x) (FeedView.url (feed x))
                   (js_or (FeedView.name (feed x)) (feedTitle result)) (items result)
                   d1 id r1 Hr1) as (r2 & Hr2 & ? & ? & ?).
      { left. congruence. }
      exists r2. split; [done|]. split_and!; congruence.
    + intros id r Hdb Hfail.
      destruct (IHfail id r Hdb) as (r1 & Hr1 & Hu & Hr & Hs1).
      { intros y Hy. apply Hfail, elem_of_app. by left. }
      edestruct (upsertArticles_keeps Date_getTime (upsert_now x) (FeedView.url (feed x))
                   (js_or (FeedView.name (feed x)) (feedTitle result)) (items result)
                   d1 id r1 Hr1) as (r2 & Hr2 & ? & ? & ?).
      { right. intros Heq.
        assert (fetchFeed parseFromString (response x) = None) as Hnone.
        { apply Hfail; [apply elem_of_app; right; by apply list_elem_of_singleton|].
          congruence. }
        congruence. }
      exists r2. split; [done|]. split_and!; congruence.
    + intros Hok. by apply flags_ok_upsertArticles, IHok.
    + intros Hall. rewrite Hall in Hfetch; [done|].
      apply elem_of_app; right; by apply list_elem_of_singleton.
  - split_and!; [done|done|done| |done|].
    + intros id r Hdb Hfail. apply IHfail; [done|].
      intros y Hy. apply Hfail, elem_of_app. by left.
    + intros Hall. apply IHall. intros y Hy. apply Hall, elem_of_app. by left.
Qed.

(** ** The component's list against the store *)

Lemma NoDup_listArticles feedUrl filter db : NoDup (listArticles feedUrl filter db).
Proof. eapply NoDup_fmap_1, NoDup_ids_listArticles. Qed.

Lemma elem_of_getFilteredArticles sel vf l a :
  a ∈ getFilteredArticles sel vf l ↔ a ∈ l ∧ passes sel vf a.
Proof.
  unfold getFilteredArticles, passes.
  set (f := match sel with
            | Some u => if truthy u then filter (λ a, Article.feedUrl a = u) l else l
            | None => l
            end).
  assert (a ∈ f ↔ a ∈ l ∧ match sel with
                          | Some u => if truthy u then Article.feedUrl a = u else True
                          | None => True
                          end) as Hf.
  { subst f. destruct sel as [u|]; [destruct (truthy u)|];
      rewrite ?list_elem_of_filter; tauto. }
  destruct (decide (vf = "unread")) as [->|Hu]; simpl.
  - rewrite list_elem_of_filter, Hf. split; [|tauto].
    intros (? & ? & ?). split_and!; [done|done|done|discriminate].
  - destruct (decide (vf = "starred")) as [->|Hs].
    + rewrite list_elem_of_filter, Hf. split; [|tauto].
      intros (? & ? & ?). split_and!; [done|done|discriminate|done].
    + rewrite Hf. tauto.
Qed.

Lemma getFilteredArticles_sublist sel vf l : sublist (getFilteredArticles sel vf l) l.
Proof.
  unfold getFilteredArticles.
  assert (sublist (match sel with
                   | Some u => if truthy u then filter (λ a, Article.feedUrl a = u) l else l
                   | None => l
                   end) l) as Hf.
  { destruct sel as [u|]; [destruct (truthy u)|]; try done; apply sublist_filter. }
  destruct (decide (vf = "unread")), (decide (vf = "starred")); simpl;
    repeat (etrans; [apply sublist_filter|]); done.
Qed.

(** The WHERE clause of [listArticles] and the test of the component agree
    on a row whose starred column is 0 or 1. *)
Lemma conditions_passes sel vf id r :
  flag (Row.is_starred r) →
  Forall (λ c, holds c r) (conditions sel (Some vf)) ↔ passes sel vf (rowToArticle (id, r)).
Proof.
  intros Hflag. unfold conditions, passes. rewrite Forall_app. simpl.
  f_equiv.
  - destruct sel as [u|]; [destruct (truthy u)|];
      rewrite ?Forall_singleton, ?Forall_nil; simpl; tauto.
  - destruct (decide (vf = "unread")) as [->|Hu].
    + rewrite Forall_singleton. simpl. rewrite js_bool_false.
      split; [|tauto]. intros ?. split; [done|discriminate].
    + destruct (decide (vf = "starred")) as [->|Hs].
      * rewrite Forall_singleton. simpl. rewrite js_bool_true.
        unfold flag in Hflag. split.
        -- intros ->. split; [discriminate|done].
        -- intros [_ Hs]. specialize (Hs eq_refl). lia.
      * rewrite Forall_nil. tauto.
Qed.

(** X8. The filters of the component and of the store agree.  When the
    component's [articles] are the stored articles (in any order) and the
    flag columns hold 0 or 1, [getFilteredArticles()] under a selected feed
    and a view filter has exactly the articles
    [listArticles({ feedUrl, filter })] would return, each once, and is a
    sub-list of [articles] (it keeps their order); and [unreadCount(feedUrl)]
    is the number of articles the store lists as unread for that feed. *)
Theorem getFilteredArticles_agrees prev selectedFeed viewFilter db :
  flags_ok db →
  prev ≡ₚ listArticles None None db →
  getFilteredArticles selectedFeed viewFilter prev ≡ₚ
    listArticles selectedFeed (Some viewFilter) db ∧
  sublist (getFilteredArticles selectedFeed viewFilter prev) prev ∧
  unreadCount selectedFeed prev =
    List.length (listArticles selectedFeed (Some "unread") db).
Proof.
  intros Hflags Hprev.
  assert (∀ sel vf, getFilteredArticles sel vf prev ≡ₚ listArticles sel (Some vf) db) as Hperm.
  { intros sel vf. apply NoDup_Permutation.
    - eapply sublist_NoDup; [|apply getFilteredArticles_sublist].
      rewrite Hprev. apply NoDup_listArticles.
    - apply NoDup_listArticles.
    - intros a. rewrite elem_of_getFilteredArticles, Hprev, !elem_of_listArticles.
      split.
      + intros [(id & r & -> & Hdb & _) Hpass]. exists id, r. split_and!; [done|done|].
        apply (conditions_passes _ _ id); [|done]. by destruct (Hflags _ _ Hdb).
      + intros (id & r & -> & Hdb & Hc). split.
        * exists id, r. split_and!; [done|done|]. simpl. apply Forall_nil_2.
        * apply conditions_passes; [|done]. by destruct (Hflags _ _ Hdb). }
  split_and!.
  - apply Hperm.
  - apply getFilteredArticles_sublist.
  - rewrite <- (Hperm selectedFeed "unread"). reflexivity.
Qed.

Lemma getFilteredArticles_agrees_witness :
  flags_ok read_db ∧
  getFilteredArticles (Some ex_feed) "unread" (listArticles None None read_db) ≡ₚ
    listArticles (Some ex_feed) (Some "unread") read_db ∧
  unreadCount (Some ex_feed) (listArticles None None read_db) =
    List.length (listArticles (Some ex_feed) (Some "unread") read_db).
Proof.
  assert (flags_ok read_db) as Hok
    by apply flags_ok_markRead, flags_ok_upsertArticles, flags_ok_empty.
  destruct (getFilteredArticles_agrees (listArticles None None read_db)
              (Some ex_feed) "unread" read_db Hok (reflexivity _)) as (Hp & _ & Hc).
  split_and!; [exact Hok|exact Hp|exact Hc].
Defined.

(** ** The optimistic updates of the component *)

(** A [prev.map] that leaves the ids alone, against a store update that
    rewrites rows in place. *)
Lemma sync_update (g : Article.t → Article.t) (F : string → Row.t → Row.t)
    (t t' : gmap string Row.t) (prev : list Article.t) :
  prev ≡ₚ rowToArticle <$> map_to_list t →
  (∀ id, t' !! id = F id <$> t !! id) →
  (∀ id r, t !! id = Some r → g (rowToArticle (id, r)) = rowToArticle (id, F id r)) →
  g <$> prev ≡ₚ rowToArticle <$> map_to_list t'.
Proof.
  intros Hprev Ht' Hg.
  assert (∀ t0 : gmap string Row.t, NoDup (rowToArticle <$> map_to_list t0)) as Hnodup.
  { intros t0. eapply NoDup_fmap_1. rewrite ids_rowToArticle.
    apply NoDup_fst_map_to_list. }
  apply NoDup_Permutation.
  - rewrite Hprev. eapply NoDup_fmap_1 with (f := Article.id).
    rewrite <- !list_fmap_compose.
    assert (Forall (λ kr, (Article.id ∘ g ∘ rowToArticle) kr = kr.1) (map_to_list t)) as Hids.
    { apply Forall_forall. intros [id r] Hin%elem_of_map_to_list. simpl.
      by rewrite (Hg id r Hin). }
    rewrite (Forall_fmap_ext_1 _ fst _ Hids). apply NoDup_fst_map_to_list.
  - apply Hnodup.
  - intros a. rewrite Hprev, <- list_fmap_compose, !list_elem_of_fmap. split.
    + intros ([id r] & -> & Hin%elem_of_map_to_list). simpl.
      exists (id, F id r). split; [by apply Hg|].
      apply elem_of_map_to_list. by rewrite Ht', Hin.
    + intros ([id r'] & -> & Hin%elem_of_map_to_list).
      rewrite Ht' in Hin. destruct (t !! id) as [r|] eqn:Hr; [|done].
      injection Hin as <-. exists (id, r). split; [symmetry; by apply Hg|].
      by apply elem_of_map_to_list.
Qed.

Lemma listArticles_all db : listArticles None None db ≡ₚ rowToArticle <$> map_to_list (articles db).
Proof. unfold listArticles. by rewrite listArticles_all_perm. Qed.

Lemma js_bool_toggle c : flag c → js_bool (toggle c) = negb (js_bool c).
Proof. intros [-> | ->]; reflexivity. Qed.

(** X9. The optimistic updates of the component agree with the store.  When
    the component's [articles] are the stored articles, then after
    [handleMarkRead], [handleMarkAllRead], [handleToggleRead] and
    [handleToggleStar] the updated list has exactly the articles
    [listArticles()] returns from the updated store, so the reload the
    handlers skip would change nothing but, possibly, the order of articles
    that tie on both sort columns; the toggles need the flag columns to hold
    0 or 1.  Every update keeps the ids and their order. *)
Theorem optimistic_updates_agree prev db :
  prev ≡ₚ listArticles None None db →
  (∀ id, handleMarkRead id prev ≡ₚ listArticles None None (markRead id db)) ∧
  (∀ ids, handleMarkAllRead ids prev ≡ₚ listArticles None None (markAllRead ids db)) ∧
  (flags_ok db →
   ∀ id, handleToggleRead id prev ≡ₚ listArticles None None (toggleRead id db) ∧
         handleToggleStar id prev ≡ₚ listArticles None None (toggleStar id db)) ∧
  (∀ id ids,
     Article.id <$> handleMarkRead id prev = Article.id <$> prev ∧
     Article.id <$> handleMarkAllRead ids prev = Article.id <$> prev ∧
     Article.id <$> handleToggleRead id prev = Article.id <$> prev ∧
     Article.id <$> handleToggleStar id prev = Article.id <$> prev).
Proof.
  intros Hprev. rewrite listArticles_all in Hprev. split_and!.
  - intros id. rewrite listArticles_all. unfold handleMarkRead.
    apply (sync_update _ (λ k r, if decide (k = id) then set_is_read 1 r else r)
             (articles db)); [done|..].
    + intros k. rewrite lookup_markRead.
      destruct (decide (k = id)); [done|]. by destruct (articles db !! k).
    + intros k r _. simpl. by destruct (decide (k = id)).
  - intros ids. rewrite listArticles_all. unfold handleMarkAllRead.
    apply (sync_update _ (λ k r, if decide (k ∈ ids) then set_is_read 1 r else r)
             (articles db)); [done|..].
    + intros k. rewrite lookup_markAllRead.
      destruct (decide (k ∈ ids)); [done|]. by destruct (articles db !! k).
    + intros k r _. simpl. by destruct (decide (k ∈ ids)).
  - intros Hflags id. split.
    + rewrite listArticles_all. unfold handleToggleRead.
      apply (sync_update _ (λ k r, if decide (k = id)
                                   then set_is_read (toggle (Row.is_read r)) r else r)
               (articles db)); [done|..].
      * intros k. rewrite lookup_toggleRead.
        destruct (decide (k = id)); [done|]. by destruct (articles db !! k).
      * intros k r Hr. simpl. destruct (decide (k = id)); [|done].
        unfold rowToArticle, with_is_read. simpl.
        rewrite js_bool_toggle; [done|]. by destruct (Hflags _ _ Hr).
    + rewrite listArticles_all. unfold handleToggleStar.
      apply (sync_update _ (λ k r, if decide (k = id)
                                   then set_is_starred (toggle (Row.is_starred r)) r else r)
               (articles db)); [done|..].
      * intros k. rewrite lookup_toggleStar.
        destruct (decide (k = id)); [done|]. by destruct (articles db !! k).
      * intros k r Hr. simpl. destruct (decide (k = id)); [|done].
        unfold rowToArticle, with_is_starred. simpl.
        rewrite js_bool_toggle; [done|]. by destruct (Hflags _ _ Hr).
  - intros id ids.
    unfold handleMarkRead, handleMarkAllRead, handleToggleRead, handleToggleStar.
    rewrite <- !list_fmap_compose.
    split_and!; apply list_fmap_ext; intros ? a _; simpl; by case_decide.
Qed.

Lemma optimistic_updates_agree_witness :
  flags_ok read_db ∧
  handleMarkRead old_id (listArticles None None read_db) ≡ₚ
    listArticles None None (markRead old_id read_db) ∧
  handleToggleStar old_id (listArticles None None read_db) ≡ₚ
    listArticles None None (toggleStar old_id read_db).
Proof.
  assert (flags_ok read_db) as Hok
    by apply flags_ok_markRead, flags_ok_upsertArticles, flags_ok_empty.
  destruct (optimistic_updates_agree (listArticles None None read_db) read_db
              (reflexivity _)) as (Hm & _ & Ht & _).
  split_and!; [exact Hok|exact (Hm old_id)|exact (proj2 (Ht Hok old_id))].
Defined.

(** ** Listing the feeds *)

Global Instance by_added_at_trans : Transitive by_added_at.
Proof.
  intros x y z. unfold by_added_at.
  destruct (Feed.added_at x.2), (Feed.added_at y.2), (Feed.added_at z.2); simpl; try done.
  lia.
Qed.

Global Instance by_added_at_total : Total by_added_at.
Proof.
  intros x y. unfold by_added_at.
  destruct (Feed.added_at x.2), (Feed.added_at y.2); simpl; try tauto. lia.
Qed.

Lemma elem_of_listFeeds_rows db u r : (u, r) ∈ listFeeds_rows db ↔ feeds db !! u = Some r.
Proof. unfold listFeeds_rows. by rewrite merge_sort_Permutation, elem_of_map_to_list. Qed.

Lemma valid_time_0 : valid_time 0 = true.
Proof. reflexivity. Qed.

Lemma feed_of_row_None toISOString kr :
  feed_of_row toISOString kr = None ↔
  ∃ t, Feed.added_at kr.2 = Some t ∧ valid_time t = false.
Proof.
  unfold feed_of_row. destruct (Feed.added_at kr.2) as [t|]; simpl.
  - destruct (valid_time t) eqn:Hv; split; try done.
    + intros (t' & [= <-] & ?). congruence.
    + eauto.
  - split; [done|]. intros (? & ? & _). done.
Qed.

Lemma listFeeds_None toISOString db :
  listFeeds toISOString db = None ↔
  ∃ u r t, feeds db !! u = Some r ∧ Feed.added_at r = Some t ∧ valid_time t = false.
Proof.
  unfold listFeeds. rewrite mapM_None, Exists_exists. split.
  - intros ([u r] & Hin & (t & Ht & Hv)%feed_of_row_None).
    apply elem_of_listFeeds_rows in Hin. eauto 6.
  - intros (u & r & t & Hl & Ht & Hv). exists (u, r).
    split; [by apply elem_of_listFeeds_rows|]. apply feed_of_row_None. eauto.
Qed.

Lemma listFeeds_Some toISOString db l :
  listFeeds toISOString db = Some l →
  Forall2 (λ kr v, FeedView.url v = kr.1 ∧ FeedView.name v = Feed.name kr.2 ∧
                   FeedView.addedAt v = toISOString (default 0 (Feed.added_at kr.2)))
          (listFeeds_rows db) l.
Proof.
  intros Hl. unfold listFeeds in Hl. apply mapM_Some in Hl.
  eapply Forall2_impl; [exact Hl|]. intros kr v. unfold feed_of_row. simpl.
  destruct (valid_time _); [|done]. by intros [= <-].
Qed.

Lemma listFeeds_total toISOString db : times_ok db → is_Some (listFeeds toISOString db).
Proof.
  intros Hok. destruct (listFeeds toISOString db) eqn:Hl; [by eexists|].
  apply listFeeds_None in Hl as (u & r & t & Hr & Ht & Hv).
  rewrite (Hok u r t Hr Ht) in Hv. done.
Qed.

(** X10. [listFeeds()] returns one object per Feed row, in ascending order of
    [added_at] with the rows without a time first; each object carries the
    row's url and name and the ISO string of its time, the epoch for a row
    without one.  It throws exactly when some stored time is outside the
    range of [Date], and so never on a store whose times are all within it. *)
Theorem listFeeds_spec toISOString db :
  StronglySorted by_added_at (listFeeds_rows db) ∧
  NoDup (listFeeds_rows db).*1 ∧
  (∀ u r, (u, r) ∈ listFeeds_rows db ↔ feeds db !! u = Some r) ∧
  (∀ l, listFeeds toISOString db = Some l →
        Forall2 (λ kr v, FeedView.url v = kr.1 ∧ FeedView.name v = Feed.name kr.2 ∧
                         FeedView.addedAt v = toISOString (default 0 (Feed.added_at kr.2)))
                (listFeeds_rows db) l) ∧
  (listFeeds toISOString db = None ↔
   ∃ u r t, feeds db !! u = Some r ∧ Feed.added_at r = Some t ∧
            ¬ (- TIME_MAX ≤ t ≤ TIME_MAX)) ∧
  (times_ok db → is_Some (listFeeds toISOString db)).
Proof.
  split_and!.
  - apply (StronglySorted_merge_sort _).
  - unfold listFeeds_rows. rewrite merge_sort_Permutation. apply NoDup_fst_map_to_list.
  - apply elem_of_listFeeds_rows.
  - apply listFeeds_Some.
  - rewrite listFeeds_None. split; intros (u & r & t & Hl & Ht & Hv); exists u, r, t;
      (split_and!; [done|done|]).
    + unfold valid_time in Hv. by apply bool_decide_eq_false in Hv.
    + unfold valid_time. by apply bool_decide_eq_false.
  - apply listFeeds_total.
Qed.

Lemma times_ok_insert_or_ignore db u (r : Feed.row) :
  times_ok db →
  (∀ t, Feed.added_at r = Some t → valid_time t = true) →
  times_ok (set_feeds (insert_or_ignore u r (feeds db)) db).
Proof.
  intros Hok Hr u' r' t. simpl. unfold insert_or_ignore.
  destruct (feeds db !! u) as [old|] eqn:Hold; [apply Hok|].
  destruct (decide (u = u')) as [->|Hne].
  - rewrite lookup_insert_eq. intros [= <-]. apply Hr.
  - rewrite lookup_insert_ne by done. apply Hok.
Qed.

Lemma times_ok_run s : ∀ w,
  Forall (λ st, ∀ u r t, st = InsertFeedOrIgnore u r → Feed.added_at r = Some t →
                         valid_time t = true) s →
  times_ok (db w) → times_ok (db (run s w)).
Proof.
  induction s as [|st s IH]; intros w Hall Hok; [done|].
  apply Forall_cons in Hall as [Hst Hall].
  change (run (st :: s) w) with (run s (exec w st)). apply IH; [done|].
  destruct st as [u r|id r| |key]; simpl; try done.
  apply times_ok_insert_or_ignore; [done|]. intros t. by apply (Hst u r t).
Qed.

(** X11. Dates in, dates out.  [getTime()] of a [Date] is NaN or a time value
    within the range of [Date]; so starting from a store whose subscription
    times are within range (the empty store is one), [addFeed], [removeFeed],
    [upsertArticles] and the legacy import keep them within range, and
    [listFeeds()] never throws after any of them.  After [addFeed] on a free
    url with a date that parses, the list has the new feed with its url, its
    name and the ISO string of that date; after [removeFeed(url)] the list
    has no feed with that url. *)
Theorem listFeeds_never_throws Date_getTime toISOString d :
  (∀ s t, Date_getTime s = Some t → valid_time t = true) →
  times_ok d →
  (∀ url name addedAt, times_ok (addFeed Date_getTime url name addedAt d)) ∧
  (∀ url, times_ok (removeFeed url d)) ∧
  (∀ now feedUrl feedName items,
     times_ok (upsertArticles Date_getTime now feedUrl feedName items d)) ∧
  (∀ c ls, times_ok (db (importFromLocalStorageIfNeeded Date_getTime c
                           {| db := d; storage := ls |}))) ∧
  is_Some (listFeeds toISOString d) ∧
  (∀ url name addedAt t,
     feeds d !! url = None → Date_getTime addedAt = Some t →
     ∃ l, listFeeds toISOString (addFeed Date_getTime url name addedAt d) = Some l ∧
          {| FeedView.url := url; FeedView.name := name;
             FeedView.addedAt := toISOString t |} ∈ l) ∧
  (∀ url, ∃ l, listFeeds toISOString (removeFeed url d) = Some l ∧
               url ∉ FeedView.url <$> l).
Proof.
  intros HD Hok.
  assert (∀ url name addedAt, times_ok (addFeed Date_getTime url name addedAt d)) as Hadd.
  { intros url name addedAt. unfold addFeed.
    apply times_ok_insert_or_ignore; [done|]. simpl. intros t. apply HD. }
  assert (∀ url, times_ok (removeFeed url d)) as Hrem.
  { intros url u r t. simpl. intros [_ Hl]%lookup_delete_Some. by apply (Hok u r t). }
  assert (∀ d' l kr, listFeeds toISOString d' = Some l → kr ∈ listFeeds_rows d' →
            ∃ v, v ∈ l ∧ FeedView.url v = kr.1 ∧ FeedView.name v = Feed.name kr.2 ∧
                 FeedView.addedAt v = toISOString (default 0 (Feed.added_at kr.2))) as Hfwd.
  { intros d' l kr Hl Hin.
    pose proof (listFeeds_Some toISOString d' l Hl) as Hsome.
    apply list_elem_of_lookup in Hin as [i Hi].
    destruct (Forall2_lookup_l _ _ _ _ _ Hsome Hi) as (v & Hv & Hp).
    exists v. split; [by eapply list_elem_of_lookup_2|done]. }
  assert (∀ d' l v, listFeeds toISOString d' = Some l → v ∈ l →
            ∃ kr, kr ∈ listFeeds_rows d' ∧ FeedView.url v = kr.1) as Hbwd.
  { intros d' l v Hl Hin.
    pose proof (listFeeds_Some toISOString d' l Hl) as Hsome.
    apply list_elem_of_lookup in Hin as [i Hi].
    destruct (Forall2_lookup_r _ _ _ _ _ Hsome Hi) as (kr & Hkr & Hp & _).
    exists kr. split; [by eapply list_elem_of_lookup_2|done]. }
  split_and!.
  - exact Hadd.
  - exact Hrem.
  - intros now feedUrl feedName items. exact Hok.
  - intros c ls. apply times_ok_run; [|done].
    unfold import_script. simpl. destruct (migrated d); [constructor|].
    assert (∀ tl, Forall (λ st, ¬ is_insert st) tl →
              Forall (λ st, ∀ u r t, st = InsertFeedOrIgnore u r →
                                     Feed.added_at r = Some t → valid_time t = true) tl)
      as Htl.
    { intros tl Htl. eapply Forall_impl; [exact Htl|].
      intros st Hni u r t ->. by destruct Hni. }
    destruct (hasData ls).
    + apply Forall_app. split.
      * unfold import_inserts. apply Forall_app. split.
        -- apply Forall_forall. intros st Hin.
           apply elem_of_lookup_imap in Hin as (i & x & -> & _).
           intros u r t [= <- <-]. simpl. apply HD.
        -- apply Forall_fmap, Forall_true. intros a. done.
      * apply Htl. repeat first [apply Forall_nil_2 | apply Forall_cons_2; [by intros []|]].
    + apply Htl. repeat first [apply Forall_nil_2 | apply Forall_cons_2; [by intros []|]].
  - by apply listFeeds_total.
  - intros url name addedAt t Hfree Ht.
    destruct (listFeeds_total toISOString _ (Hadd url name addedAt)) as [l Hl].
    exists l. split; [done|].
    destruct (Hfwd _ l (url, {| Feed.name := name; Feed.added_at := Some t |}) Hl)
      as (v & Hv & Hu & Hn & Ha).
    { apply elem_of_listFeeds_rows. unfold addFeed. simpl. unfold insert_or_ignore.
      rewrite Hfree, lookup_insert_eq, Ht. done. }
    destruct v as [vu vn va]. simpl in *. by subst.
  - intros url.
    destruct (listFeeds_total toISOString _ (Hrem url)) as [l Hl].
    exists l. split; [done|].
    intros (v & Hu & Hin)%list_elem_of_fmap.
    destruct (Hbwd _ l v Hl Hin) as ([u r] & Hkr & Hurl).
    apply elem_of_listFeeds_rows in Hkr. simpl in Hkr, Hurl.
    rewrite lookup_delete_Some in Hkr. destruct Hkr as [Hne _]. congruence.
Qed.

Lemma ex_dates_valid s t : ex_dates s = Some t → valid_time t = true.
Proof.
  unfold ex_dates. repeat case_match; intros [= <-]; reflexivity.
Qed.

Lemma times_ok_empty : times_ok empty_db.
Proof. intros u r t Hl. simpl in Hl. by rewrite lookup_empty in Hl. Qed.

Lemma listFeeds_never_throws_witness :
  ∃ l, listFeeds (λ t, pretty t) (addFeed ex_dates ex_feed "H" "2020-01-01T00:00:00Z" empty_db)
       = Some l ∧
       {| FeedView.url := ex_feed; FeedView.name := "H";
          FeedView.addedAt := pretty 1577836800000 |} ∈ l.
Proof.
  destruct (listFeeds_never_throws ex_dates (λ t, pretty t) empty_db
              ex_dates_valid times_ok_empty) as (_ & _ & _ & _ & _ & Hadd & _).
  apply (Hadd ex_feed "H" "2020-01-01T00:00:00Z" 1577836800000); reflexivity.
Defined.

(** ** A refresh that fits the cap *)

Lemma length_prunable_insert_le f (t : gmap string Row.t) id r :
  (length (filter (prunable f) (map_to_list (<[id := r]> t))) ≤
   S (length (filter (prunable f) (map_to_list t))))%nat.
Proof.
  destruct (t !! id) as [r0|] eqn:Hl.
  - rewrite <- (insert_delete_id t id r0 Hl) at 2.
    rewrite <- (insert_delete_eq t id r).
    rewrite !map_to_list_insert by apply lookup_delete_eq.
    rewrite !filter_cons.
    destruct (decide (prunable f (id, r))), (decide (prunable f (id, r0))); simpl; lia.
  - rewrite map_to_list_insert by done. rewrite filter_cons.
    destruct (decide (prunable f (id, r))); simpl; lia.
Qed.

Lemma last_occurrence {A} (P : A → Prop) `{∀ x, Decision (P x)} (l : list A) :
  Exists P l → ∃ l1 x l2, l = l1 ++ x :: l2 ∧ P x ∧ Forall (λ y, ¬ P y) l2.
Proof.
  induction l as [|x l IH] using rev_ind.
  - intros Hex. by apply Exists_nil in Hex.
  - intros Hex. destruct (decide (P x)) as [Hx|Hx].
    + exists l, x, []. split_and!; [done|done|constructor].
    + apply Exists_app in Hex as [Hex|Hex].
      * destruct (IH Hex) as (l1 & y & l2 & -> & Hy & Hl2).
        exists l1, y, (l2 ++ [x]). split_and!; [by rewrite <- app_assoc|done|].
        apply Forall_app. split; [done|]. by apply Forall_singleton.
      * apply Exists_cons in Hex as [Hex|Hex]; [done|]. by apply Exists_nil in Hex.
Qed.

Section within_cap.
Variable Date_getTime : string → option Z.
Variable feedUrl : string.

Lemma length_prunable_loop now feedName items t :
  (length (filter (prunable feedUrl)
             (map_to_list (upsert_loop Date_getTime now feedUrl feedName items t))) ≤
   length (filter (prunable feedUrl) (map_to_list t)) + length items)%nat.
Proof.
  induction items as [|e items IH] using rev_ind; [simpl; lia|].
  rewrite loop_snoc, length_app. simpl. unfold upsert_item. cbv zeta.
  etrans; [apply length_prunable_insert_le|]. lia.
Qed.

Lemma dom_loop now feedName items t :
  dom (upsert_loop Date_getTime now feedUrl feedName items t) =
  dom t ∪ list_to_set (article_id feedUrl <$> items).
Proof.
  induction items as [|e items IH] using rev_ind.
  - simpl. by rewrite (right_id_L ∅ (∪)).
  - rewrite loop_snoc. unfold upsert_item. cbv zeta. rewrite dom_insert_L, IH.
    rewrite fmap_app, list_to_set_app_L. simpl.
    apply set_eq. intros x. rewrite !elem_of_union, elem_of_singleton, elem_of_empty. tauto.
Qed.

(** A second pass over the same entries overrides the first. *)
Lemma loop_absorbs now1 name1 now2 name2 items t :
  upsert_loop Date_getTime now2 feedUrl name2 items
    (upsert_loop Date_getTime now1 feedUrl name1 items t) =
  upsert_loop Date_getTime now2 feedUrl name2 items t.
Proof.
  apply map_eq. intros id.
  destruct (decide (Exists (λ e, article_id feedUrl e = id) items)) as [Hex|Hnex].
  - apply last_occurrence in Hex as (l1 & e & l2 & -> & <- & Hl2); [|apply _].
    rewrite !lookup_loop_last by done. simpl.
    by destruct (t !! article_id feedUrl e).
  - apply not_Exists_Forall in Hnex; [|apply _].
    by rewrite !lookup_loop_other by done.
Qed.

End within_cap.

(** X12. A refresh that fits the cap.  When the non-starred articles of
    [feedUrl] already stored and the entries of the list together number at
    most 500, whatever ids the entries have, [upsertArticles] deletes
    nothing: every article stored before is stored after, every entry of the
    list is stored under its id, and the stored ids are those of before and
    those of the entries.  A second call with the same entries then overrides
    the first, so repeating a refresh with the same clock reading and feed
    name changes nothing. *)
Theorem upsertArticles_within_cap Date_getTime now feedUrl feedName items db :
  (length (filter (prunable feedUrl) (map_to_list (articles db))) + length items ≤ 500)%nat →
  let db' := upsertArticles Date_getTime now feedUrl feedName items db in
  articles db' = upsert_loop Date_getTime now feedUrl feedName items (articles db) ∧
  (∀ id, is_Some (articles db !! id) → is_Some (articles db' !! id)) ∧
  (∀ e, e ∈ items → is_Some (articles db' !! article_id feedUrl e)) ∧
  dom (articles db') = dom (articles db) ∪ list_to_set (article_id feedUrl <$> items) ∧
  (∀ now2 name2,
     upsertArticles Date_getTime now2 feedUrl name2 items db' =
     upsertArticles Date_getTime now2 feedUrl name2 items db) ∧
  upsertArticles Date_getTime now feedUrl feedName items db' = db'.
Proof.
  intros Hcap db'.
  assert (articles db' = upsert_loop Date_getTime now feedUrl feedName items (articles db))
    as Hloop.
  { subst db'. rewrite articles_upsertArticles. apply prune_within_cap.
    etrans; [apply length_prunable_loop|]. exact Hcap. }
  assert (dom (articles db') =
          dom (articles db) ∪ list_to_set (article_id feedUrl <$> items)) as Hdom
    by (by rewrite Hloop, dom_loop).
  assert (∀ now2 name2,
            upsertArticles Date_getTime now2 feedUrl name2 items db' =
            upsertArticles Date_getTime now2 feedUrl name2 items db) as Habs.
  { intros now2 name2. apply Db_eq; [done| |done].
    rewrite !articles_upsertArticles. fold db'. by rewrite Hloop, loop_absorbs. }
  split_and!.
  - exact Hloop.
  - intros id Hid. apply elem_of_dom. rewrite Hdom. apply elem_of_union. left.
    by apply elem_of_dom.
  - intros e He. apply elem_of_dom. rewrite Hdom. apply elem_of_union. right.
    apply elem_of_list_to_set, list_elem_of_fmap. eauto.
  - exact Hdom.
  - exact Habs.
  - apply Habs.
Qed.

Lemma upsertArticles_within_cap_witness :
  upsertArticles ex_dates 1 ex_feed "H" [old_item]
    (upsertArticles ex_dates 1 ex_feed "H" [old_item] empty_db) =
  upsertArticles ex_dates 1 ex_feed "H" [old_item] empty_db.
Proof.
  apply (upsertArticles_within_cap ex_dates 1 ex_feed "H" [old_item] empty_db).
  vm_compute. lia.
Defined.

(** ** The parser and the ids *)

Lemma js_or_opt_nonempty o b : b ≠ "" → js_or_opt o b ≠ "".
Proof.
  intros Hb. destruct o as [s|]; simpl; [|done].
  unfold js_or. by destruct s.
Qed.

Lemma parsed_title_nonempty parseFromString xmlText e :
  e ∈ items (parseRSS parseFromString xmlText) → Item.title e ≠ "".
Proof.
  unfold parseRSS, parseRSS_doc. case_bool_decide; simpl;
    intros (n & -> & _)%list_elem_of_fmap; simpl; by apply js_or_opt_nonempty.
Qed.

(** X13. What [parseRSS] hands to [upsertArticles].  The feed title and the
    title of every parsed item are non-empty, so the id of a parsed item is
    never the bare prefix [feedUrl + "::"]; an item without a link gets its
    id from its title.  Within one feed two entries get the same id exactly
    when [link || title] is the same for both: entries with different
    non-empty links never share an id, and entries without a link that have
    the same title always do. *)
Theorem parseRSS_ids parseFromString xmlText feedUrl :
  let feed := parseRSS parseFromString xmlText in
  feedTitle feed ≠ "" ∧
  (∀ e, e ∈ items feed →
        Item.title e ≠ "" ∧
        article_id feedUrl e ≠ feedUrl +:+ "::" ∧
        (Item.link e = "" → article_id feedUrl e = feedUrl +:+ "::" +:+ Item.title e)) ∧
  (∀ e1 e2, article_id feedUrl e1 = article_id feedUrl e2 ↔
            js_or (Item.link e1) (Item.title e1) = js_or (Item.link e2) (Item.title e2)) ∧
  (∀ e1 e2, Item.link e1 ≠ "" → Item.link e2 ≠ "" → Item.link e1 ≠ Item.link e2 →
            article_id feedUrl e1 ≠ article_id feedUrl e2) ∧
  (∀ e1 e2, Item.link e1 = "" → Item.link e2 = "" → Item.title e1 = Item.title e2 →
            article_id feedUrl e1 = article_id feedUrl e2).
Proof.
  intros feed.
  assert (∀ e1 e2, article_id feedUrl e1 = article_id feedUrl e2 ↔
            js_or (Item.link e1) (Item.title e1) = js_or (Item.link e2) (Item.title e2))
    as Hinj.
  { intros e1 e2. unfold article_id. split; [|by intros ->].
    intros Heq. apply (inj (String.append feedUrl)) in Heq.
    by apply (inj (String.append "::")) in Heq. }
  split_and!.
  - subst feed. unfold parseRSS, parseRSS_doc. case_bool_decide; simpl;
      by apply js_or_opt_nonempty.
  - intros e He. pose proof (parsed_title_nonempty _ _ _ He) as Ht.
    split_and!; [done| |].
    + unfold article_id. intros Heq.
      apply (inj (String.append feedUrl)) in Heq. simpl in Heq.
      injection Heq as Heq. unfold js_or in Heq.
      destruct (Item.link e); [done|]. simpl in Heq. done.
    + intros Hl. unfold article_id. by rewrite Hl.
  - exact Hinj.
  - intros e1 e2 H1 H2 Hne. rewrite Hinj. unfold js_or.
    destruct (Item.link e1), (Item.link e2); done.
  - intros e1 e2 H1 H2 Ht. apply Hinj. by rewrite H1, H2, Ht.
Qed.

(** ** The write lock: every promise settles once *)

Lemma seen_submit q e :
  seen (withWriteLock q) e ↔ e = Submit (length q) ∨ seen q e.
Proof.
  unfold seen, withWriteLock. split.
  - intros (s & Hs & He). apply lookup_snoc_Some in Hs as [[_ Hs]|[Hk <-]]; [by eauto|].
    left. destruct e; simpl in *; try done. by subst.
  - intros [->|(s & Hs & He)].
    + simpl. eexists. split; [apply list_lookup_middle; done|done].
    + exists s. split; [|done]. apply lookup_app_l_Some. done.
Qed.

Lemma seen_insert q i s s' e0 :
  q !! i = Some s → event_index e0 = i →
  (∀ e, event_index e = i → slot_event s' e ↔ e = e0 ∨ slot_event s e) →
  ∀ e, seen (<[i := s']> q) e ↔ e = e0 ∨ seen q e.
Proof.
  intros Hi H0 Hslot e. unfold seen.
  pose proof (lookup_lt_Some _ _ _ Hi) as Hlt.
  destruct (decide (event_index e = i)) as [He|He].
  - rewrite He, list_lookup_insert_eq, Hi by done. split.
    + intros (? & [= <-] & Hs). apply Hslot in Hs as [->|Hs]; eauto.
    + intros Hs. exists s'. split; [done|]. apply Hslot; [done|].
      destruct Hs as [->|(? & [= <-] & Hs)]; auto.
  - rewrite list_lookup_insert_ne by done. split; [by auto|].
    intros [->|Hs]; [done|done].
Qed.

Lemma seen_step q e0 q' :
  step q e0 q' → ¬ seen q e0 ∧ ∀ e, seen q' e ↔ e = e0 ∨ seen q e.
Proof.
  intros Hstep.
  inversion Hstep as [q0|q0 i s Hi Hc Hl|q0 i s o Hi Hc|q0 i s o Hi Hc Hn|q0 i s o Hi Hn Hl];
    subst.
  - split; [|apply seen_submit].
    intros (s & Hs & _). simpl in Hs. apply lookup_lt_Some in Hs. lia.
  - split.
    + intros (s0 & Hs & He). simpl in Hs, He. congruence.
    + apply (seen_insert _ _ s); [done|done|].
      intros e He. destruct e; simpl in *; subst; rewrite ?Hc.
      * tauto.
      * split; [by left|done].
      * split; [done|intros [?|?]; done].
      * split; [by right|intros [?|?]; done].
      * split; [by right|intros [?|?]; done].
  - split.
    + intros (s0 & Hs & He). simpl in Hs, He. congruence.
    + apply (seen_insert _ _ s); [done|done|].
      intros e He. destruct e; simpl in *; subst; rewrite ?Hc.
      * tauto.
      * split; [by right|done].
      * split; [intros [= <-]; by left|intros [[= <-]|?]; done].
      * split; [by right|intros [?|?]; done].
      * split; [by right|intros [?|?]; done].
  - split.
    + intros (s0 & Hs & He). simpl in Hs, He. rewrite Hi in Hs. injection Hs as <-.
      rewrite Hn in He. by destruct He.
    + apply (seen_insert _ _ s); [done|done|].
      intros e He. destruct e; simpl in *; subst.
      * tauto.
      * split; [by right|intros [?|?]; done].
      * split; [by right|intros [?|?]; done].
      * split; [by left|by eexists].
      * split; [by right|intros [?|?]; done].
  - split.
    + intros (s0 & Hs & He). simpl in Hs, He. congruence.
    + apply (seen_insert _ _ s); [done|done|].
      intros e He. destruct e; simpl in *; subst.
      * tauto.
      * split; [by right|intros [?|?]; done].
      * split; [by right|intros [?|?]; done].
      * split; [by right|intros [?|?]; done].
      * split; [by left|done].
Qed.

Lemma reachable_seen tr q : reachable tr q → ∀ e, e ∈ tr ↔ seen q e.
Proof.
  induction 1 as [|tr q e0 q' _ IH Hstep]; intros e.
  - split; [by intros ?%elem_of_nil|]. intros (s & Hs & _). by rewrite lookup_nil in Hs.
  - destruct (seen_step _ _ _ Hstep) as [_ Hseen].
    rewrite Hseen, elem_of_cons, IH. done.
Qed.

(** X14. In every history of the write lock each event happens at most once:
    a call is submitted once, its [fn] is invoked at most once, the promise
    [fn] returned settles at most once and with one outcome, and so do the
    caller's promise and the lock.  The events of a call come in order: [fn]
    is invoked only for a submitted call, settles only after it was invoked,
    the caller's promise settles only after that of [fn], and the lock only
    after the caller's promise.  The queue has one slot per submitted call. *)
Theorem write_lock_once tr q :
  reachable tr q →
  NoDup tr ∧
  (∀ k o o', Finish k o ∈ tr → Finish k o' ∈ tr → o = o') ∧
  (∀ k, Submit k ∈ tr ↔ (k < length q)%nat) ∧
  (∀ k, Start k ∈ tr → Submit k ∈ tr) ∧
  (∀ k o, Finish k o ∈ tr → Start k ∈ tr) ∧
  (∀ k, SettleNext k ∈ tr → ∃ o, Finish k o ∈ tr) ∧
  (∀ k, SettleLock k ∈ tr → SettleNext k ∈ tr).
Proof.
  intros Hr. pose proof (reachable_seen _ _ Hr) as Hseen.
  pose proof (reachable_chain_ok _ _ Hr) as Hok.
  split_and!.
  - clear Hseen Hok. induction Hr as [|tr q e0 q' Hr IH Hstep]; [constructor|].
    constructor; [|done].
    rewrite (reachable_seen _ _ Hr). by apply seen_step in Hstep as [? _].
  - intros k o o' [s [Hs Ho]]%Hseen [s' [Hs' Ho']]%Hseen. simpl in *. congruence.
  - intros k. rewrite Hseen. unfold seen. simpl. split.
    + intros (s & Hs & _). by apply lookup_lt_Some in Hs.
    + intros [s Hs]%lookup_lt_is_Some. eauto.
  - intros k [s [Hs _]]%Hseen. apply Hseen. exists s. done.
  - intros k o [s [Hs Ho]]%Hseen. apply Hseen. exists s. simpl in *.
    split; [done|]. congruence.
  - intros k [s [Hs [o Ho]]]%Hseen. simpl in *. exists o. apply Hseen. exists s.
    split; [done|]. simpl. destruct (Hok _ _ Hs) as (_ & _ & Hnext). by apply Hnext.
  - intros k [s [Hs Hl]]%Hseen. simpl in *. apply Hseen. exists s. split; [done|].
    simpl. destruct (Hok _ _ Hs) as (_ & Hlock & _). by apply Hlock.
Qed.

Lemma write_lock_once_witness :
  NoDup ex_trace ∧ (∀ k, Start k ∈ ex_trace → Submit k ∈ ex_trace).
Proof.
  destruct (write_lock_once ex_trace ex_queue reachable_ex_trace)
    as (Hnodup & _ & _ & Hstart & _).
  split; [exact Hnodup|exact Hstart].
Defined.

(** ** The write lock: the queue drains *)

Lemma steps_app q evs1 q1 evs2 q2 :
  steps q evs1 q1 → steps q1 evs2 q2 → steps q (evs1 ++ evs2) q2.
Proof.
  induction 1 as [q|q e qa evs qb Hstep _ IH]; simpl; [done|].
  intros Hrest. eapply steps_cons; [done|]. by apply IH.
Qed.

Lemma chain_ok_steps q evs q' : chain_ok q → steps q evs q' → chain_ok q'.
Proof.
  intros Hok Hsteps. induction Hsteps as [q|q e qa evs qb Hstep _ IH]; [done|].
  apply IH. by eapply chain_ok_step.
Qed.

Lemma reachable_steps tr q evs q' :
  reachable tr q → steps q evs q' → reachable (rev evs ++ tr) q'.
Proof.
  intros Hr Hsteps. revert tr Hr.
  induction Hsteps as [q|q e qa evs qb Hstep _ IH]; intros tr Hr; [done|].
  simpl. rewrite <- app_assoc. simpl. apply IH. by eapply reach_step.
Qed.

(** The caller's promise and the lock of a call whose [fn] has settled. *)
Lemma settle_promises q k s o :
  q !! k = Some s → call s = Settled o → lock s = false →
  (next s = None ∨ next s = Some o) →
  ∃ evs, steps q evs (<[k := settled_slot o]> q) ∧
         Forall (λ e, e = SettleNext k ∨ e = SettleLock k) evs.
Proof.
  intros Hk Hc Hl Hn. pose proof (lookup_lt_Some _ _ _ Hk) as Hlt.
  destruct s as [c n l]. simpl in *. subst c l.
  destruct Hn as [-> | ->].
  - exists [SettleNext k; SettleLock k]. split.
    2: { apply Forall_cons_2; [by left|]. apply Forall_cons_2; [by right|].
         apply Forall_nil_2. }
    eapply steps_cons; [by eapply (step_settle_next _ _ _ o)|].
    eapply steps_cons; [|].
    + eapply (step_settle_lock _ _ _ o); [by apply list_lookup_insert_eq|done|done].
    + rewrite list_insert_insert_eq. apply steps_nil.
  - exists [SettleLock k]. split; [|apply Forall_cons_2; [by right|apply Forall_nil_2]].
    eapply steps_cons; [by eapply (step_settle_lock _ _ _ o)|]. apply steps_nil.
Qed.

(** One call, whatever its state, can be brought to the end once the lock
    it chained on is fulfilled. *)
Lemma drain_slot q k s :
  chain_ok q → q !! k = Some s → lock_before q k = true →
  ∃ evs o, steps q evs (<[k := settled_slot o]> q) ∧
           Forall (λ e, event_index e = k ∧ ∀ j, e ≠ Submit j) evs.
Proof.
  intros Hok Hk Hbefore. pose proof (lookup_lt_Some _ _ _ Hk) as Hlt.
  destruct (Hok _ _ Hk) as (_ & Hlock & Hnext).
  assert (∀ evs, Forall (λ e, e = SettleNext k ∨ e = SettleLock k) evs →
                 Forall (λ e, event_index e = k ∧ ∀ j, e ≠ Submit j) evs) as Hevs.
  { intros evs Hall. eapply Forall_impl; [exact Hall|]. intros e [-> | ->]; done. }
  destruct (call s) as [| |o] eqn:Hc.
  - assert (next s = None) as Hn.
    { destruct (next s) as [o|] eqn:Hn; [|done]. specialize (Hnext o eq_refl). done. }
    assert (lock s = false) as Hl.
    { destruct (lock s); [|done]. destruct (Hlock eq_refl) as [? ?]. congruence. }
    set (s2 := set_call (Settled Fulfilled) (set_call Running s)).
    destruct (settle_promises (<[k := s2]> (<[k := set_call Running s]> q)) k s2 Fulfilled)
      as (evs & Hsteps & Hall);
      [apply list_lookup_insert_eq; by rewrite length_insert|done|exact Hl|left; exact Hn|].
    rewrite !list_insert_insert_eq in Hsteps.
    exists (Start k :: Finish k Fulfilled :: evs), Fulfilled. split.
    + eapply steps_cons; [by apply step_start|].
      eapply steps_cons; [|exact Hsteps].
      rewrite <- (list_insert_insert_eq q k s2 (set_call Running s)).
      apply step_finish; [by apply list_lookup_insert_eq|done].
    + repeat (constructor; [done|]). by apply Hevs.
  - assert (next s = None) as Hn.
    { destruct (next s) as [o|] eqn:Hn; [|done]. specialize (Hnext o eq_refl). done. }
    assert (lock s = false) as Hl.
    { destruct (lock s); [|done]. destruct (Hlock eq_refl) as [? ?]. congruence. }
    set (s2 := set_call (Settled Fulfilled) s).
    destruct (settle_promises (<[k := s2]> q) k s2 Fulfilled)
      as (evs & Hsteps & Hall);
      [by apply list_lookup_insert_eq|done|exact Hl|left; exact Hn|].
    rewrite !list_insert_insert_eq in Hsteps.
    exists (Finish k Fulfilled :: evs), Fulfilled. split.
    + eapply steps_cons; [by apply step_finish|exact Hsteps].
    + constructor; [done|]. by apply Hevs.
  - destruct (lock s) eqn:Hl.
    + exists [], o. split; [|constructor].
      destruct (Hlock eq_refl) as [o' Ho']. specialize (Hnext o' Ho').
      assert (o' = o) as -> by congruence.
      replace (<[k := settled_slot o]> q) with q; [apply steps_nil|].
      symmetry. apply list_insert_id. rewrite Hk. f_equal.
      destruct s. simpl in *. by subst.
    + destruct (settle_promises q k s o) as (evs & Hsteps & Hall); [done|done|done| |].
      { destruct (next s) as [o'|] eqn:Hn; [|by left].
        specialize (Hnext o' eq_refl). right. congruence. }
      exists evs, o. split; [done|]. by apply Hevs.
Qed.

Lemma drain_upto q k :
  chain_ok q → (k ≤ length q)%nat →
  ∃ evs q', steps q evs q' ∧ length q' = length q ∧
            (∀ j, (j < k)%nat → ∃ o, q' !! j = Some (settled_slot o)) ∧
            (∀ j, Submit j ∉ evs).
Proof.
  intros Hok. induction k as [|k IH]; intros Hk.
  - exists [], q. split_and!; [apply steps_nil|done|intros j ?; lia|].
    intros j ?%elem_of_nil. done.
  - destruct IH as (evs1 & q1 & Hsteps1 & Hlen1 & Hdone1 & Hsub1); [lia|].
    pose proof (chain_ok_steps _ _ _ Hok Hsteps1) as Hok1.
    destruct (lookup_lt_is_Some_2 q1 k) as [s Hs]; [lia|].
    destruct (drain_slot q1 k s Hok1 Hs) as (evs2 & o & Hsteps2 & Hall2).
    { destruct k as [|j]; [done|]. apply lock_before_S.
      destruct (Hdone1 j) as [o Ho]; [lia|]. by exists (settled_slot o). }
    exists (evs1 ++ evs2), (<[k := settled_slot o]> q1). split_and!.
    + by eapply steps_app.
    + by rewrite length_insert.
    + intros j Hj. destruct (decide (j = k)) as [->|Hne].
      * exists o. apply list_lookup_insert_eq. lia.
      * rewrite list_lookup_insert_ne by done. apply Hdone1. lia.
    + intros j [Hin|Hin]%elem_of_app; [by apply (Hsub1 j)|].
      rewrite Forall_forall in Hall2. destruct (Hall2 _ Hin) as [_ Hns]. by apply (Hns j).
Qed.

(** X15. The write lock never wedges.  From every state the chained promises
    can reach, whatever calls are waiting or running and whatever outcomes,
    fulfilled or rejected, the earlier calls had, the promises can settle one
    after another, without any further call, until every submitted call has
    run and all three promises of each have settled; the lock a next call
    would chain on is then fulfilled. *)
Theorem write_lock_drains tr q :
  reachable tr q →
  ∃ evs q',
    steps q evs q' ∧
    reachable (rev evs ++ tr) q' ∧
    (∀ j, Submit j ∉ evs) ∧
    length q' = length q ∧
    drained q' ∧
    lock_before q' (length q') = true.
Proof.
  intros Hr. pose proof (reachable_chain_ok _ _ Hr) as Hok.
  destruct (drain_upto q (length q) Hok) as (evs & q' & Hsteps & Hlen & Hdone & Hsub);
    [done|].
  exists evs, q'. split_and!; [done|by apply (reachable_steps tr q)|done|done| |].
  - intros k s Hk. destruct (Hdone k) as [o Ho].
    + rewrite <- Hlen. by eapply lookup_lt_Some.
    + exists o. congruence.
  - destruct (length q') as [|j] eqn:Hq; [done|]. apply lock_before_S.
    destruct (Hdone j) as [o Ho]; [lia|]. by exists (settled_slot o).
Qed.

Lemma write_lock_drains_witness :
  ∃ evs q', steps ex_queue evs q' ∧ drained q' ∧ length q' = length ex_queue.
Proof.
  destruct (write_lock_drains ex_trace ex_queue reachable_ex_trace)
    as (evs & q' & Hsteps & _ & _ & Hlen & Hdrained & _).
  exists evs, q'. split_and!; [exact Hsteps|exact Hdrained|exact Hlen].
Defined.

(** ** Relative dates *)

(** X16. [formatDate].  The empty string gives the empty string and a string
    that does not parse as a date is returned as it is.  For a date that
    parses, with [diff] the milliseconds since it: below one hour the label
    is ["<n>m ago"] with [n] between 1 and 59, and 1 for every date less than
    two minutes old or in the future; below one day it is ["<n>h ago"] with
    [n] between 1 and 23; below seven days it is ["<n>d ago"] with [n]
    between 1 and 6; [n] is the number of whole units in [diff]; from seven
    days on the label is the localized date, with the year exactly when it
    differs from the current one. *)
Theorem formatDate_labels Date_getTime getFullYear toLocaleDateString now dateStr d :
  dateStr ≠ "" →
  Date_getTime dateStr = Some d →
  let label := formatDate Date_getTime getFullYear toLocaleDateString now dateStr in
  let diff := now - d in
  (diff < 3600000 →
     ∃ n, label = pretty n +:+ "m ago" ∧ 1 ≤ n ≤ 59 ∧
          (diff < 120000 → n = 1) ∧ (60000 ≤ diff → n * 60000 ≤ diff < (n + 1) * 60000)) ∧
  (3600000 ≤ diff < 86400000 →
     ∃ n, label = pretty n +:+ "h ago" ∧ 1 ≤ n ≤ 23 ∧
          n * 3600000 ≤ diff < (n + 1) * 3600000) ∧
  (86400000 ≤ diff < 604800000 →
     ∃ n, label = pretty n +:+ "d ago" ∧ 1 ≤ n ≤ 6 ∧
          n * 86400000 ≤ diff < (n + 1) * 86400000) ∧
  (604800000 ≤ diff →
     label = toLocaleDateString d (negb (getFullYear d =? getFullYear now))) ∧
  formatDate Date_getTime getFullYear toLocaleDateString now "" = "" ∧
  (∀ s, Date_getTime s = None →
        formatDate Date_getTime getFullYear toLocaleDateString now s = s).
Proof.
  intros Hne Hd label diff.
  assert (label =
          if diff <? 3600000 then pretty (Z.max 1 (diff / 60000)) +:+ "m ago"
          else if diff <? 86400000 then pretty (diff / 3600000) +:+ "h ago"
          else if diff <? 604800000 then pretty (diff / 86400000) +:+ "d ago"
          else toLocaleDateString d (negb (getFullYear d =? getFullYear now))) as Hlabel.
  { subst label. unfold formatDate. rewrite Hd.
    destruct dateStr; [done|]. reflexivity. }
  clearbody label diff. split_and!.
  - intros Hlt. exists (Z.max 1 (diff / 60000)).
    rewrite Hlabel. rewrite (proj2 (Z.ltb_lt _ _) Hlt).
    split; [done|].
    pose proof (Z.div_lt_upper_bound diff 60000 60 ltac:(lia) ltac:(lia)).
    split_and!; [lia|lia| |].
    + intros Hsmall.
      pose proof (Z.div_lt_upper_bound diff 60000 2 ltac:(lia) ltac:(lia)). lia.
    + intros Hbig.
      pose proof (Z.div_le_lower_bound diff 60000 1 ltac:(lia) ltac:(lia)).
      rewrite Z.max_r by lia.
      pose proof (Z.mul_div_le diff 60000 ltac:(lia)).
      pose proof (Z.mul_succ_div_gt diff 60000 ltac:(lia)). lia.
  - intros [Hge Hlt]. exists (diff / 3600000).
    rewrite Hlabel. rewrite (proj2 (Z.ltb_ge _ _) Hge), (proj2 (Z.ltb_lt _ _) Hlt).
    split; [done|].
    pose proof (Z.div_lt_upper_bound diff 3600000 24 ltac:(lia) ltac:(lia)).
    pose proof (Z.div_le_lower_bound diff 3600000 1 ltac:(lia) ltac:(lia)).
    pose proof (Z.mul_div_le diff 3600000 ltac:(lia)).
    pose proof (Z.mul_succ_div_gt diff 3600000 ltac:(lia)). lia.
  - intros [Hge Hlt]. exists (diff / 86400000).
    rewrite Hlabel.
    rewrite (proj2 (Z.ltb_ge diff 3600000)) by lia.
    rewrite (proj2 (Z.ltb_ge _ _) Hge), (proj2 (Z.ltb_lt _ _) Hlt).
    split; [done|].
    pose proof (Z.div_lt_upper_bound diff 86400000 7 ltac:(lia) ltac:(lia)).
    pose proof (Z.div_le_lower_bound diff 86400000 1 ltac:(lia) ltac:(lia)).
    pose proof (Z.mul_div_le diff 86400000 ltac:(lia)).
    pose proof (Z.mul_succ_div_gt diff 86400000 ltac:(lia)). lia.
  - intros Hge. rewrite Hlabel.
    rewrite (proj2 (Z.ltb_ge diff 3600000)) by lia.
    rewrite (proj2 (Z.ltb_ge diff 86400000)) by lia.
    by rewrite (proj2 (Z.ltb_ge _ _) Hge).
  - reflexivity.
  - intros s Hs. unfold formatDate. rewrite Hs. by destruct s.
Qed.

Lemma formatDate_labels_witness :
  formatDate ex_dates (λ _, 2024) (λ _ _, "Jan 2") 1704153600000 "2024-01-02T00:00:00Z"
  = "1m ago".
Proof.
  destruct (formatDate_labels ex_dates (λ _, 2024) (λ _ _, "Jan 2") 1704153600000
              "2024-01-02T00:00:00Z" 1704153600000 ltac:(discriminate) eq_refl)
    as ((n & Hlabel & _ & Hone & _) & _); [lia|].
  rewrite Hlabel, Hone by lia. reflexivity.
Defined.

(** ** Subscribing from the component *)

Lemma truthy_false s : truthy s = false ↔ s = "".
Proof. by destruct s. Qed.

Lemma subscribed_spec url feeds :
  RSSReader.subscribed url feeds = true ↔ url ∈ FeedView.url <$> feeds.
Proof.
  unfold RSSReader.subscribed. rewrite bool_decide_eq_true, Exists_exists, list_elem_of_fmap.
  split; intros (f & ? & ?); exists f; done.
Qed.

Lemma normalized_http trim input :
  String.prefix "http" (RSSReader.normalized trim input) = true.
Proof.
  unfold RSSReader.normalized. cbv zeta.
  destruct (String.prefix "http" (trim input)) eqn:Hp; [exact Hp|reflexivity].
Qed.

(** What a successful subscription leaves in the database. *)
Lemma subscribe_stores Date_getTime now url name iso entries d :
  let d' := upsertArticles Date_getTime now url name entries
              (dbAddFeed Date_getTime url name iso d) in
  meta d' = meta d ∧
  dom (feeds d') = {[url]} ∪ dom (feeds d) ∧
  (∀ u row, feeds d !! u = Some row → feeds d' !! u = Some row) ∧
  (feeds d !! url = None →
   feeds d' !! url = Some {| Feed.name := name; Feed.added_at := Date_getTime iso |}) ∧
  ((length (filter (prunable url) (map_to_list (articles d))) + length entries ≤ 500)%nat →
   ∀ e, e ∈ entries → is_Some (articles d' !! article_id url e)).
Proof.
  intros d'. subst d'. split_and!.
  - done.
  - simpl. apply dom_insert_or_ignore.
  - intros u row Hu. simpl. by apply lookup_insert_or_ignore_keeps.
  - intros Hfree. simpl. unfold insert_or_ignore. rewrite Hfree. apply lookup_insert_eq.
  - intros Hcap e He. rewrite articles_upsertArticles. simpl.
    rewrite prune_within_cap.
    + apply elem_of_dom. rewrite dom_loop. apply elem_of_union. right.
      apply elem_of_list_to_set, list_elem_of_fmap. eauto.
    + etrans; [apply length_prunable_loop|]. exact Hcap.
Qed.

(** X17. Subscribing from the component.  [addFeed] does nothing on an input
    that trims to the empty string; otherwise the url it works with starts
    with ["http"], the scheme ["https://"] being put before an input that
    does not.  It reports "Already subscribed." exactly when that url is in
    the component's feed list, and then, as when the fetch fails, the
    database is left as it was.  A subscription that goes through adds the
    url to the Feed rows and overwrites none of them; when the url was free
    the row stored has the (non-empty) title parsed from the feed and the
    time of the call; the marker is untouched; and every entry of the feed is
    stored when they fit under the cap.  [addSampleFeed] behaves alike with
    the url of the sample as it is and its name put before the parsed
    title. *)
Theorem RSSReader_addFeed_outcomes Date_getTime parseFromString trim net
    newFeedUrl sample_url sample_name feeds0 iso now d :
  let url := RSSReader.normalized trim newFeedUrl in
  let r := RSSReader.addFeed Date_getTime parseFromString trim net newFeedUrl feeds0 iso now d in
  let rs := RSSReader.addSampleFeed Date_getTime parseFromString net sample_url sample_name
              feeds0 iso now d in
  String.prefix "http" url = true ∧
  (r.1 = NotSubmitted ↔ trim newFeedUrl = "") ∧
  (trim newFeedUrl ≠ "" → (r.1 = AlreadySubscribed ↔ url ∈ FeedView.url <$> feeds0)) ∧
  (r.1 ≠ Subscribed → r.2 = d) ∧
  (r.1 = Subscribed →
     (url ∉ FeedView.url <$> feeds0) ∧
     ∃ result,
       fetchFeed parseFromString (net url) = Some result ∧
       feedTitle result ≠ "" ∧
       meta r.2 = meta d ∧
       dom (feeds r.2) = {[url]} ∪ dom (feeds d) ∧
       (∀ u row, feeds d !! u = Some row → feeds r.2 !! u = Some row) ∧
       (feeds d !! url = None →
        feeds r.2 !! url = Some {| Feed.name := feedTitle result;
                                    Feed.added_at := Date_getTime iso |}) ∧
       ((length (filter (prunable url) (map_to_list (articles d))) +
         length (items result) ≤ 500)%nat →
        ∀ e, e ∈ items result → is_Some (articles r.2 !! article_id url e))) ∧
  (rs.1 ≠ Subscribed → rs.2 = d) ∧
  (rs.1 = AlreadySubscribed ↔ sample_url ∈ FeedView.url <$> feeds0) ∧
  (rs.1 = Subscribed →
     ∃ result,
       fetchFeed parseFromString (net sample_url) = Some result ∧
       dom (feeds rs.2) = {[sample_url]} ∪ dom (feeds d) ∧
       (∀ u row, feeds d !! u = Some row → feeds rs.2 !! u = Some row) ∧
       (feeds d !! sample_url = None →
        feeds rs.2 !! sample_url =
          Some {| Feed.name := js_or sample_name (feedTitle result);
                  Feed.added_at := Date_getTime iso |})).
Proof.
  intros url r rs.
  assert (∀ x result, fetchFeed parseFromString x = Some result → feedTitle result ≠ "")
    as Htitle.
  { intros x result. unfold fetchFeed. destruct x as [resp|]; [|done].
    destruct (ok resp); [|done]. intros [= <-].
    unfold parseRSS, parseRSS_doc. case_bool_decide; simpl; by apply js_or_opt_nonempty. }
  split; [apply normalized_http|].
  split_and!.
  - subst r. unfold RSSReader.addFeed. rewrite <- truthy_false.
    destruct (truthy (trim newFeedUrl)); simpl; [|done].
    fold url. split; [|done].
    destruct (RSSReader.subscribed url feeds0); [done|].
    by destruct (fetchFeed parseFromString (net url)).
  - intros Hne. subst r. unfold RSSReader.addFeed.
    destruct (truthy (trim newFeedUrl)) eqn:Ht; [|by apply truthy_false in Ht].
    simpl. fold url. rewrite <- subscribed_spec.
    destruct (RSSReader.subscribed url feeds0); [done|].
    by destruct (fetchFeed parseFromString (net url)).
  - subst r. unfold RSSReader.addFeed.
    destruct (truthy (trim newFeedUrl)); simpl; [|done]. fold url.
    destruct (RSSReader.subscribed url feeds0); [done|].
    by destruct (fetchFeed parseFromString (net url)).
  - subst r. unfold RSSReader.addFeed.
    destruct (truthy (trim newFeedUrl)); simpl; [|done]. fold url.
    destruct (RSSReader.subscribed url feeds0) eqn:Hsub; [done|].
    destruct (fetchFeed parseFromString (net url)) as [result|] eqn:Hfetch; [|done].
    simpl. intros _. split.
    + rewrite <- subscribed_spec. congruence.
    + exists result. split; [done|]. split; [by eapply Htitle|].
      apply subscribe_stores.
  - subst rs. unfold RSSReader.addSampleFeed.
    destruct (RSSReader.subscribed sample_url feeds0); [done|].
    by destruct (fetchFeed parseFromString (net sample_url)).
  - subst rs. unfold RSSReader.addSampleFeed. rewrite <- subscribed_spec.
    destruct (RSSReader.subscribed sample_url feeds0); [done|].
    by destruct (fetchFeed parseFromString (net sample_url)).
  - subst rs. unfold RSSReader.addSampleFeed.
    destruct (RSSReader.subscribed sample_url feeds0); [done|].
    destruct (fetchFeed parseFromString (net sample_url)) as [result|] eqn:Hfetch; [|done].
    simpl. intros _. exists result. split; [done|].
    destruct (subscribe_stores Date_getTime now sample_url
                (js_or sample_name (feedTitle result)) iso (items result) d)
      as (_ & Hdom & Hkeep & Hnew & _).
    done.
Qed.

(** ** What the legacy import stores *)

Lemma lookup_run_articles_other s : ∀ w id,
  Forall (λ st, article_key st ≠ Some id) s →
  articles (db (run s w)) !! id = articles (db w) !! id.
Proof.
  induction s as [|st s IH]; intros w id Hall; [done|].
  apply Forall_cons in Hall as [Hst Hall].
  change (run (st :: s) w) with (run s (exec w st)). rewrite IH by done.
  destruct st as [u r|id' r| |key]; simpl; try done.
  unfold insert_or_ignore. destruct (articles (db w) !! id'); [done|].
  apply lookup_insert_ne. simpl in Hst. congruence.
Qed.

Lemma lookup_run_feeds_other s : ∀ w u,
  Forall (λ st, feed_key st ≠ Some u) s →
  feeds (db (run s w)) !! u = feeds (db w) !! u.
Proof.
  induction s as [|st s IH]; intros w u Hall; [done|].
  apply Forall_cons in Hall as [Hst Hall].
  change (run (st :: s) w) with (run s (exec w st)). rewrite IH by done.
  destruct st as [u' r|id' r| |key]; simpl; try done.
  unfold insert_or_ignore. destruct (feeds (db w) !! u'); [done|].
  apply lookup_insert_ne. simpl in Hst. congruence.
Qed.

Lemma storage_run_inserts s : ∀ w, Forall is_insert s → storage (run s w) = storage w.
Proof.
  induction s as [|st s IH]; intros w Hall; [done|].
  apply Forall_cons in Hall as [Hst Hall].
  change (run (st :: s) w) with (run s (exec w st)). rewrite IH by done.
  by destruct st.
Qed.

Lemma import_inserts_are_inserts Date_getTime c ls :
  Forall is_insert (import_inserts Date_getTime c ls).
Proof.
  unfold import_inserts. apply Forall_app. split.
  - apply Forall_forall. intros st Hin.
    apply elem_of_lookup_imap in Hin as (i & x & -> & _). exact I.
  - apply Forall_fmap, Forall_true. intros a. exact I.
Qed.

Lemma hasData_articles ls l : rss_articles ls = Some l → l ≠ [] → hasData ls = true.
Proof.
  intros Hl Hne. unfold hasData. rewrite Hl.
  destruct (rss_feeds ls) as [[|? ?]|]; destruct l; done.
Qed.

Lemma hasData_feeds ls l : rss_feeds ls = Some l → l ≠ [] → hasData ls = true.
Proof. intros Hl Hne. unfold hasData. rewrite Hl. by destruct l. Qed.

(** X18. What the legacy import stores.  On a database without the marker:
    a legacy article whose id is free in the store and which is the first of
    the snapshot with that id is stored as it is in the snapshot, with the
    read and starred flags of the legacy maps (1 exactly when the map has a
    true entry for the id) and [fetched_at] the time of the import; a legacy
    feed whose url is free and which is the first with that url is stored
    with its name and the time of its [addedAt], the current time when it has
    none.  When the snapshot has data the four localStorage keys are removed
    afterwards; when it has none localStorage is left as it is and the
    database only gains the marker. *)
Theorem import_first_wins Date_getTime c w :
  migrated (db w) = false →
  let ls := storage w in
  let w' := importFromLocalStorageIfNeeded Date_getTime c w in
  (∀ l1 a l2,
     rss_articles ls = Some (l1 ++ a :: l2) →
     Forall (λ b, LegacyArticle.id b ≠ LegacyArticle.id a) l1 →
     articles (db w) !! LegacyArticle.id a = None →
     articles (db w') !! LegacyArticle.id a = Some (legacy_row Date_getTime c ls a)) ∧
  (∀ a,
     (Row.is_read (legacy_row Date_getTime c ls a) = 1 ↔
      ∃ m, rss_read ls = Some m ∧ m !! LegacyArticle.id a = Some true) ∧
     (Row.is_starred (legacy_row Date_getTime c ls a) = 1 ↔
      ∃ m, rss_starred ls = Some m ∧ m !! LegacyArticle.id a = Some true) ∧
     Row.fetched_at (legacy_row Date_getTime c ls a) = now_ms c) ∧
  (∀ l1 f l2,
     rss_feeds ls = Some (l1 ++ f :: l2) →
     Forall (λ g, LegacyFeed.url g ≠ LegacyFeed.url f) l1 →
     feeds (db w) !! LegacyFeed.url f = None →
     feeds (db w') !! LegacyFeed.url f =
       Some {| Feed.name := LegacyFeed.name f;
               Feed.added_at :=
                 Date_getTime (js_or_opt (LegacyFeed.addedAt f) (now_iso c (length l1))) |}) ∧
  (hasData ls = true →
   storage w' = {| rss_feeds := None; rss_articles := None;
                   rss_read := None; rss_starred := None |}) ∧
  (hasData ls = false →
   storage w' = ls ∧ db w' = set_meta (<[MARKER := "1"]> (meta (db w))) (db w)).
Proof.
  intros Hm ls w'.
  assert (∀ m id, legacy_flag m id = 1 ↔ ∃ m', m = Some m' ∧ m' !! id = Some true) as Hflag.
  { intros m id. unfold legacy_flag. destruct m as [m'|].
    - destruct (m' !! id) as [[|]|] eqn:Hl; simpl; split; try done.
      + eauto.
      + intros (? & [= <-] & ?). congruence.
      + intros (? & [= <-] & ?). congruence.
    - split; [done|]. by intros (? & ? & _). }
  assert (∀ tl, hasData ls = true →
            tl = [ReplaceMarker; RemoveItem "rss-feeds"; RemoveItem "rss-articles";
                  RemoveItem "rss-read"; RemoveItem "rss-starred"] →
            w' = run tl (run (import_inserts Date_getTime c ls) w)) as Hrun.
  { intros tl Hd ->. subst w'. unfold importFromLocalStorageIfNeeded, import_script.
    rewrite Hm. fold ls. rewrite Hd. by rewrite run_app. }
  split_and!.
  - intros l1 a l2 Hl Hfirst Hfree.
    rewrite (Hrun _ (hasData_articles ls _ Hl ltac:(by destruct l1)) eq_refl).
    apply run_keeps_articles.
    unfold import_inserts. rewrite Hl. simpl. rewrite fmap_app, fmap_cons.
    rewrite !run_app.
    change (run (article_stmt Date_getTime c ls a :: ?s) ?w0)
      with (run s (exec w0 (article_stmt Date_getTime c ls a))).
    apply run_keeps_articles. simpl. unfold insert_or_ignore.
    rewrite !lookup_run_articles_other, Hfree.
    + apply lookup_insert_eq.
    + apply Forall_forall. intros st Hin.
      apply elem_of_lookup_imap in Hin as (i & x & -> & _). done.
    + apply Forall_fmap. eapply Forall_impl; [exact Hfirst|].
      intros b Hb. simpl. congruence.
  - intros a. simpl. split_and!; [apply Hflag|apply Hflag|done].
  - intros l1 f l2 Hl Hfirst Hfree.
    rewrite (Hrun _ (hasData_feeds ls _ Hl ltac:(by destruct l1)) eq_refl).
    apply run_keeps_feeds.
    unfold import_inserts. rewrite Hl. simpl. rewrite imap_app, imap_cons.
    rewrite !run_app.
    change (run (?st :: ?s) ?w0) with (run s (exec w0 st)).
    do 2 apply run_keeps_feeds. simpl. unfold insert_or_ignore.
    rewrite lookup_run_feeds_other, Hfree.
    + rewrite lookup_insert_eq. by rewrite Nat.add_0_r.
    + apply Forall_forall. intros st Hin.
      apply elem_of_lookup_imap in Hin as (i & x & -> & Hx). simpl.
      rewrite Forall_forall in Hfirst.
      apply list_elem_of_lookup_2 in Hx. specialize (Hfirst _ Hx). congruence.
  - intros Hd. rewrite (Hrun _ Hd eq_refl).
    set (w1 := run (import_inserts Date_getTime c ls) w).
    unfold run. simpl. reflexivity.
  - intros Hd. subst w'. unfold importFromLocalStorageIfNeeded, import_script.
    rewrite Hm. fold ls. rewrite Hd. done.
Qed.

Lemma import_first_wins_witness :
  articles (db (importFromLocalStorageIfNeeded ex_dates (ex_clock 5) ex_world)) !! old_id =
  Some (legacy_row ex_dates (ex_clock 5) ex_legacy
          {| LegacyArticle.id := old_id; LegacyArticle.feedUrl := ex_feed;
             LegacyArticle.feedName := "H"; LegacyArticle.title := "first title";
             LegacyArticle.link := "https://h/old";
             LegacyArticle.published := "2020-01-01T00:00:00Z";
             LegacyArticle.content := ""; LegacyArticle.author := "" |}).
Proof.
  destruct (import_first_wins ex_dates (ex_clock 5) ex_world eq_refl) as (Hfirst & _).
  set (a := {| LegacyArticle.id := old_id; LegacyArticle.feedUrl := ex_feed;
               LegacyArticle.feedName := "H"; LegacyArticle.title := "first title";
               LegacyArticle.link := "https://h/old";
               LegacyArticle.published := "2020-01-01T00:00:00Z";
               LegacyArticle.content := ""; LegacyArticle.author := "" |}).
  exact (Hfirst [] a [] eq_refl (Forall_nil_2 _) eq_refl).
Defined.

(** ** The flag columns are an invariant *)

(** X19. The flag columns only ever hold 0 or 1.  The empty store satisfies
    this, and every operation of the store keeps it: [upsertArticles],
    [markRead], [toggleRead], [toggleStar], [markAllRead], [addFeed],
    [removeFeed] and the legacy import.  So the boolean [rowToArticle] hands
    to the component ([!!r.is_starred], [!!r.is_read]) and the tests of the
    SQL statements ([is_starred = 1], [is_read = 0], [is_starred = 0]) always
    agree. *)
Theorem flags_invariant Date_getTime d :
  flags_ok d →
  (∀ now feedUrl feedName items,
     flags_ok (upsertArticles Date_getTime now feedUrl feedName items d)) ∧
  (∀ id, flags_ok (markRead id d) ∧ flags_ok (toggleRead id d) ∧
         flags_ok (toggleStar id d)) ∧
  (∀ ids, flags_ok (markAllRead ids d)) ∧
  (∀ url name addedAt, flags_ok (addFeed Date_getTime url name addedAt d)) ∧
  (∀ url, flags_ok (removeFeed url d)) ∧
  (∀ c ls, flags_ok (db (importFromLocalStorageIfNeeded Date_getTime c
                           {| db := d; storage := ls |}))) ∧
  (∀ id r, articles d !! id = Some r →
     let a := rowToArticle (id, r) in
     (Article.is_starred a = true ↔ Row.is_starred r = 1) ∧
     (Article.is_starred a = false ↔ Row.is_starred r = 0) ∧
     (Article.is_read a = true ↔ Row.is_read r = 1) ∧
     (Article.is_read a = false ↔ Row.is_read r = 0)).
Proof.
  intros Hok. split_and!.
  - intros. by apply flags_ok_upsertArticles.
  - intros id. split_and!;
      [by apply flags_ok_markRead|by apply flags_ok_toggleRead|by apply flags_ok_toggleStar].
  - intros. by apply flags_ok_markAllRead.
  - intros. by apply flags_ok_addFeed.
  - intros. by apply flags_ok_removeFeed.
  - intros. by apply flags_ok_import.
  - intros id r Hr a. subst a. simpl. rewrite !js_bool_true, !js_bool_false.
    destruct (Hok _ _ Hr) as [Hread Hstar]. unfold flag in *. lia.
Qed.

Lemma flags_invariant_witness :
  flags_ok empty_db ∧
  flags_ok (toggleStar old_id (upsertArticles ex_dates 1 ex_feed "H" [old_item] empty_db)).
Proof.
  split; [exact flags_ok_empty|].
  destruct (flags_invariant ex_dates empty_db flags_ok_empty) as (Hup & _).
  destruct (flags_invariant ex_dates _ (Hup 1 ex_feed "H" [old_item])) as (_ & Hflag & _).
  exact (proj2 (proj2 (Hflag old_id))).
Defined.

(** ** The filters of [listArticles] at the edges *)

Lemma conditions_split feedUrl filter :
  conditions feedUrl filter = conditions feedUrl None ++ conditions None filter.
Proof. unfold conditions. simpl. by rewrite app_nil_r. Qed.

(** X20. [listArticles] at the edges.  An empty [feedUrl] is no feed filter,
    and a [filter] other than ["unread"] and ["starred"] (such as the
    component's ["all"]) is no flag filter.  The two filters are independent:
    an article is listed under both exactly when it is listed under each.
    Every listing is part of the unfiltered one, which has one article per
    stored row; ids are never repeated; and under a non-empty [feedUrl]
    every listed article belongs to that feed. *)
Theorem listArticles_edges feedUrl filter db :
  listArticles (Some "") filter db = listArticles None filter db ∧
  (∀ f, f ≠ "unread" → f ≠ "starred" →
        listArticles feedUrl (Some f) db = listArticles feedUrl None db) ∧
  (∀ a, a ∈ listArticles feedUrl filter db ↔
        a ∈ listArticles feedUrl None db ∧ a ∈ listArticles None filter db) ∧
  (∀ a, a ∈ listArticles feedUrl filter db → a ∈ listArticles None None db) ∧
  List.length (listArticles None None db) = size (articles db) ∧
  NoDup (Article.id <$> listArticles feedUrl filter db) ∧
  (∀ u a, feedUrl = Some u → u ≠ "" → a ∈ listArticles feedUrl filter db →
          Article.feedUrl a = u).
Proof.
  split_and!.
  - reflexivity.
  - intros f Hu Hs. unfold listArticles, listArticles_rows, conditions.
    by rewrite !decide_False by done.
  - intros a. rewrite !elem_of_listArticles. rewrite (conditions_split feedUrl filter).
    split.
    + intros (id & r & -> & Hdb & [H1 H2]%Forall_app).
      split; exists id, r; done.
    + intros [(id & r & -> & Hdb & H1) (id' & r' & Heq & Hdb' & H2)].
      assert (id' = id) as -> by (by injection Heq).
      assert (r' = r) as -> by congruence.
      exists id, r. split_and!; [done|done|]. apply Forall_app. done.
  - intros a. rewrite !elem_of_listArticles.
    intros (id & r & -> & Hdb & _). exists id, r. split_and!; [done|done|constructor].
  - unfold listArticles. rewrite length_fmap, listArticles_all_perm.
    apply length_map_to_list.
  - apply NoDup_ids_listArticles.
  - intros u a -> Hu. rewrite elem_of_listArticles.
    intros (id & r & -> & _ & Hc). unfold conditions in Hc.
    rewrite truthy_nonempty in Hc by done.
    rewrite Forall_app, Forall_singleton in Hc. destruct Hc as [Hc _]. exact Hc.
Qed.

(** ** Unsubscribing *)

(** X21. [removeFeed] on the Feed rows.  The statement deletes the row of
    the url and no other, and leaves the marker alone; with no row for the
    url the Feed rows are unchanged.  Subscribing again after it stores the
    new name and time, where a second [addFeed] without it would have kept
    the first. *)
Theorem removeFeed_feeds Date_getTime url db :
  let db' := removeFeed url db in
  feeds db' !! url = None ∧
  (∀ u, u ≠ url → feeds db' !! u = feeds db !! u) ∧
  meta db' = meta db ∧
  (feeds db !! url = None → feeds db' = feeds db) ∧
  dom (feeds db') = dom (feeds db) ∖ {[url]} ∧
  (∀ name addedAt,
     feeds (addFeed Date_getTime url name addedAt db') !! url =
       Some {| Feed.name := name; Feed.added_at := Date_getTime addedAt |}) ∧
  (∀ name addedAt row,
     feeds db !! url = Some row →
     feeds (addFeed Date_getTime url name addedAt db) !! url = Some row).
Proof.
  intros db'. subst db'. simpl. split_and!.
  - apply lookup_delete_eq.
  - intros u Hne. by apply lookup_delete_ne.
  - done.
  - intros Hfree. by apply delete_id.
  - apply dom_delete_L.
  - intros name addedAt. unfold insert_or_ignore.
    rewrite lookup_delete_eq. apply lookup_insert_eq.
  - intros name addedAt row Hrow. unfold insert_or_ignore. by rewrite Hrow.
Qed.

(** ** Overlapping reloads *)

Lemma reload_run_snoc s evs e : reload_run s (evs ++ [e]) = reload_step (reload_run s evs) e.
Proof. unfold reload_run. by rewrite foldl_app. Qed.

Lemma loadSeq_run s evs :
  loadSeq (reload_run s evs) = (loadSeq s + length (filter (λ e, is_begin e) evs))%nat.
Proof.
  induction evs as [|e evs IH] using rev_ind; [simpl; lia|].
  rewrite reload_run_snoc, filter_app, length_app, Nat.add_assoc, <- IH.
  destruct e as [|seq arts]; simpl; [lia|].
  case_decide; simpl; lia.
Qed.

(** X22. Overlapping calls of [reloadArticles].  The counter only grows, by
    one per call.  An answer is shown only if it is for the call begun last:
    whatever is shown after some events is what was shown before or an
    answer delivered among them.  Once the answer of the call begun last has
    arrived it stays, in whatever order the answers of the earlier calls
    arrive, until a new call begins: every overlapping sequence of reloads
    ends showing the answer to the reload begun last. *)
Theorem reloadArticles_latest_wins s arts evs :
  Forall (λ e, e ≠ Begin) evs →
  (∀ arts', Deliver (loadSeq s) arts' ∈ evs → arts' = arts) →
  let s1 := reload_step s (Deliver (loadSeq s) arts) in
  shown s1 = arts ∧
  shown (reload_run s1 evs) = arts ∧
  loadSeq (reload_run s1 evs) = loadSeq s ∧
  (∀ s0 evs0, (loadSeq s0 ≤ loadSeq (reload_run s0 evs0))%nat ∧
              (shown (reload_run s0 evs0) = shown s0 ∨
               ∃ seq, Deliver seq (shown (reload_run s0 evs0)) ∈ evs0 ∧
                      (loadSeq s0 ≤ seq ≤ loadSeq (reload_run s0 evs0))%nat)).
Proof.
  intros Hno Hsame s1.
  assert (shown s1 = arts ∧ loadSeq s1 = loadSeq s) as [Hs1 Hseq1].
  { subst s1. simpl. by rewrite decide_False by (intros ?; done). }
  assert (shown (reload_run s1 evs) = arts ∧ loadSeq (reload_run s1 evs) = loadSeq s)
    as [Hshown Hseq].
  { clearbody s1. induction evs as [|e evs IH] using rev_ind; [done|].
    rewrite Forall_app, Forall_singleton in Hno. destruct Hno as [Hno He].
    destruct IH as [IHshown IHseq]; [done| |].
    { intros arts' Hin. apply Hsame, elem_of_app. by left. }
    rewrite reload_run_snoc. destruct e as [|seq arts']; [by destruct He|]. simpl.
    case_decide as Hstale; [done|]. simpl. split; [|done].
    apply Hsame, elem_of_app. right. apply list_elem_of_singleton.
    f_equal. congruence. }
  split_and!; [done|done|done|].
  intros s0 evs0. split; [rewrite loadSeq_run; lia|].
  induction evs0 as [|e evs0 IH] using rev_ind; [by left|].
  rewrite reload_run_snoc. destruct e as [|seq arts']; simpl.
  - destruct IH as [IH|(seq & Hin & Hle)]; [by left|].
    right. exists seq. split; [apply elem_of_app; by left|lia].
  - case_decide as Hstale.
    + destruct IH as [IH|(seq' & Hin & Hle)]; [by left|].
      right. exists seq'. split; [apply elem_of_app; by left|done].
    + simpl. right. exists seq. subst seq.
      split; [apply elem_of_app; right; by apply list_elem_of_singleton|].
      rewrite loadSeq_run. lia.
Qed.

Lemma reloadArticles_latest_wins_witness :
  shown (reload_run {| loadSeq := 0; shown := [] |}
           [Begin; Begin; Deliver 2 (listArticles None None read_db); Deliver 1 []]) =
  listArticles None None read_db.
Proof.
  apply (reloadArticles_latest_wins {| loadSeq := 2; shown := [] |}
           (listArticles None None read_db) [Deliver 1 []]).
  - apply Forall_cons_2; [done|apply Forall_nil_2].
  - intros arts' Hin. apply list_elem_of_singleton in Hin. discriminate.
Defined.
